(** * Flashcard generator: chunking and output parsing

    A shallow embedding of [utils/chunking.py] and [utils/llm.py], with
    the text cleaning of [utils/parsing.py], the Anki export of
    [utils/export.py] and the study mode of [app.py].

    Python strings are sequences of Unicode code points: a character is a
    code point in [N], a [str] is a list of them.  The library calls the
    code relies on ([str.strip], [str.splitlines], [str.split], the [re]
    patterns) are written out as functions over such lists; exceptions
    are values of an error monad; the tokenizer, the JSON decoder and the
    model call are external and enter as parameters. *)

From Stdlib Require Import Ascii String DecimalString.
From Stdlib Require Import List Bool Arith NArith ZArith Lia Permutation.
From Equations Require Import Equations.
Import ListNotations.

Set Implicit Arguments.

(* ================================================================== *)
(** * Python strings *)
(* ================================================================== *)

Module PyStr.

Definition char := N.
Definition str := list char.

(** An ASCII literal as a [str]. *)
Definition lit (s : string) : str := map N_of_ascii (list_ascii_of_string s).

Definition TAB : char := 9%N.
Definition LF : char := 10%N.
Definition CR : char := 13%N.
Definition SPACE : char := 32%N.
Definition EM_DASH : char := 8212%N.   (* U+2014 *)
Definition EN_DASH : char := 8211%N.   (* U+2013 *)
Definition BULLET : char := 8226%N.    (* U+2022 *)

Definition in_range (lo hi c : N) : bool := ((lo <=? c) && (c <=? hi))%N.

(** [str.isspace] on one character, which is also what [str.strip()]
    removes and what [\s] matches in a [str] pattern. *)
Definition is_space (c : char) : bool :=
  in_range 9 13 c || in_range 28 32 c || (c =? 133)%N || (c =? 160)%N
  || (c =? 5760)%N || in_range 8192 8202 c || in_range 8232 8233 c
  || (c =? 8239)%N || (c =? 8287)%N || (c =? 12288)%N.

(** The line boundaries of [str.splitlines]. *)
Definition is_linebreak (c : char) : bool :=
  in_range 10 13 c || in_range 28 30 c || (c =? 133)%N || in_range 8232 8233 c.

(** First code point of each run of ten decimal digits (category Nd,
    Unicode 14): what [\d] matches in a [str] pattern. *)
Definition decimal_zeros : list N :=
  [48; 1632; 1776; 1984; 2406; 2534; 2662; 2790; 2918; 3046; 3174; 3302;
   3430; 3558; 3664; 3792; 3872; 4160; 4240; 6112; 6160; 6470; 6608; 6784;
   6800; 6992; 7088; 7232; 7248; 42528; 43216; 43264; 43472; 43504; 43600;
   44016; 65296; 66720; 68912; 69734; 69872; 69942; 70096; 70384; 70736;
   70864; 71248; 71360; 71472; 71904; 72016; 72784; 73040; 73120; 92768;
   92864; 93008; 120782; 120792; 120802; 120812; 120822; 123200; 123632;
   125264; 130032]%N.

Definition is_digit (c : char) : bool :=
  existsb (fun z => in_range z (z + 9) c) decimal_zeros.

Definition eqb_str (a b : str) : bool :=
  if list_eq_dec N.eq_dec a b then true else false.

(** Truth value of a string or list: non-empty. *)
Definition truthy {A} (l : list A) : bool :=
  match l with [] => false | _ :: _ => true end.

Fixpoint drop_while (p : char -> bool) (s : str) : str :=
  match s with
  | [] => []
  | c :: t => if p c then drop_while p t else s
  end.

Fixpoint take_while (p : char -> bool) (s : str) : str :=
  match s with
  | [] => []
  | c :: t => if p c then c :: take_while p t else []
  end.

Definition lstrip (s : str) : str := drop_while is_space s.

(** Drops the trailing white space: a character stays when it is not
    white space or when something that stays follows it. *)
Fixpoint rstrip (s : str) : str :=
  match s with
  | [] => []
  | c :: t =>
      match rstrip t with
      | [] => if is_space c then [] else [c]
      | r => c :: r
      end
  end.

(** [s.strip()] *)
Definition strip (s : str) : str := rstrip (lstrip s).

(** [s.startswith(p)] *)
Fixpoint startswith (p s : str) : bool :=
  match p, s with
  | [], _ => true
  | _ :: _, [] => false
  | a :: p', b :: s' => (a =? b)%N && startswith p' s'
  end.

(** [s.split(sep, 1)] for a non-empty [sep], when [sep] occurs: the text
    before and after its first occurrence. *)
Fixpoint split_once (sep s : str) : option (str * str) :=
  if startswith sep s then Some ([], skipn (length sep) s)
  else match s with
       | [] => None
       | c :: t =>
           match split_once sep t with
           | Some (l, r) => Some (c :: l, r)
           | None => None
           end
       end.

(** [sep in s] *)
Definition contains (sep s : str) : bool :=
  match split_once sep s with Some _ => true | None => false end.

(** [s.split(sep, 1)]: one or two pieces. *)
Definition split1 (sep s : str) : list str :=
  match split_once sep s with
  | Some (l, r) => [l; r]
  | None => [s]
  end.

Definition cons_head (c : char) (ls : list str) : list str :=
  match ls with
  | [] => [[c]]
  | l :: rest => (c :: l) :: rest
  end.

(** [s.splitlines()]: the lines without their terminators; a final
    terminator opens no further line, and [\r\n] is one terminator.  The
    head of the result is the line the characters read so far go to. *)
Fixpoint splitlines (s : str) : list str :=
  match s with
  | [] => []
  | c :: t =>
      if (c =? CR)%N then
        match t with
        | c' :: t' => if (c' =? LF)%N then [] :: splitlines t' else [] :: splitlines t
        | [] => [[]]
        end
      else if is_linebreak c then [] :: splitlines t
      else cons_head c (splitlines t)
  end.

(** [sep.join(parts)] *)
Fixpoint join (sep : str) (parts : list str) : str :=
  match parts with
  | [] => []
  | [p] => p
  | p :: rest => p ++ sep ++ join sep rest
  end.

(** Lower case of one character as far as ASCII can tell: the letters
    A-Z, and the two other characters whose lower case starts with an
    ASCII letter (U+0130 gives i followed by U+0307, U+212A gives k).
    Every other character lower-cases to non-ASCII text and is left in
    place, which is all a comparison with an ASCII prefix can see. *)
Definition lower_char (c : char) : str :=
  if in_range 65 90 c then [(c + 32)%N]
  else if (c =? 304)%N then [105; 775]%N
  else if (c =? 8490)%N then [107]%N
  else [c].

(** [s.lower()], for comparison with ASCII prefixes. *)
Definition lower (s : str) : str := flat_map lower_char s.

(** [s.startswith((p1, p2, ...))] *)
Definition startswith_any (ps : list str) (s : str) : bool :=
  existsb (fun p => startswith p s) ps.

(** [s.find(c)] for a one-character [c]: the first index, if any. *)
Fixpoint find_char (c : char) (s : str) : option nat :=
  match s with
  | [] => None
  | d :: t => if (d =? c)%N then Some 0 else option_map S (find_char c t)
  end.

(** [s.rfind(c)] for a one-character [c]: the last index, if any. *)
Fixpoint rfind_char (c : char) (s : str) : option nat :=
  match s with
  | [] => None
  | d :: t =>
      match rfind_char c t with
      | Some i => Some (S i)
      | None => if (d =? c)%N then Some 0 else None
      end
  end.

Definition len {A} (l : list A) : Z := Z.of_nat (length l).

(** A slice bound as Python reads it: a negative bound counts from the
    end, and every bound is clamped to the sequence. *)
Definition clamp_index (n i : Z) : nat :=
  Z.to_nat (if (i <? 0)%Z then Z.max 0 (n + i) else Z.min i n).

(** [l[a:]] *)
Definition slice_from {A} (a : Z) (l : list A) : list A :=
  skipn (clamp_index (len l) a) l.

(** [l[:b]] *)
Definition slice_to {A} (b : Z) (l : list A) : list A :=
  firstn (clamp_index (len l) b) l.

(** [l[a:b]] *)
Definition slice {A} (a b : Z) (l : list A) : list A :=
  let i := clamp_index (len l) a in
  let j := clamp_index (len l) b in
  firstn (j - i) (skipn i l).

(** [str(n)] for an integer *)
Definition str_of_int (n : Z) : str := lit (NilZero.string_of_int (Z.to_int n)).

End PyStr.

(* ================================================================== *)
(** * Exceptions *)
(* ================================================================== *)

Module Exc.

Inductive exn :=
| ValueError        (* tuple unpacking of the wrong length *)
| IndexError        (* list index out of range *)
| ZeroDivisionError
| OtherException.   (* any exception that is not a JSONDecodeError *)

Inductive result (A : Type) :=
| Ok (a : A)
| Raise (e : exn).
Arguments Ok {A} a.
Arguments Raise {A} e.

Definition bind {A B} (m : result A) (k : A -> result B) : result B :=
  match m with
  | Ok a => k a
  | Raise e => Raise e
  end.

(** [a, b = l] *)
Definition unpack2 {A} (l : list A) : result (A * A) :=
  match l with
  | [a; b] => Ok (a, b)
  | _ => Raise ValueError
  end.

(** [l[i]] for a non-negative [i] *)
Definition index {A} (l : list A) (i : nat) : result A :=
  match nth_error l i with
  | Some x => Ok x
  | None => Raise IndexError
  end.

(** [try: body  except Exception: handler] *)
Definition try_except {A} (body : result A) (handler : A) : A :=
  match body with
  | Ok a => a
  | Raise _ => handler
  end.

(** A [for] loop whose body only appends to the output list: the body
    returns what it appends, an exception ends the loop. *)
Fixpoint for_each {A B} (body : A -> result (list B)) (l : list A)
  : result (list B) :=
  match l with
  | [] => Ok []
  | x :: rest =>
      bind (body x) (fun out =>
      bind (for_each body rest) (fun more => Ok (out ++ more)))
  end.

End Exc.

Declare Scope exc_scope.
Delimit Scope exc_scope with exc.
Notation "x <- m ;; k" := (Exc.bind m (fun x => k))
  (at level 61, m at next level, right associativity) : exc_scope.
Notation "' p <- m ;; k" := (Exc.bind m (fun x => match x with p => k end))
  (at level 61, p pattern, m at next level, right associativity) : exc_scope.

(* ================================================================== *)
(** * The compiled patterns of [utils/llm.py] *)
(* ================================================================== *)

Module PyRe.
Import PyStr.

(** [re.IGNORECASE] on a [str] pattern compares the simple lower case of
    the subject character with the pattern letter. *)
Definition simple_lower (c : char) : char :=
  if in_range 65 90 c then (c + 32)%N
  else if (c =? 304)%N then 105%N
  else if (c =? 8490)%N then 107%N
  else c.

(** A lower-case ASCII pattern letter [p] against [c], ignoring case.  The
    letters i and s have one more equivalent each: U+0131 and U+017F. *)
Definition ci_char (p c : char) : bool :=
  let l := simple_lower c in
  (l =? p)%N || ((p =? 105) && (l =? 305))%N || ((p =? 115) && (l =? 383))%N.

(** Literal text [p], ignoring case, at the start of [s]: what follows. *)
Fixpoint ci_prefix (p s : str) : option str :=
  match p, s with
  | [], _ => Some s
  | _ :: _, [] => None
  | a :: p', c :: s' => if ci_char a c then ci_prefix p' s' else None
  end.

(** [[:\-]] *)
Definition is_colon_dash (c : char) : bool := (c =? 58)%N || (c =? 45)%N.

Definition colon_dash (s : str) : option str :=
  match s with
  | c :: r => if is_colon_dash c then Some r else None
  | [] => None
  end.

(** The pattern "^\s*(x(tail)?[:\-]\s*)" with [re.IGNORECASE], matched at
    the start of [s]: the text after the match.  The leading [\s*] takes all the
    white space (the letter that follows is none); the optional group is
    tried first and given up when no [[:\-]] follows it. *)
Definition label_prefix (first : char) (tail : str) (s : str) : option str :=
  match ci_prefix [first] (lstrip s) with
  | None => None
  | Some r1 =>
      let long := match ci_prefix tail r1 with
                  | Some r2 => colon_dash r2
                  | None => None
                  end in
      match long with
      | Some r => Some (lstrip r)
      | None => option_map lstrip (colon_dash r1)
      end
  end.

(** [_Q_PREFIX = re.compile("^\s*(q(uestion)?[:\-]\s*)", re.IGNORECASE)] *)
Definition _Q_PREFIX : str -> option str := label_prefix 113%N (lit "uestion").

(** [_A_PREFIX = re.compile("^\s*(a(nswer)?[:\-]\s*)", re.IGNORECASE)] *)
Definition _A_PREFIX : str -> option str := label_prefix 97%N (lit "nswer").

(** [-], the bullet U+2022 or [*] *)
Definition is_mark (c : char) : bool :=
  (c =? 45)%N || (c =? BULLET)%N || (c =? 42)%N.

(** [[\)\.\-:]] *)
Definition is_closer (c : char) : bool :=
  (c =? 41)%N || (c =? 46)%N || (c =? 45)%N || (c =? 58)%N.

(** The group "(\d+[\)\.\-:]|\-|\u2022|\*)" at the start of [s].  [\d+]
    takes every digit, since a closer is no digit; the other
    alternatives are single marks, which are no digits either. *)
Definition num_group (s : str) : option str :=
  match s with
  | [] => None
  | c :: t =>
      if is_digit c then
        match drop_while is_digit t with
        | d :: r => if is_closer d then Some r else None
        | [] => None
        end
      else if is_mark c then Some t
      else None
  end.

(** [_NUM_PREFIX = re.compile(
       "^\s*[\-\u2022\*]?\s*(\d+[\)\.\-:]|\-|\u2022|\*)\s*", re.IGNORECASE)]
    matched at the start of [s]: the text after the match.  The optional
    leading mark is taken first; when the group does not follow it, the
    mark is given back and read as the group itself. *)
Definition _NUM_PREFIX (s : str) : option str :=
  let s0 := lstrip s in
  let marked := match s0 with
                | c :: t => if is_mark c then num_group (lstrip t) else None
                | [] => None
                end in
  match marked with
  | Some r => Some (lstrip r)
  | None => option_map lstrip (num_group s0)
  end.

(** [pattern.match(s)] as a truth value *)
Definition matches (pattern : str -> option str) (s : str) : bool :=
  match pattern s with Some _ => true | None => false end.

(** [pattern.sub("", s)] for a pattern anchored at the start of the text
    whose matches are never empty: the one match, if any, is cut off. *)
Definition sub_empty (pattern : str -> option str) (s : str) : str :=
  match pattern s with Some r => r | None => s end.

(** [re.sub("\s+", " ", s)]: every maximal run of white space becomes
    one space.  [in_run] says that the previous character was white
    space. *)
Fixpoint collapse_from (in_run : bool) (s : str) : str :=
  match s with
  | [] => []
  | c :: t =>
      if is_space c then
        if in_run then collapse_from true t else SPACE :: collapse_from true t
      else c :: collapse_from false t
  end.

Definition collapse_spaces (s : str) : str := collapse_from false s.

End PyRe.

(* ================================================================== *)
(** * [utils/llm.py]: the output parser *)
(* ================================================================== *)

Module Llm.
Import PyStr PyRe Exc.
Local Open Scope exc_scope.

Record card := mk_card
  { question : str; answer : str; source_chunk : Z }.

(** [{"question": q, "answer": a, "source_chunk": 0}] *)
Definition new_card (q a : str) : card := mk_card q a 0.

Definition _clean_piece (s : str) : str :=
  (* strip bullets like "1) ", "- " *)
  let s := sub_empty _NUM_PREFIX (strip s) in
  (* remove leading Q:/A: *)
  let s := sub_empty _Q_PREFIX s in
  let s := sub_empty _A_PREFIX s in
  (* collapse spaces *)
  strip (collapse_spaces s).

(** [if q and a: out.append(...)] *)
Definition emit (q a : str) : list card :=
  if truthy q && truthy a then [new_card q a] else [].

(** Body of the loop of [_parse_tsv_lines]. *)
Definition tsv_line (raw : str) : result (list card) :=
  let line := strip raw in
  if negb (truthy line) || negb (contains [TAB] line) then Ok []
  else
    '(q, a) <- unpack2 (split1 [TAB] line) ;;
    let q := _clean_piece q in
    let a := _clean_piece a in
    Ok (emit q a).

Definition _parse_tsv_lines (text : str) : result (list card) :=
  for_each tsv_line (splitlines text).

(** The two [try] blocks of [_parse_q_a_one_line], for the delimiter
    [delim] (" A:" or " Answer:"). *)
Definition one_line_try (delim line : str) : list card :=
  try_except
    (seg <- index (split1 (lit ":") line) 1 ;;
     q <- index (split1 delim seg) 0 ;;
     a <- index (split1 delim line) 1 ;;
     let q := _clean_piece q in
     let a := _clean_piece a in
     Ok (emit q a))
    [].

(** Body of the loop of [_parse_q_a_one_line]. *)
Definition one_line_line (raw : str) : result (list card) :=
  let line := strip raw in
  if negb (truthy line) then Ok []
  else if contains (lit " A:") line && startswith (lit "q:") (lower line) then
    Ok (one_line_try (lit " A:") line)
  else if contains (lit " Answer:") line
          && startswith_any [lit "q:"; lit "question:"] (lower line) then
    Ok (one_line_try (lit " Answer:") line)
  else Ok [].

Definition _parse_q_a_one_line (text : str) : result (list card) :=
  for_each one_line_line (splitlines text).

(** [[ln.strip() for ln in text.splitlines() if ln.strip()]] *)
Definition nonblank_lines (text : str) : list str :=
  filter truthy (map strip (splitlines text)).

(** Body of the [while] loop of [_parse_q_a_two_lines] at index [i]:
    whether the pair matched, and what is appended. *)
Definition two_lines_body (lines : list str) (i : nat)
  : result (bool * list card) :=
  l1 <- index lines i ;;
  l2 <- index lines (i + 1) ;;
  if matches _Q_PREFIX l1 && matches _A_PREFIX l2 then
    let q := _clean_piece (sub_empty _Q_PREFIX l1) in
    let a := _clean_piece (sub_empty _A_PREFIX l2) in
    Ok (true, emit q a)
  else Ok (false, []).

(** [while i < len(lines) - 1: ...], with [i += 2] after a matching pair
    and [i += 1] otherwise.  Over the integers [i < len(lines) - 1] is
    [i + 1 < len(lines)]. *)
Equations? two_lines_loop (lines : list str) (i : nat) (out : list card)
  : result (list card) by wf (length lines - i) lt :=
  two_lines_loop lines i out with lt_dec (i + 1) (length lines) := {
    | right _ => Ok out
    | left Hlt with two_lines_body lines i := {
        | Raise e => Raise e
        | Ok (true, cards) => two_lines_loop lines (i + 2) (out ++ cards)
        | Ok (false, cards) => two_lines_loop lines (i + 1) (out ++ cards) } }.
Proof.
  all: lia.
Qed.

Definition _parse_q_a_two_lines (text : str) : result (list card) :=
  two_lines_loop (nonblank_lines text) 0 [].

(** The separators tried by [_parse_numbered_pairs], in order. *)
Definition SEPARATORS : list str :=
  [lit " - "; [SPACE; EM_DASH; SPACE]; lit " : "; [SPACE; EN_DASH; SPACE]].

(** [for sep in [...]: if sep in line: ...; break] *)
Fixpoint numbered_seps (seps : list str) (line : str) : result (list card) :=
  match seps with
  | [] => Ok []
  | sep :: rest =>
      if contains sep line then
        '(q, a) <- unpack2 (split1 sep line) ;;
        let q := _clean_piece q in
        let a := _clean_piece a in
        let q := if startswith_any [lit "q:"; lit "question:"] (lower q)
                 then _clean_piece q else q in
        let a := if startswith_any [lit "a:"; lit "answer:"] (lower a)
                 then _clean_piece a else a in
        Ok (emit q a)
      else numbered_seps rest line
  end.

(** Body of the outer loop of [_parse_numbered_pairs]. *)
Definition numbered_line (raw : str) : result (list card) :=
  let line := strip raw in
  if negb (truthy line) then Ok []
  else
    (* remove leading numbers/bullets *)
    let line := sub_empty _NUM_PREFIX line in
    numbered_seps SEPARATORS line.

Definition _parse_numbered_pairs (text : str) : result (list card) :=
  for_each numbered_line (splitlines text).

(** A decoded JSON document.  A number keeps the text Python prints for
    it; an object keeps its keys in order, each key once. *)
Inductive json :=
| JNull
| JBool (b : bool)
| JNumber (text : str)
| JString (s : str)
| JArray (items : list json)
| JObject (fields : list (str * json)).

(** What [json.loads] does with a text: it returns a document, raises
    [json.JSONDecodeError], or raises something else (CPython raises
    [RecursionError] on deeply nested brackets, and a plain [ValueError]
    on an integer literal over the digit limit of [int]). *)
Inductive loads_outcome :=
| Loaded (v : json)
| DecodeError
| OtherError.

(** [d.get(key, default)] *)
Fixpoint dict_get (fields : list (str * json)) (key : str) (default : json)
  : json :=
  match fields with
  | [] => default
  | (k, v) :: rest => if eqb_str k key then v else dict_get rest key default
  end.

Section Decoder.

(** The standard library's decoder, and [str(v)] for a decoded value that
    is no string. *)
Variable json_loads : str -> loads_outcome.
Variable py_repr : json -> str.

(** [str(v)] *)
Definition py_str (v : json) : str :=
  match v with
  | JString s => s
  | _ => py_repr v
  end.

(** Body of the loop over the decoded list. *)
Definition json_item (item : json) : list card :=
  match item with
  | JObject fields =>
      let q := _clean_piece (py_str (dict_get fields (lit "question") (JString []))) in
      let a := _clean_piece (py_str (dict_get fields (lit "answer") (JString []))) in
      emit q a
  | _ => []
  end.

(** The [try] / [except json.JSONDecodeError] at the head of
    [_parse_json_list]: the decoded data, [None] where the function
    returns the empty list at once.  Only a [JSONDecodeError] of the
    first attempt is caught; the second attempt, on the text between the
    first "[" and the last "]", catches every exception. *)
Definition json_data (text : str) : result (option json) :=
  match json_loads text with
  | Loaded data => Ok (Some data)
  | OtherError => Raise OtherException
  | DecodeError =>
      match find_char 91%N text, rfind_char 93%N text with
      | Some start, Some end_ =>
          if start <? end_ then
            match json_loads (slice (Z.of_nat start) (Z.of_nat end_ + 1) text) with
            | Loaded data => Ok (Some data)
            | _ => Ok None
            end
          else Ok None
      | _, _ => Ok None
      end
  end.

Definition _parse_json_list (text : str) : result (list card) :=
  data <- json_data text ;;
  match data with
  | Some (JArray items) => Ok (flat_map json_item items)
  | _ => Ok []
  end.

(** [for p in parsers: cards = p(text); if cards: return cards] and the
    final [return []]. *)
Fixpoint first_nonempty (parsers : list (str -> result (list card)))
  (text : str) : result (list card) :=
  match parsers with
  | [] => Ok []
  | p :: rest =>
      cards <- p text ;;
      if truthy cards then Ok cards else first_nonempty rest text
  end.

Definition parsers : list (str -> result (list card)) :=
  [ _parse_tsv_lines;
    _parse_q_a_one_line;
    _parse_q_a_two_lines;
    _parse_numbered_pairs;
    _parse_json_list ].

Definition _robust_parse_any (text : str) : result (list card) :=
  first_nonempty parsers text.

End Decoder.

(** ** Corpus compression and the prompts *)

(** [round(a / b)] for integers [a] and [b > 0]: the nearest integer,
    a tie going to the even one. *)
Definition round_div (a b : Z) : Z :=
  let q := (a / b)%Z in
  let r := (a mod b)%Z in
  if (2 * r <? b)%Z then q
  else if (b <? 2 * r)%Z then (q + 1)%Z
  else if Z.even q then q else (q + 1)%Z.

(** [range(n)] *)
Definition range (n : Z) : list Z := map Z.of_nat (seq 0 (Z.to_nat n)).

Definition _compress_corpus (text : str) (max_chars slices : Z) : result str :=
  if (len text <=? max_chars)%Z then Ok text
  else if (slices =? 0)%Z then Raise ZeroDivisionError
  else
    let slice_len := (max_chars / slices)%Z in
    let segs :=
      map (fun i =>
             let start := round_div (i * (len text - slice_len))
                                    (Z.max 1 (slices - 1)) in
             slice start (start + slice_len) text)
          (range slices) in
    Ok (join ([LF] ++ lit "..." ++ [LF]) segs).

Definition SYSTEM_TURBO : str :=
  lit "you create high-quality study flashcards from user notes. "
  ++ lit "ask clear, testable questions and give short, precise answers only from the notes. "
  ++ lit "prefer why/how/compare when useful. if not in notes, write 'not found in notes'. "
  ++ lit "return exactly N flashcards.".

(** [USER_TURBO.format(corpus=corpus, n_total=int(n_total))] *)
Definition USER_TURBO (corpus : str) (n_total : Z) : str :=
  lit "notes (compressed excerpts):" ++ [LF] ++ lit "---" ++ [LF]
  ++ corpus ++ [LF] ++ lit "---" ++ [LF; LF]
  ++ lit "create exactly " ++ str_of_int n_total
  ++ lit " flashcards about the core ideas. keep answers 1" ++ [EN_DASH]
  ++ lit "2 sentences." ++ [LF]
  ++ lit "preferred output: one line per card, tab-separated -> question"
  ++ [TAB] ++ lit "answer" ++ [LF]
  ++ lit "acceptable fallback formats if needed: 'Q: ... A: ...' on one line OR two lines."
  ++ [LF]
  ++ lit "do not add numbering, bullets, headers, or extra commentary.".

(** The reminder appended to the user prompt of the second call.  The
    source spells the tab as a backslash and a [t], two characters, and
    so does the prompt. *)
Definition STRICT_REMINDER : str :=
  [LF] ++ lit "Respond TSV only: question\tanswer per line; no extra text.".

(** ** The orchestrator *)

Section Orchestrator.

Variable json_loads : str -> loads_outcome.
Variable py_repr : json -> str.
(** Sampling temperature (a float, only passed on). *)
Variable temperature : Type.

(** One chat completion request: the system and user messages and the
    sampling parameters. *)
Record request := mk_request
  { system_msg : str; user_msg : str; temp : temperature; max_tokens : Z }.

(** A computation that calls the model: it returns, or it sends a request
    and goes on with the text of the answer
    ([resp.choices[0].message.content or ""]). *)
Inductive prog (A : Type) :=
| Ret (a : A)
| Call (req : request) (k : str -> prog A).
Arguments Ret {A} a.
Arguments Call {A} req k.

Definition generate_flashcards_turbo
  (full_text : str) (n_total : Z) (t : temperature) (topics : list str)
  : prog (result (list card)) :=
  match _compress_corpus full_text 12000 8 with
  | Raise e => Ret (Raise e)
  | Ok corpus =>
      let corpus := if truthy topics
                    then corpus ++ [LF] ++ lit "Focus on: " ++ join (lit ", ") topics
                    else corpus in
      let user := USER_TURBO corpus n_total in
      let limit := Z.min 1200 (45 * Z.max 1 n_total) in
      Call (mk_request SYSTEM_TURBO user t limit) (fun text =>
        match _robust_parse_any json_loads py_repr text with
        | Raise e => Ret (Raise e)
        | Ok cards =>
            if (Z.max 1 (n_total / 2) <=? len cards)%Z
            then Ret (Ok (slice_to n_total cards))
            else
              (* second try: very strict reminder to return TSV only *)
              Call (mk_request SYSTEM_TURBO (user ++ STRICT_REMINDER) t limit)
                (fun text2 =>
                   match _robust_parse_any json_loads py_repr text2 with
                   | Raise e => Ret (Raise e)
                   | Ok cards2 => Ret (Ok (slice_to n_total cards2))
                   end)
        end)
  end.

(** Running a computation against a model: [model k req] is the text the
    model answers to [req] when it is the [k]-th call.  The result comes
    with the requests sent, in order. *)
Fixpoint run {A} (model : nat -> request -> str) (k : nat) (p : prog A)
  : A * list request :=
  match p with
  | Ret a => (a, [])
  | Call req cont =>
      let '(a, sent) := run model (S k) (cont (model k req)) in
      (a, req :: sent)
  end.

End Orchestrator.

End Llm.

(* ================================================================== *)
(** * [utils/chunking.py] *)
(* ================================================================== *)

Module Chunking.
Import PyStr Exc.

(** ** The unit splitter *)

(** [text.split("\n")]: the physical lines; every line but the last one
    is followed by a line feed in the text. *)
Fixpoint split_lf (s : str) : list str :=
  match s with
  | [] => [[]]
  | c :: t => if (c =? LF)%N then [] :: split_lf t else cons_head c (split_lf t)
  end.

(** [[A-Z0-9]] *)
Definition is_caps (c : char) : bool := in_range 65 90 c || in_range 48 57 c.

(** [[A-Z0-9 \-]] *)
Definition is_caps_body (c : char) : bool :=
  is_caps c || (c =? SPACE)%N || (c =? 45)%N.

(** The alternative "#{1,6} .*" on a whole line: one to six [#], then a
    space, then anything. *)
Definition is_md_heading (line : str) : bool :=
  let hashes := length (take_while (N.eqb 35) line) in
  (1 <=? hashes) && (hashes <=? 6)
  && match skipn hashes line with
     | c :: _ => (c =? SPACE)%N
     | [] => false
     end.

(** The alternative "[A-Z0-9][A-Z0-9 \-]{6,}" on a whole line. *)
Definition is_caps_heading (line : str) : bool :=
  match line with
  | c :: rest => is_caps c && forallb is_caps_body rest && (6 <=? length rest)
  | [] => false
  end.

(** A line that "(?m)^(?:#{1,6} .*|[A-Z0-9][A-Z0-9 \-]{6,})\n" matches
    when a line feed follows it: neither alternative can stop before the
    end of the line, and neither can read past it. *)
Definition is_heading (line : str) : bool :=
  is_md_heading line || is_caps_heading line.

(** [re.split] on the heading pattern, over the physical lines: a heading
    line that is followed by a line feed is a separator, every other line
    goes to the current part ([cur]) with its line feed. *)
Fixpoint heading_parts_from (cur : str) (lines : list str) : list str :=
  match lines with
  | [] => [cur]
  | l :: rest =>
      match rest with
      | [] => [cur ++ l]
      | _ :: _ =>
          if is_heading l then cur :: heading_parts_from [] rest
          else heading_parts_from (cur ++ l ++ [LF]) rest
      end
  end.

Definition heading_parts (text : str) : list str :=
  heading_parts_from [] (split_lf text).

(** Where a scan stands with respect to the separators of a split. *)
Inductive scan_mode :=
| Plain        (* no separator can start here *)
| Armed        (* a separator can start here *)
| InSeparator. (* inside a separator *)

(** [re.split("\n\n+", text)]: a separator is a maximal run of two or
    more line feeds.  The head of the result is the part the characters
    read so far go to. *)
Fixpoint paragraph_parts_from (in_sep : bool) (s : str) : list str :=
  match s with
  | [] => [[]]
  | c :: t =>
      if (c =? LF)%N then
        if in_sep then paragraph_parts_from true t
        else match t with
             | c' :: _ =>
                 if (c' =? LF)%N then [] :: paragraph_parts_from true t
                 else cons_head c (paragraph_parts_from false t)
             | [] => cons_head c (paragraph_parts_from false t)
             end
      else cons_head c (paragraph_parts_from false t)
  end.

Definition paragraph_parts (text : str) : list str :=
  paragraph_parts_from false text.

(** [[.!?]] *)
Definition is_stop (c : char) : bool := (c =? 46)%N || (c =? 33)%N || (c =? 63)%N.

(** [re.split("(?<=[.!?])\s+", text)]: a separator is a maximal run of
    white space that follows a full stop, exclamation mark or question
    mark. *)
Fixpoint sentence_parts_from (mode : scan_mode) (s : str) : list str :=
  match s with
  | [] => [[]]
  | c :: t =>
      if is_space c then
        match mode with
        | Armed => [] :: sentence_parts_from InSeparator t
        | InSeparator => sentence_parts_from InSeparator t
        | Plain => cons_head c (sentence_parts_from Plain t)
        end
      else cons_head c (sentence_parts_from (if is_stop c then Armed else Plain) t)
  end.

Definition sentence_parts (text : str) : list str :=
  sentence_parts_from Plain text.

(** [[p.strip() for p in parts if p.strip()]] *)
Definition stripped_nonblank (parts : list str) : list str :=
  filter truthy (map strip parts).

Definition _split_candidates (text : str) : list str :=
  (* split by markdown-ish headings or all-caps lines first *)
  let parts := heading_parts text in
  if 1 <? length parts then stripped_nonblank parts
  else
    (* then by paragraphs *)
    let paras := stripped_nonblank (paragraph_parts text) in
    if 1 <? length paras then paras
    else
      (* fallback: sentences via simple regex *)
      stripped_nonblank (sentence_parts text).

(** ** The chunk packer *)

Section Packer.

(** The tokenizer ([tiktoken]'s encoder), which [_get_encoder] is taken
    to have returned.  [enc.encode] refuses a text that spells one of
    the encoder's special tokens with a [ValueError], which [chunk_text]
    does not catch; [enc.decode] returns on every token sequence that
    comes from [enc.encode]. *)
Variable token : Type.
Variable encode : str -> result (list token).
Variable decode : list token -> str.

(** [len(enc.encode(s))] *)
Definition ntokens (s : str) : result Z :=
  match encode s with
  | Ok toks => Ok (len toks)
  | Raise e => Raise e
  end.

Definition PARA : str := [LF; LF].

(** [cur_tok > target_tokens * 1.3].  The product is a float; for
    targets below 2^48 the comparison with the integer [cur_tok] comes
    out as the exact one, [10 * cur_tok > 13 * target_tokens]. *)
Definition over_budget (cur_tok target_tokens : Z) : bool :=
  (13 * target_tokens <? 10 * cur_tok)%Z.

(** State of the loop of [chunk_text]. *)
Record state := mk_state
  { chunks : list str; cur : list str; cur_tok : Z }.

(** The inner [while] loop: the hard split by tokens.  [None] when the
    loop has not ended within [fuel] rounds; [Some (Raise e)] when the
    tokenizer raised [e]. *)
Fixpoint hard_split (fuel : nat) (target_tokens overlap_tokens : Z)
  (st : state) : option (result state) :=
  if over_budget (cur_tok st) target_tokens then
    match fuel with
    | O => None
    | S fuel' =>
        match encode (join PARA (cur st)) with
        | Raise e => Some (Raise e)
        | Ok toks =>
            let part := decode (slice_to target_tokens toks) in
            let rest := decode (slice_from (target_tokens - overlap_tokens) toks) in
            match ntokens rest with
            | Raise e => Some (Raise e)
            | Ok rest_tok =>
                hard_split fuel' target_tokens overlap_tokens
                  (mk_state (chunks st ++ [part]) [rest] rest_tok)
            end
        end
    end
  else Some (Ok st).

(** Body of the [for] loop over the units. *)
Definition add_unit (fuel : nat) (target_tokens overlap_tokens : Z)
  (st : state) (unit : str) : option (result state) :=
  match ntokens unit with
  | Raise e => Some (Raise e)
  | Ok utoks =>
      if (cur_tok st + utoks <=? target_tokens)%Z then
        Some (Ok (mk_state (chunks st) (cur st ++ [unit]) (cur_tok st + utoks)))
      else
        let chunks1 := if truthy (cur st)
                       then chunks st ++ [join PARA (cur st)]
                       else chunks st in
        (* start new chunk, but try to add overlap from end of previous
           chunk; if a single unit is gigantic, we hard-split it by
           tokens *)
        match rev chunks1 with
        | last_chunk :: _ =>
            match encode last_chunk with
            | Raise e => Some (Raise e)
            | Ok last_tokens =>
                let overlap_slice :=
                  decode (slice_from (Z.max 0 (len last_tokens - overlap_tokens))
                                     last_tokens) in
                match ntokens overlap_slice with
                | Raise e => Some (Raise e)
                | Ok otoks =>
                    hard_split fuel target_tokens overlap_tokens
                      (mk_state chunks1 [overlap_slice; unit] (otoks + utoks))
                end
            end
        | [] =>
            hard_split fuel target_tokens overlap_tokens
              (mk_state chunks1 [unit] utoks)
        end
  end.

Fixpoint add_units (fuel : nat) (target_tokens overlap_tokens : Z)
  (st : state) (units : list str) : option (result state) :=
  match units with
  | [] => Some (Ok st)
  | unit :: rest =>
      match add_unit fuel target_tokens overlap_tokens st unit with
      | Some (Ok st') => add_units fuel target_tokens overlap_tokens st' rest
      | Some (Raise e) => Some (Raise e)
      | None => None
      end
  end.

(** The final flush. *)
Definition flush (st : state) : list str :=
  if truthy (cur st) then chunks st ++ [join PARA (cur st)] else chunks st.

(** [chunk_text(text, target_tokens, overlap_tokens)]; [fuel] bounds the
    rounds of each hard split.  [None] says that a hard split did not
    end, [Some (Raise e)] that the tokenizer raised [e], [Some (Ok l)]
    that the chunks [l] are returned. *)
Definition chunk_text (fuel : nat) (text : str)
  (target_tokens overlap_tokens : Z) : option (result (list str)) :=
  let units := _split_candidates text in
  match add_units fuel target_tokens overlap_tokens (mk_state [] [] 0) units with
  | Some (Ok st) => Some (Ok (flush st))
  | Some (Raise e) => Some (Raise e)
  | None => None
  end.

End Packer.

(** A tokenizer with one token per character, for running the packer. *)
Definition char_encode (s : str) : result (list char) := Ok s.
Definition char_decode (ts : list char) : str := ts.

(** The same tokenizer with one special token, which it refuses as
    [tiktoken] refuses its own. *)
Definition END_OF_TEXT : str := lit "<|endoftext|>".
Definition guarded_encode (s : str) : result (list char) :=
  if contains END_OF_TEXT s then Raise ValueError else Ok s.

End Chunking.

(* ================================================================== *)
(** * [utils/parsing.py]: cleaning the text of a file *)
(* ================================================================== *)

Module Parsing.
Import PyStr Chunking.

Definition NBSP : char := 160%N.   (* U+00A0 *)

(** [s.replace("\r\n", "\n")] *)
Fixpoint replace_crlf (s : str) : str :=
  match s with
  | [] => []
  | c :: t =>
      if (c =? CR)%N then
        match t with
        | c' :: t' => if (c' =? LF)%N then LF :: replace_crlf t'
                      else c :: replace_crlf t
        | [] => [c]
        end
      else c :: replace_crlf t
  end.

(** [s.replace(a, b)] and [re.sub(a, b, s)] for one-character [a], [b]. *)
Definition replace_char (a b : char) (s : str) : str :=
  map (fun c => if (c =? a)%N then b else c) s.

(** [[ \t]] *)
Definition is_blank (c : char) : bool := (c =? SPACE)%N || (c =? TAB)%N.

(** [re.sub("[ \t]+", " ", s)]: every maximal run of spaces and tabs
    becomes one space; [in_run] says that the run has been written. *)
Fixpoint collapse_blanks_from (in_run : bool) (s : str) : str :=
  match s with
  | [] => []
  | c :: t =>
      if is_blank c then
        if in_run then collapse_blanks_from true t
        else SPACE :: collapse_blanks_from true t
      else c :: collapse_blanks_from false t
  end.

Definition collapse_blanks (s : str) : str := collapse_blanks_from false s.

(** [re.sub("\n{3,}", "\n\n", s)]: of every maximal run of line feeds the
    first two stay; [seen] counts the line feeds of the run read so far. *)
Fixpoint squeeze_newlines_from (seen : nat) (s : str) : str :=
  match s with
  | [] => []
  | c :: t =>
      if (c =? LF)%N then
        if seen <? 2 then LF :: squeeze_newlines_from (S seen) t
        else squeeze_newlines_from seen t
      else c :: squeeze_newlines_from 0 t
  end.

Definition squeeze_newlines (s : str) : str := squeeze_newlines_from 0 s.

(** The dictionary [freq], in insertion order. *)
Definition freq_table := list (str * nat).

(** [freq.get(k, default)] *)
Fixpoint freq_get (freq : freq_table) (k : str) (default : nat) : nat :=
  match freq with
  | [] => default
  | (k', v) :: rest => if eqb_str k' k then v else freq_get rest k default
  end.

(** [freq[k] = v] *)
Fixpoint freq_set (freq : freq_table) (k : str) (v : nat) : freq_table :=
  match freq with
  | [] => [(k, v)]
  | (k', v') :: rest =>
      if eqb_str k' k then (k', v) :: rest else (k', v') :: freq_set rest k v
  end.

(** [0 < len(ln) <= 60] *)
Definition is_short (ln : str) : bool := (0 <? length ln) && (length ln <=? 60).

(** The loop that counts the short lines. *)
Definition count_lines (lines : list str) : freq_table :=
  fold_left (fun freq ln =>
               if is_short ln then freq_set freq ln (freq_get freq ln 0 + 1)
               else freq)
            lines [].

(** [{k for k, v in freq.items() if v >= 3}] *)
Definition repeated_lines (freq : freq_table) : list str :=
  map fst (filter (fun kv => 3 <=? snd kv) freq).

(** [ln in repeated] *)
Definition is_repeated (repeated : list str) (ln : str) : bool :=
  existsb (eqb_str ln) repeated.

Definition clean_text (text : str) : str :=
  let s := replace_char CR LF (replace_crlf text) in
  (* collapse excessive spaces *)
  let s := replace_char NBSP SPACE s in
  let s := collapse_blanks s in
  (* dedupe newlines to max 2 *)
  let s := squeeze_newlines s in
  (* try to remove super-common short lines (likely headers/footers) *)
  let lines := map strip (split_lf s) in
  let repeated := repeated_lines (count_lines lines) in
  let lines := if truthy repeated
               then filter (fun ln => negb (is_repeated repeated ln)) lines
               else lines in
  strip (join [LF] lines).

End Parsing.

(* ================================================================== *)
(** * [app.py]: the study mode *)
(* ================================================================== *)

Module App.
Import PyStr Exc Llm.
Local Open Scope exc_scope.

(** The status of a card: ["new"], ["review"] or ["correct"]. *)
Inductive status := New | Review | Correct.

Definition status_eqb (a b : status) : bool :=
  match a, b with
  | New, New | Review, Review | Correct, Correct => true
  | _, _ => false
  end.

(** The dictionary [study_status], from card index to status, in
    insertion order. *)
Definition status_table := list (Z * status).

(** [d.get(k, default)] *)
Fixpoint status_get (d : status_table) (k : Z) (default : status) : status :=
  match d with
  | [] => default
  | (k', v) :: rest => if (k' =? k)%Z then v else status_get rest k default
  end.

(** [k in d] *)
Fixpoint status_mem (d : status_table) (k : Z) : bool :=
  match d with
  | [] => false
  | (k', _) :: rest => (k' =? k)%Z || status_mem rest k
  end.

(** [d[k] = v] *)
Fixpoint status_set (d : status_table) (k : Z) (v : status) : status_table :=
  match d with
  | [] => [(k, v)]
  | (k', v') :: rest =>
      if (k' =? k)%Z then (k', v) :: rest else (k', v') :: status_set rest k v
  end.

(** The position that the index [i] stands for in a sequence of length
    [n]: a negative index counts from the end. *)
Definition position (n i : Z) : nat := Z.to_nat (if (i <? 0)%Z then n + i else i).

(** [l[i]] *)
Definition py_index {A} (l : list A) (i : Z) : result A :=
  if ((i <? - len l) || (len l <=? i))%Z then Raise IndexError
  else index l (position (len l) i).

(** [l.pop(i)]: the element and what is left of the list. *)
Definition py_pop {A} (l : list A) (i : Z) : result (A * list A) :=
  x <- py_index l i ;;
  Ok (x, firstn (position (len l) i) l ++ skipn (S (position (len l) i)) l).

(** The study keys of [st.session_state]. *)
Record session := mk_session
  { study_order : list Z;
    study_idx : Z;
    study_show_answer : bool;
    study_correct : Z;
    study_review : Z;
    study_last_card : option Z;
    study_status : status_table }.

Definition with_order (st : session) (order : list Z) : session :=
  mk_session order (study_idx st) (study_show_answer st) (study_correct st)
    (study_review st) (study_last_card st) (study_status st).
Definition with_idx (st : session) (idx : Z) : session :=
  mk_session (study_order st) idx (study_show_answer st) (study_correct st)
    (study_review st) (study_last_card st) (study_status st).
Definition with_show_answer (st : session) (b : bool) : session :=
  mk_session (study_order st) (study_idx st) b (study_correct st)
    (study_review st) (study_last_card st) (study_status st).
Definition with_correct (st : session) (n : Z) : session :=
  mk_session (study_order st) (study_idx st) (study_show_answer st) n
    (study_review st) (study_last_card st) (study_status st).
Definition with_review (st : session) (n : Z) : session :=
  mk_session (study_order st) (study_idx st) (study_show_answer st)
    (study_correct st) n (study_last_card st) (study_status st).
Definition with_last_card (st : session) (c : option Z) : session :=
  mk_session (study_order st) (study_idx st) (study_show_answer st)
    (study_correct st) (study_review st) c (study_status st).
Definition with_status (st : session) (d : status_table) : session :=
  mk_session (study_order st) (study_idx st) (study_show_answer st)
    (study_correct st) (study_review st) (study_last_card st) d.

(** [reset_study(shuffle)] on a deck of [n] cards; [shuffled] is what
    [random.shuffle] makes of the order. *)
Definition reset_study (shuffled : list Z -> list Z) (n : Z) (shuffle : bool)
  : session :=
  let order := range n in
  let order := if shuffle then shuffled order else order in
  mk_session order 0 false 0 0 None
    (* reset statuses *)
    (map (fun i => (i, New)) (range n)).

(** The button of the study section that was pressed, if any. *)
Inductive click :=
| NoClick
| ClickRestart
| ClickShuffle
| ClickPrev
| ClickShowAnswer
| ClickCorrect
| ClickNeedsReview.

(** [study_last_card != card_idx] *)
Definition card_changed (st : session) (card_idx : Z) : bool :=
  match study_last_card st with
  | Some c => negb (c =? card_idx)%Z
  | None => true
  end.

(** The handler of the "correct" button. *)
Definition mark_correct (st : session) (order : list Z) (idx_in_deck card_idx : Z)
  : session :=
  let prev_status := status_get (study_status st) card_idx New in
  (* transition accounting *)
  let st :=
    if negb (status_eqb prev_status Correct) then
      let st := with_correct st (study_correct st + 1) in
      let st := if status_eqb prev_status Review
                then with_review st (Z.max 0 (study_review st - 1))
                else st in
      with_status st (status_set (study_status st) card_idx Correct)
    else st in
  (* advance to next card *)
  with_idx st (Z.min (len order) (idx_in_deck + 1)).

(** The handler of the "needs review" button. *)
Definition mark_review (st : session) (order : list Z) (idx_in_deck card_idx : Z)
  : result session :=
  let prev_status := status_get (study_status st) card_idx New in
  (* only count the first time we move into review *)
  let st :=
    if negb (status_eqb prev_status Review) then
      let st := with_review st (study_review st + 1) in
      (* if it was previously correct and now marked review again,
         adjust correct down *)
      if status_eqb prev_status Correct
      then with_correct st (Z.max 0 (study_correct st - 1))
      else st
    else st in
  let st := with_status st (status_set (study_status st) card_idx Review) in
  (* move this card to end so it resurfaces later *)
  '(card, others) <- py_pop order idx_in_deck ;;
  Ok (with_order st (others ++ [card])).

(** One run of the study section of the script on the deck [cards], with
    the button [ev] pressed: the session state when the run ends or asks
    for a rerun.  A button that is drawn disabled cannot be pressed. *)
Definition study_run (shuffled : list Z -> list Z) (cards : list card)
  (ev : click) (st : session) : result session :=
  if negb (truthy cards) then Ok st
  else
    match ev with
    | ClickRestart => Ok (reset_study shuffled (len cards) false)
    | ClickShuffle => Ok (reset_study shuffled (len cards) true)
    | _ =>
        (* current card *)
        let idx_in_deck := study_idx st in
        let st := if truthy (study_order st) then st
                  else reset_study shuffled (len cards) true in
        let order := study_order st in
        if (len order <=? idx_in_deck)%Z then Ok st
        else
          card_idx <- py_index order idx_in_deck ;;
          (* reset flip state when card changes *)
          let st := if card_changed st card_idx
                    then with_last_card (with_show_answer st false) (Some card_idx)
                    else st in
          (* ensure status exists *)
          let st := if negb (status_mem (study_status st) card_idx)
                    then with_status st (status_set (study_status st) card_idx New)
                    else st in
          _ <- py_index cards card_idx ;;
          (* you can only grade after flipping *)
          let can_grade := study_show_answer st in
          match ev with
          | ClickPrev =>
              if (idx_in_deck <=? 0)%Z then Ok st
              else Ok (with_idx st (Z.max 0 (idx_in_deck - 1)))
          | ClickShowAnswer => Ok (with_show_answer st true)
          | ClickCorrect =>
              if can_grade then Ok (mark_correct st order idx_in_deck card_idx)
              else Ok st
          | ClickNeedsReview =>
              if can_grade then mark_review st order idx_in_deck card_idx
              else Ok st
          | _ => Ok st
          end
    end.

End App.

(* ================================================================== *)
(** * [utils/export.py]: the Anki text *)
(* ================================================================== *)

Module AnkiExport.
Import PyStr Exc Llm.
Local Open Scope exc_scope.

(** A byte, as a number below 256. *)
Definition byte := N.

(** The UTF-8 bytes of one code point.  A surrogate has none:
    [str.encode] raises [UnicodeEncodeError], a [ValueError]. *)
Definition utf8_char (c : char) : result (list byte) :=
  (if c <? 128 then Ok [c]
   else if c <? 2048 then Ok [192 + c / 64; 128 + c mod 64]
   else if c <? 65536 then
     if (55296 <=? c) && (c <=? 57343) then Raise ValueError
     else Ok [224 + c / 4096; 128 + (c / 64) mod 64; 128 + c mod 64]
   else if c <? 1114112 then
     Ok [240 + c / 262144; 128 + (c / 4096) mod 64;
         128 + (c / 64) mod 64; 128 + c mod 64]
   else Raise ValueError)%N.

(** [s.encode("utf-8")] *)
Fixpoint utf8_encode (s : str) : result (list byte) :=
  match s with
  | [] => Ok []
  | c :: t =>
      b <- utf8_char c ;;
      rest <- utf8_encode t ;;
      Ok (b ++ rest)
  end.

(** The line of one row: [f"{q}\t{a}"]. *)
Definition anki_line (row : card) : str := question row ++ [TAB] ++ answer row.

(** The text [txt] that [to_anki_txt_bytes] encodes; the rows of the data
    frame are the cards, with strings in their cells. *)
Definition anki_txt (df : list card) : str := join [LF] (map anki_line df).

Definition to_anki_txt_bytes (df : list card) : result (list byte) :=
  utf8_encode (anki_txt df).

End AnkiExport.

(* ================================================================== *)
(** * Facts about the string operations *)
(* ================================================================== *)

Unset Implicit Arguments.

Module PyStrFacts.
Import PyStr.

Lemma truthy_true {A} (l : list A) : truthy l = true <-> l <> [].
Proof. destruct l; simpl; split; congruence. Qed.

Lemma truthy_false {A} (l : list A) : truthy l = false <-> l = [].
Proof. destruct l; simpl; split; congruence. Qed.

Lemma eqb_str_true a b : eqb_str a b = true <-> a = b.
Proof. unfold eqb_str. destruct (list_eq_dec N.eq_dec a b); split; congruence. Qed.

(** ** [startswith] and [split_once] *)

Lemma startswith_app p s : startswith p (p ++ s) = true.
Proof. induction p as [|a p IH]; simpl; [reflexivity|]. now rewrite N.eqb_refl. Qed.

Lemma startswith_inv p s :
  startswith p s = true -> s = p ++ skipn (length p) s.
Proof.
  revert s. induction p as [|a p IH]; intros s H; simpl in *; [reflexivity|].
  destruct s as [|b s]; [discriminate|].
  apply andb_true_iff in H. destruct H as [Hab Hp].
  apply N.eqb_eq in Hab. subst b. simpl. f_equal. now apply IH.
Qed.

(** [sep] occurs in [s] at offset [length l]. *)
Definition occurs_at (sep s l r : str) : Prop := s = l ++ sep ++ r.

(** [l] and [r] are what stands before and after the first occurrence of
    [sep] in [s]. *)
Definition first_occurrence (sep s l r : str) : Prop :=
  occurs_at sep s l r /\
  forall l' r', occurs_at sep s l' r' -> length l <= length l'.

Lemma split_once_occurs sep s l r :
  split_once sep s = Some (l, r) -> occurs_at sep s l r.
Proof.
  unfold occurs_at. revert l r.
  induction s as [|c s IH]; intros l r H; simpl in H.
  - destruct (startswith sep []) eqn:E; [|discriminate].
    inversion H; subst. now apply startswith_inv in E.
  - destruct (startswith sep (c :: s)) eqn:E.
    + inversion H; subst. now apply startswith_inv in E.
    + destruct (split_once sep s) as [[l0 r0]|] eqn:E0; [|discriminate].
      inversion H; subst. simpl. f_equal. now apply IH.
Qed.

Lemma split_once_first sep s l r :
  split_once sep s = Some (l, r) ->
  forall l' r', occurs_at sep s l' r' -> length l <= length l'.
Proof.
  unfold occurs_at. revert l r.
  induction s as [|c s IH]; intros l r H l' r' Hocc; simpl in H.
  - destruct (startswith sep []); [|discriminate]. inversion H; simpl; lia.
  - destruct (startswith sep (c :: s)) eqn:E.
    + inversion H; simpl; lia.
    + destruct (split_once sep s) as [[l0 r0]|] eqn:E0; [|discriminate].
      inversion H; subst. destruct l' as [|c' l'].
      * simpl in Hocc. rewrite Hocc, startswith_app in E. discriminate.
      * simpl in Hocc. inversion Hocc; subst. simpl.
        apply le_n_S. eapply IH; eauto.
Qed.

Lemma split_once_none sep s :
  split_once sep s = None -> forall l r, ~ occurs_at sep s l r.
Proof.
  unfold occurs_at.
  induction s as [|c s IH]; intros H l r Hocc; simpl in H.
  - destruct (startswith sep []) eqn:E; [discriminate|].
    rewrite Hocc in E. destruct l; simpl in *.
    + now rewrite startswith_app in E.
    + discriminate.
  - destruct (startswith sep (c :: s)) eqn:E; [discriminate|].
    destruct (split_once sep s) as [[l0 r0]|] eqn:E0; [discriminate|].
    destruct l as [|c' l]; simpl in Hocc.
    + rewrite Hocc, startswith_app in E. discriminate.
    + inversion Hocc; subst. eapply IH; eauto.
Qed.

Lemma split_once_spec sep s l r :
  split_once sep s = Some (l, r) -> first_occurrence sep s l r.
Proof.
  intros H. split; [now apply split_once_occurs | eapply split_once_first; eassumption].
Qed.

Lemma first_occurrence_unique sep s l1 r1 l2 r2 :
  first_occurrence sep s l1 r1 -> first_occurrence sep s l2 r2 ->
  l1 = l2 /\ r1 = r2.
Proof.
  intros [H1 M1] [H2 M2].
  assert (Hlen : length l1 = length l2).
  { apply Nat.le_antisymm; [eapply M1 | eapply M2]; eauto. }
  unfold occurs_at in *. rewrite H1 in H2.
  assert (Hl : l1 = l2).
  { apply (f_equal (firstn (length l1))) in H2.
    rewrite firstn_app, Nat.sub_diag, firstn_all in H2. simpl in H2.
    rewrite Hlen, firstn_app, Nat.sub_diag, firstn_all in H2. simpl in H2.
    now rewrite !app_nil_r in H2. }
  subst l2. split; [reflexivity|].
  apply app_inv_head in H2. now apply app_inv_head in H2.
Qed.

Lemma split_once_complete sep s l r :
  first_occurrence sep s l r -> split_once sep s = Some (l, r).
Proof.
  intros Hfo. destruct (split_once sep s) as [[l0 r0]|] eqn:E.
  - apply split_once_spec in E.
    destruct (first_occurrence_unique _ _ _ _ _ _ E Hfo) as [-> ->]. reflexivity.
  - destruct Hfo as [Hocc _]. exfalso. eapply split_once_none; eauto.
Qed.

Lemma contains_true sep s :
  contains sep s = true <-> exists l r, first_occurrence sep s l r.
Proof.
  unfold contains. destruct (split_once sep s) as [[l r]|] eqn:E; split.
  - intros _. exists l, r. now apply split_once_spec.
  - reflexivity.
  - discriminate.
  - intros (l & r & [Hocc _]). exfalso. eapply split_once_none; eauto.
Qed.

Lemma contains_false sep s :
  contains sep s = false <-> forall l r, ~ occurs_at sep s l r.
Proof.
  unfold contains. destruct (split_once sep s) as [[l r]|] eqn:E; split.
  - discriminate.
  - intros H. exfalso. apply (H l r). now apply split_once_occurs.
  - intros _. now apply split_once_none.
  - reflexivity.
Qed.

(** When [sep] occurs, [s.split(sep, 1)] has exactly two pieces. *)
Lemma split1_contains sep s :
  contains sep s = true ->
  exists l r, split1 sep s = [l; r] /\ first_occurrence sep s l r.
Proof.
  unfold contains, split1. destruct (split_once sep s) as [[l r]|] eqn:E.
  - intros _. exists l, r. split; [reflexivity | now apply split_once_spec].
  - discriminate.
Qed.

End PyStrFacts.

(* ================================================================== *)
(** * The output parser: no line extractor raises *)
(* ================================================================== *)

Module ExtractorFacts.
Import PyStr PyStrFacts PyRe Exc Llm.

Lemma for_each_ok {A B} (body : A -> result (list B)) (f : A -> list B) l :
  (forall x, In x l -> body x = Ok (f x)) ->
  for_each body l = Ok (flat_map f l).
Proof.
  induction l as [|x l IH]; intros H; simpl; [reflexivity|].
  rewrite (H x (or_introl eq_refl)). simpl.
  rewrite IH by (intros y Hy; apply H; now right). reflexivity.
Qed.

Lemma flat_map_nil {A B} (f : A -> list B) l :
  (forall x, In x l -> f x = []) -> flat_map f l = [].
Proof.
  induction l as [|x l IH]; intros H; simpl; [reflexivity|].
  rewrite (H x (or_introl eq_refl)). apply IH. intros y Hy. apply H. now right.
Qed.

(** What a loop body appends, once it is known not to raise. *)
Definition appended {A} (r : result (list A)) : list A := try_except r [].

Lemma unpack2_split1 sep line :
  contains sep line = true ->
  exists l r, unpack2 (split1 sep line) = Ok (l, r)
              /\ first_occurrence sep line l r.
Proof.
  intros H. destruct (split1_contains _ _ H) as (l & r & -> & Hfo).
  exists l, r. split; [reflexivity | assumption].
Qed.

Lemma tsv_line_ok raw : tsv_line raw = Ok (appended (tsv_line raw)).
Proof.
  unfold tsv_line.
  destruct (negb (truthy (strip raw)) || negb (contains [TAB] (strip raw))) eqn:E;
    [reflexivity|].
  apply orb_false_iff in E. destruct E as [_ E]. apply negb_false_iff in E.
  destruct (unpack2_split1 _ _ E) as (l & r & -> & _). reflexivity.
Qed.

Lemma _parse_tsv_lines_ok text :
  _parse_tsv_lines text
  = Ok (flat_map (fun raw => appended (tsv_line raw)) (splitlines text)).
Proof. apply for_each_ok. intros raw _. apply tsv_line_ok. Qed.

Lemma one_line_line_ok raw : one_line_line raw = Ok (appended (one_line_line raw)).
Proof.
  unfold one_line_line.
  repeat match goal with |- context [if ?b then _ else _] => destruct b end;
    reflexivity.
Qed.

Lemma _parse_q_a_one_line_ok text :
  _parse_q_a_one_line text
  = Ok (flat_map (fun raw => appended (one_line_line raw)) (splitlines text)).
Proof. apply for_each_ok. intros raw _. apply one_line_line_ok. Qed.

Lemma numbered_seps_ok seps line :
  numbered_seps seps line = Ok (appended (numbered_seps seps line)).
Proof.
  induction seps as [|sep seps IH]; simpl; [reflexivity|].
  destruct (contains sep line) eqn:E; [|exact IH].
  destruct (unpack2_split1 _ _ E) as (l & r & -> & _). reflexivity.
Qed.

Lemma numbered_line_ok raw : numbered_line raw = Ok (appended (numbered_line raw)).
Proof.
  unfold numbered_line. destruct (negb (truthy (strip raw))); [reflexivity|].
  apply numbered_seps_ok.
Qed.

Lemma _parse_numbered_pairs_ok text :
  _parse_numbered_pairs text
  = Ok (flat_map (fun raw => appended (numbered_line raw)) (splitlines text)).
Proof. apply for_each_ok. intros raw _. apply numbered_line_ok. Qed.

(** ** The two-line extractor *)

(** The loop, unfolded once. *)
Lemma two_lines_loop_unfold lines i out :
  two_lines_loop lines i out =
  if i + 1 <? length lines then
    match two_lines_body lines i with
    | Raise e => Raise e
    | Ok (matched, cards) =>
        two_lines_loop lines (i + (if matched then 2 else 1)) (out ++ cards)
    end
  else Ok out.
Proof.
  rewrite two_lines_loop_equation_1.
  destruct (lt_dec (i + 1) (length lines)) as [H|H]; simpl.
  - rewrite (proj2 (Nat.ltb_lt _ _) H).
    destruct (two_lines_body lines i) as [[[|] cards]|e]; reflexivity.
  - rewrite (proj2 (Nat.ltb_nlt _ _) H). reflexivity.
Qed.

(** What the pair of lines [l1], [l2] contributes. *)
Definition pair_cards (l1 l2 : str) : list card :=
  emit (_clean_piece (sub_empty _Q_PREFIX l1)) (_clean_piece (sub_empty _A_PREFIX l2)).

Definition pair_matches (l1 l2 : str) : bool :=
  matches _Q_PREFIX l1 && matches _A_PREFIX l2.

Lemma two_lines_body_at lines i l1 l2 :
  nth_error lines i = Some l1 -> nth_error lines (i + 1) = Some l2 ->
  two_lines_body lines i
  = Ok (pair_matches l1 l2, if pair_matches l1 l2 then pair_cards l1 l2 else []).
Proof.
  intros H1 H2. unfold two_lines_body, index, pair_matches. rewrite H1, H2. simpl.
  destruct (matches _Q_PREFIX l1 && matches _A_PREFIX l2); reflexivity.
Qed.

(** The same scan by recursion on the list of lines that are left. *)
Fixpoint scan_pairs (lines : list str) : list card :=
  match lines with
  | [] => []
  | l1 :: rest =>
      match rest with
      | [] => []
      | l2 :: rest' =>
          if pair_matches l1 l2 then pair_cards l1 l2 ++ scan_pairs rest'
          else scan_pairs rest
      end
  end.

Lemma skipn_cons_nth {A} (l : list A) i x :
  nth_error l i = Some x -> skipn i l = x :: skipn (S i) l.
Proof.
  revert i. induction l as [|a l IH]; intros [|i] H; simpl in *; try discriminate.
  - now inversion H.
  - now apply IH.
Qed.

Lemma two_lines_loop_scan lines : forall n i out,
  length lines - i <= n ->
  two_lines_loop lines i out = Ok (out ++ scan_pairs (skipn i lines)).
Proof.
  induction n as [|n IH]; intros i out Hn; rewrite two_lines_loop_unfold.
  - assert (E : (i + 1 <? length lines) = false) by (apply Nat.ltb_nlt; lia).
    rewrite E. rewrite skipn_all2 by lia. now rewrite app_nil_r.
  - destruct (i + 1 <? length lines) eqn:E.
    + apply Nat.ltb_lt in E.
      destruct (nth_error lines i) as [l1|] eqn:H1;
        [|apply nth_error_None in H1; lia].
      destruct (nth_error lines (i + 1)) as [l2|] eqn:H2;
        [|apply nth_error_None in H2; lia].
      rewrite (two_lines_body_at _ _ _ _ H1 H2).
      rewrite (skipn_cons_nth _ _ _ H1).
      replace (S i) with (i + 1) by lia.
      rewrite (skipn_cons_nth _ _ _ H2). simpl.
      destruct (pair_matches l1 l2).
      * rewrite IH by lia. rewrite app_assoc.
        replace (i + 2) with (S (i + 1)) by lia. reflexivity.
      * rewrite IH by lia. rewrite app_nil_r.
        now rewrite (skipn_cons_nth _ _ _ H2).
    + apply Nat.ltb_nlt in E. f_equal.
      destruct (skipn i lines) as [|l1 [|l2 rest]] eqn:Es;
        try (now rewrite app_nil_r).
      apply (f_equal (@length _)) in Es. rewrite length_skipn in Es.
      simpl in Es. lia.
Qed.

Lemma _parse_q_a_two_lines_ok text :
  _parse_q_a_two_lines text = Ok (scan_pairs (nonblank_lines text)).
Proof.
  unfold _parse_q_a_two_lines.
  now rewrite (two_lines_loop_scan _ (length (nonblank_lines text))) by lia.
Qed.

End ExtractorFacts.

(* ================================================================== *)
(** * The output parser: dispatch and the two-line scan *)
(* ================================================================== *)

Module ParserClaims.
Import PyStr PyStrFacts PyRe Exc Llm ExtractorFacts.

Definition nl : str := [LF].

(** The first extractor of [ps] whose result is not the empty list
    decides; an extractor is only run when all before it gave nothing. *)
Lemma first_nonempty_ok ps text cards :
  first_nonempty ps text = Ok cards <->
  (exists before p after,
      ps = before ++ p :: after
      /\ Forall (fun e => e text = Ok []) before
      /\ p text = Ok cards /\ cards <> [])
  \/ (cards = [] /\ Forall (fun e => e text = Ok []) ps).
Proof.
  revert cards. induction ps as [|p ps IH]; intros cards; simpl.
  - split.
    + intros H. inversion H. right. split; [reflexivity | constructor].
    + intros [(before & q & after & E & _) | [-> _]]; [|reflexivity].
      destruct before; discriminate.
  - destruct (p text) as [c|e] eqn:Ep; simpl.
    + destruct c as [|c0 c]; simpl.
      * rewrite IH. split.
        -- intros [(before & q & after & E & Hb & Hq & Hne) | [-> Hall]].
           ++ left. exists (p :: before), q, after. rewrite E.
              repeat split; auto.
           ++ right. split; [reflexivity | now constructor].
        -- intros [(before & q & after & E & Hb & Hq & Hne) | [-> Hall]].
           ++ destruct before as [|b before]; simpl in E; inversion E; subst.
              ** rewrite Hq in Ep. inversion Ep. congruence.
              ** left. exists before, q, after. inversion Hb. repeat split; auto.
           ++ right. inversion Hall. split; [reflexivity | assumption].
      * split.
        -- intros H. inversion H. subst cards. left. exists [], p, ps.
           repeat split; auto. discriminate.
        -- intros [(before & q & after & E & Hb & Hq & Hne) | [-> Hall]].
           ++ destruct before as [|b before]; simpl in E; inversion E; subst.
              ** congruence.
              ** inversion Hb; subst. congruence.
           ++ inversion Hall; subst. congruence.
    + split; [discriminate|].
      intros [(before & q & after & E & Hb & Hq & Hne) | [-> Hall]].
      * destruct before as [|b before]; simpl in E; inversion E; subst.
        -- congruence.
        -- inversion Hb; subst. congruence.
      * inversion Hall; subst. congruence.
Qed.

(** An exception leaves [first_nonempty] exactly when an extractor raises
    it after all the earlier ones gave nothing. *)
Lemma first_nonempty_raise ps text e :
  first_nonempty ps text = Raise e <->
  exists before p after,
    ps = before ++ p :: after
    /\ Forall (fun x => x text = Ok []) before
    /\ p text = Raise e.
Proof.
  induction ps as [|p ps IH]; simpl.
  - split; [discriminate|]. intros (before & q & after & E & _).
    destruct before; discriminate.
  - destruct (p text) as [c|e'] eqn:Ep; simpl.
    + destruct c as [|c0 c]; simpl.
      * rewrite IH. split.
        -- intros (before & q & after & E & Hb & Hq).
           exists (p :: before), q, after. rewrite E. repeat split; auto.
        -- intros (before & q & after & E & Hb & Hq).
           destruct before as [|b before]; simpl in E; inversion E; subst.
           ++ congruence.
           ++ exists before, q, after. inversion Hb. repeat split; auto.
      * split; [discriminate|].
        intros (before & q & after & E & Hb & Hq).
        destruct before as [|b before]; simpl in E; inversion E; subst.
        -- congruence.
        -- inversion Hb; subst. congruence.
    + split.
      * intros H. inversion H; subst. exists [], p, ps. repeat split; auto.
      * intros (before & q & after & E & Hb & Hq).
        destruct before as [|b before]; simpl in E; inversion E; subst.
        -- congruence.
        -- inversion Hb; subst. congruence.
Qed.

Section Dispatch.

Variable json_loads : str -> loads_outcome.
Variable py_repr : json -> str.

(** C2: [_robust_parse_any] tries the five extractors in the fixed order
    tab-separated, single-line labeled, two-line labeled, numbered or
    bulleted pairs, JSON list.  It returns [cards] exactly when [cards]
    is the non-empty result of one extractor and every extractor before
    it in that order returned the empty list (nothing is merged), or
    when [cards] is empty and all five returned the empty list. *)
Theorem C2_parse_any_first_nonempty_extractor : forall text cards,
  let extractors :=
    [ _parse_tsv_lines;
      _parse_q_a_one_line;
      _parse_q_a_two_lines;
      _parse_numbered_pairs;
      _parse_json_list json_loads py_repr ] in
  _robust_parse_any json_loads py_repr text = Ok cards <->
  (exists before p after,
      extractors = before ++ p :: after
      /\ Forall (fun e => e text = Ok []) before
      /\ p text = Ok cards /\ cards <> [])
  \/ (cards = [] /\ Forall (fun e => e text = Ok []) extractors).
Proof.
  intros text cards extractors. unfold _robust_parse_any.
  apply first_nonempty_ok.
Qed.

End Dispatch.

(** C9: the two-line extractor scans the non-empty lines by index.  At an
    index with a line [l1] and a next line [l2], the index advances by
    two when [l1] matches the question label pattern and [l2] the answer
    label pattern (appending the card of the pair when both cleaned sides
    are non-empty), and by one, appending nothing, otherwise; with no
    next line the scan ends.  The labels are matched ignoring case.  So a
    question line followed by a line that is no answer is passed over:
    in the last example the question and the answer two lines below it
    give no card. *)
Theorem C9_two_lines_index_advance :
  (forall text,
      _parse_q_a_two_lines text
      = two_lines_loop (filter truthy (map strip (splitlines text))) 0 [])
  /\ (forall pre l1 l2 post out,
      let lines := pre ++ l1 :: l2 :: post in
      let matched := matches _Q_PREFIX l1 && matches _A_PREFIX l2 in
      let q := _clean_piece (sub_empty _Q_PREFIX l1) in
      let a := _clean_piece (sub_empty _A_PREFIX l2) in
      two_lines_loop lines (length pre) out
      = two_lines_loop lines
          (length pre + (if matched then 2 else 1))
          (out ++ (if matched then emit q a else [])))
  /\ (forall pre out, two_lines_loop pre (length pre) out = Ok out)
  /\ (forall pre l out, two_lines_loop (pre ++ [l]) (length pre) out = Ok out)
  /\ map (matches _Q_PREFIX)
         [lit "Q: x"; lit "q: x"; lit "Question: x"; lit "QUESTION- x"; lit "x"]
     = [true; true; true; true; false]
  /\ map (matches _A_PREFIX)
         [lit "A: x"; lit "a: x"; lit "Answer: x"; lit "ANSWER- x"; lit "x"]
     = [true; true; true; true; false]
  /\ _parse_q_a_two_lines
       (lit "Q: What is X?" ++ nl ++ lit "not an answer" ++ nl ++ lit "A: X is Y.")
     = Ok []
  /\ _parse_q_a_two_lines
       (lit "Q: What is X?" ++ nl ++ lit "A: X is Y." ++ nl ++ lit "not an answer")
     = Ok [new_card (lit "What is X?") (lit "X is Y.")].
Proof.
  split; [reflexivity|].
  split; [|split; [|split; [|split; [|split; [|split]]]]].
  - intros pre l1 l2 post out lines matched q a.
    rewrite two_lines_loop_unfold.
    assert (Hlen : length lines = length pre + 2 + length post).
    { unfold lines. rewrite length_app. simpl. lia. }
    rewrite (proj2 (Nat.ltb_lt _ _)) by lia.
    assert (H1 : nth_error lines (length pre) = Some l1).
    { unfold lines. rewrite nth_error_app2, Nat.sub_diag by lia. reflexivity. }
    assert (H2 : nth_error lines (length pre + 1) = Some l2).
    { unfold lines. rewrite nth_error_app2 by lia.
      replace (length pre + 1 - length pre) with 1 by lia. reflexivity. }
    rewrite (two_lines_body_at _ _ _ _ H1 H2). reflexivity.
  - intros pre out. rewrite two_lines_loop_unfold.
    now rewrite (proj2 (Nat.ltb_nlt _ _)) by lia.
  - intros pre l out. rewrite two_lines_loop_unfold.
    rewrite (proj2 (Nat.ltb_nlt _ _)); [reflexivity|].
    rewrite length_app. simpl. lia.
  - vm_compute. reflexivity.
  - vm_compute. reflexivity.
  - vm_compute. reflexivity.
  - vm_compute. reflexivity.
Qed.

(** ** The single-line labeled extractor *)

(** The first character of the lower case of [c] is [a]. *)
Definition lowers_to (a c : char) : Prop := hd_error (lower_char c) = Some a.

Lemma lower_char_cases c :
  (lower_char c = [(c + 32)%N] /\ (65 <= c <= 90)%N)
  \/ (lower_char c = [105; 775]%N /\ c = 304%N)
  \/ (lower_char c = [107]%N /\ c = 8490%N)
  \/ (lower_char c = [c] /\ ~ (65 <= c <= 90)%N).
Proof.
  unfold lower_char, in_range.
  destruct ((65 <=? c)%N && (c <=? 90)%N) eqn:E1.
  - left. apply andb_true_iff in E1. destruct E1 as [H1 H2].
    apply N.leb_le in H1, H2. auto.
  - assert (Hn : ~ (65 <= c <= 90)%N).
    { intros [H1 H2]. apply N.leb_le in H1, H2. rewrite H1, H2 in E1. discriminate. }
    destruct (c =? 304)%N eqn:E2; [apply N.eqb_eq in E2; auto|].
    destruct (c =? 8490)%N eqn:E3; [apply N.eqb_eq in E3; auto 6|].
    auto 6.
Qed.

(** A prefix test on the lower-cased line reads the line itself,
    character by character, as long as the prefix is ASCII. *)
Lemma lower_startswith p : forall s,
  Forall (fun a => (a < 128)%N) p ->
  startswith p (lower s) = true ->
  exists pre rest, s = pre ++ rest /\ Forall2 lowers_to p pre.
Proof.
  induction p as [|a p IH]; intros s Hp H.
  - exists [], s. split; [reflexivity | constructor].
  - inversion Hp as [|? ? Ha Hp']; subst.
    destruct s as [|c s]; [discriminate|].
    unfold lower in H. simpl in H. fold (lower s) in H.
    assert (Hnext : lowers_to a c /\ (p = [] \/ startswith p (lower s) = true)).
    { unfold lowers_to.
      destruct (lower_char_cases c) as [[E _]|[[E _]|[[E _]|[E _]]]];
        rewrite E in *; simpl in H; apply andb_true_iff in H;
        destruct H as [H1 H2]; apply N.eqb_eq in H1; subst a;
        (split; [reflexivity|]); auto.
      destruct p as [|b p]; [now left|]. simpl in H2.
      apply andb_true_iff in H2. destruct H2 as [H2 _]. apply N.eqb_eq in H2.
      subst b. inversion Hp' as [|? ? Hb _]. lia. }
    destruct Hnext as [Hc [-> | Hrest]].
    + exists [c], s. split; [reflexivity | repeat constructor; assumption].
    + destruct (IH s Hp' Hrest) as (pre & rest & -> & Hpre).
      exists (c :: pre), rest. split; [reflexivity | now constructor].
Qed.

Lemma lowers_to_plain a c :
  lowers_to a c -> (a = 58%N -> c = 58%N) /\ (a <> 58%N -> a <> 32%N -> c <> 58%N /\ c <> 32%N).
Proof.
  unfold lowers_to.
  destruct (lower_char_cases c) as [[E Hc]|[[E Hc]|[[E Hc]|[E Hc]]]];
    rewrite E; simpl; intros H; inversion H; subst; split; intros; lia.
Qed.

Lemma lowers_to_letters letters : forall label,
  Forall (fun a => a <> 58%N /\ a <> 32%N) letters ->
  Forall2 lowers_to letters label ->
  Forall (fun c => c <> 58%N /\ c <> 32%N) label.
Proof.
  induction letters as [|a letters IH]; intros label Hl H; inversion H; subst.
  - constructor.
  - inversion Hl as [|? ? [Ha1 Ha2] Hl']; subst. constructor.
    + match goal with Hc : lowers_to a _ |- _ =>
        apply lowers_to_plain in Hc; destruct Hc as [_ Hc]; now apply Hc end.
    + now apply IH.
Qed.

(** A line that passed the label test starts with a label, which reads
    as one of the tested words once lower-cased and holds no colon and no
    space, followed by a colon. *)
Lemma label_shape words line :
  Forall (fun w => w = lit "q" \/ w = lit "question") words ->
  startswith_any (map (fun w => w ++ [58%N]) words) (lower line) = true ->
  exists word label rest,
    In word words
    /\ line = label ++ [58%N] ++ rest
    /\ Forall2 lowers_to word label
    /\ Forall (fun c => c <> 58%N /\ c <> 32%N) label.
Proof.
  intros Hl H. unfold startswith_any in H. apply existsb_exists in H.
  destruct H as (p & Hin & Hp).
  apply in_map_iff in Hin. destruct Hin as (word & <- & Hin).
  rewrite Forall_forall in Hl. specialize (Hl word Hin).
  assert (Hshape : Forall (fun a => (a < 128)%N) (word ++ [58%N])
                   /\ Forall (fun a => a <> 58%N /\ a <> 32%N) word).
  { destruct Hl as [-> | ->]; split; repeat constructor; discriminate. }
  destruct Hshape as (Hascii & Hletters).
  destruct (lower_startswith _ line Hascii Hp) as (pre & rest & -> & Hpre).
  apply Forall2_app_inv_l in Hpre.
  destruct Hpre as (label & colon & Hlab & Hcolon & ->).
  inversion Hcolon as [|? c ? l0 Hc Hnil]; subst. inversion Hnil; subst.
  apply lowers_to_plain in Hc. destruct Hc as [Hc _]. rewrite (Hc eq_refl).
  exists word, label, rest. rewrite <- app_assoc. repeat split; auto.
  now apply (lowers_to_letters word).
Qed.

(** Two ways of cutting one text at a marked character. *)
Lemma cut_compare {A} (l : list A) : forall a r l' b r',
  l ++ a :: r = l' ++ b :: r' ->
  (l = l' /\ a = b /\ r = r')
  \/ (exists m, l' = l ++ a :: m /\ r = m ++ b :: r')
  \/ (exists m, l = l' ++ b :: m /\ r' = m ++ a :: r).
Proof.
  induction l as [|x l IH]; intros a r l' b r' H.
  - destruct l' as [|y l']; simpl in H; inversion H; subst.
    + now left.
    + right. left. now exists l'.
  - destruct l' as [|y l']; simpl in H; inversion H; subst.
    + right. right. now exists l.
    + destruct (IH _ _ _ _ _ H2) as [(-> & -> & ->) | [(m & -> & ->) | (m & -> & ->)]].
      * now left.
      * right. left. now exists m.
      * right. right. now exists m.
Qed.

Lemma emit_cases q a c :
  In c (emit q a) <-> c = new_card q a /\ q <> [] /\ a <> [].
Proof.
  unfold emit. destruct q as [|q0 q]; destruct a as [|a0 a]; simpl; split;
    try tauto; try (intros [_ [H1 H2]]; congruence).
  - intros [<- | []]. repeat split; discriminate.
  - intros [-> _]. now left.
Qed.

(** The [try] block on a labelled line: the question is what stands
    between the colon of the label and the first occurrence of the
    delimiter in the line, the answer what follows that occurrence. *)
Lemma one_line_try_spec delim label rest :
  let line := label ++ [58%N] ++ rest in
  hd_error delim = Some SPACE ->
  Forall (fun c => c <> 58%N /\ c <> 32%N) label ->
  contains delim line = true ->
  exists q_raw r,
    first_occurrence delim line (label ++ [58%N] ++ q_raw) r
    /\ one_line_try delim line = emit (_clean_piece q_raw) (_clean_piece r).
Proof.
  intros line Hd Hlabel Hc.
  destruct delim as [|d0 delim']; [discriminate|].
  simpl in Hd. inversion Hd; subst d0. set (delim := SPACE :: delim') in *.
  assert (Hcolon : split_once (lit ":") line = Some (label, rest)).
  { apply split_once_complete. split; [reflexivity|].
    intros l' r' Hocc. unfold occurs_at, line in Hocc. simpl in Hocc.
    destruct (cut_compare _ _ _ _ _ _ Hocc) as [(-> & _) | [(m & -> & _) | (m & -> & _)]];
      rewrite ?length_app; simpl; try lia.
    rewrite Forall_forall in Hlabel.
    destruct (Hlabel 58%N) as [Hn _]; [|congruence].
    apply in_or_app. right. now left. }
  apply contains_true in Hc. destruct Hc as (l & r & Hfo).
  assert (Hl : exists q_raw, l = label ++ [58%N] ++ q_raw /\ rest = q_raw ++ delim ++ r).
  { destruct Hfo as [Hocc _]. unfold occurs_at, line, delim in Hocc. simpl in Hocc.
    symmetry in Hocc.
    destruct (cut_compare _ _ _ _ _ _ Hocc) as [(_ & Hbad & _) | [(m & Hbad & _) | (m & -> & ->)]].
    - discriminate.
    - rewrite Forall_forall in Hlabel.
      destruct (Hlabel 32%N) as [_ Hn]; [|congruence].
      rewrite Hbad. apply in_or_app. right. now left.
    - exists m. split; reflexivity. }
  destruct Hl as (q_raw & -> & Hrest).
  exists q_raw, r. split; [exact Hfo|].
  assert (Hseg : split_once delim rest = Some (q_raw, r)).
  { apply split_once_complete. split; [exact Hrest|].
    intros l' r' Hocc. destruct Hfo as [_ Hmin].
    specialize (Hmin (label ++ [58%N] ++ l') r').
    unfold occurs_at in *. unfold line in Hmin. rewrite Hocc in Hmin.
    rewrite <- !app_assoc in Hmin. specialize (Hmin eq_refl).
    rewrite !length_app in Hmin. simpl in Hmin. unfold str, char in *. lia. }
  unfold one_line_try, split1. rewrite Hcolon. simpl.
  rewrite Hseg. simpl.
  rewrite (split_once_complete _ _ _ _ Hfo). reflexivity.
Qed.

(** C10: the single-line labeled extractor.  A line that contains
    neither " A:" nor " Answer:", with these capitals, gives no card,
    whatever its question label: "q: foo a: bar" gives none.  A line that
    gives a card starts with a label and a colon, where the label reads q
    once lower-cased (or question, for the delimiter " Answer:"); the
    delimiter is cut at its first occurrence in the line, the question
    is read between the label's colon and that occurrence and the answer
    after it.  So the question label is matched ignoring case, the
    answer delimiter is not. *)
Theorem C10_one_line_answer_delimiter_case_sensitive :
  (forall raw,
      contains (lit " A:") (strip raw) = false ->
      contains (lit " Answer:") (strip raw) = false ->
      one_line_line raw = Ok [])
  /\ (forall text,
        (forall raw, In raw (splitlines text) ->
                     contains (lit " A:") (strip raw) = false
                     /\ contains (lit " Answer:") (strip raw) = false) ->
        _parse_q_a_one_line text = Ok [])
  /\ (forall raw c,
        In c (appended (one_line_line raw)) ->
        exists delim word label q_raw r,
          ((delim = lit " A:" /\ word = lit "q")
           \/ (delim = lit " Answer:" /\ (word = lit "q" \/ word = lit "question")))
          /\ Forall2 (fun a ch => hd_error (lower_char ch) = Some a) word label
          /\ first_occurrence delim (strip raw) (label ++ [58%N] ++ q_raw) r
          /\ c = new_card (_clean_piece q_raw) (_clean_piece r)
          /\ _clean_piece q_raw <> [] /\ _clean_piece r <> [])
  /\ _parse_q_a_one_line (lit "q: foo a: bar") = Ok []
  /\ _parse_q_a_one_line (lit "Q: foo answer: bar") = Ok []
  /\ _parse_q_a_one_line (lit "q: foo A: bar") = Ok [new_card (lit "foo") (lit "bar")]
  /\ _parse_q_a_one_line (lit "Q: foo A: bar") = Ok [new_card (lit "foo") (lit "bar")]
  /\ _parse_q_a_one_line (lit "QUESTION: foo Answer: bar")
     = Ok [new_card (lit "foo") (lit "bar")]
  /\ _parse_q_a_one_line (lit "Q: x A: y A: z")
     = Ok [new_card (lit "x") (lit "y A: z")].
Proof.
  assert (Hnone : forall raw,
             contains (lit " A:") (strip raw) = false ->
             contains (lit " Answer:") (strip raw) = false ->
             one_line_line raw = Ok []).
  { intros raw H1 H2. unfold one_line_line. rewrite H1, H2. simpl.
    now destruct (negb (truthy (strip raw))). }
  split; [exact Hnone|]. split; [|split].
  - intros text H. rewrite _parse_q_a_one_line_ok.
    f_equal. apply flat_map_nil.
    intros raw Hin. destruct (H raw Hin) as [H1 H2].
    now rewrite (Hnone raw H1 H2).
  - intros raw c Hin. unfold one_line_line in Hin.
    destruct (negb (truthy (strip raw))); [destruct Hin|].
    destruct (contains (lit " A:") (strip raw)
              && startswith (lit "q:") (lower (strip raw))) eqn:E1.
    + apply andb_true_iff in E1. destruct E1 as [Hc Hs].
      assert (Hs' : startswith_any (map (fun w => w ++ [58%N]) [lit "q"])
                      (lower (strip raw)) = true)
        by (unfold startswith_any; cbn [map existsb];
            change (lit "q" ++ [58%N]) with (lit "q:"); now rewrite Hs).
      destruct (label_shape [lit "q"] _ ltac:(repeat constructor; now left) Hs')
        as (word & label & rest & Hw & Eline & Hword & Hlabel).
      destruct Hw as [<- | []].
      rewrite Eline in Hc, Hin.
      destruct (one_line_try_spec (lit " A:") label rest eq_refl Hlabel Hc)
        as (q_raw & r & Hfo & Etry).
      unfold appended, try_except in Hin.
      rewrite Etry in Hin. apply emit_cases in Hin. destruct Hin as (-> & Hq & Ha).
      exists (lit " A:"), (lit "q"), label, q_raw, r. rewrite Eline.
      split; [left; split; reflexivity|]. split; [exact Hword|].
      split; [exact Hfo|]. repeat split; assumption.
    + destruct (contains (lit " Answer:") (strip raw)
                && startswith_any [lit "q:"; lit "question:"] (lower (strip raw)))
        eqn:E2; [|destruct Hin].
      apply andb_true_iff in E2. destruct E2 as [Hc Hs].
      destruct (label_shape [lit "q"; lit "question"] _
                  (Forall_cons _ (or_introl eq_refl)
                     (Forall_cons _ (or_intror eq_refl) (Forall_nil _))) Hs)
        as (word & label & rest & Hw & Eline & Hword & Hlabel).
      rewrite Eline in Hc, Hin.
      destruct (one_line_try_spec (lit " Answer:") label rest eq_refl Hlabel Hc)
        as (q_raw & r & Hfo & Etry).
      unfold appended, try_except in Hin.
      rewrite Etry in Hin. apply emit_cases in Hin. destruct Hin as (-> & Hq & Ha).
      exists (lit " Answer:"), word, label, q_raw, r. rewrite Eline.
      split; [right; split; [reflexivity|];
              destruct Hw as [<- | [<- | []]]; auto|].
      split; [exact Hword|]. split; [exact Hfo|]. repeat split; assumption.
  - repeat split; vm_compute; reflexivity.
Qed.

(** ** The numbered or bulleted pairs extractor *)

(** [if s.lower().startswith(labels): s = _clean_piece(s)] *)
Definition unlabel (labels : list str) (s : str) : str :=
  if startswith_any labels (lower s) then _clean_piece s else s.

(** The two sides of a pair, as the card holds them. *)
Definition pair_question (l : str) : str :=
  unlabel [lit "q:"; lit "question:"] (_clean_piece l).

Definition pair_answer (r : str) : str :=
  unlabel [lit "a:"; lit "answer:"] (_clean_piece r).

Lemma numbered_seps_spec seps line c :
  In c (appended (numbered_seps seps line)) <->
  exists before sep after l r,
    seps = before ++ sep :: after
    /\ Forall (fun s => contains s line = false) before
    /\ first_occurrence sep line l r
    /\ pair_question l <> [] /\ pair_answer r <> []
    /\ c = new_card (pair_question l) (pair_answer r).
Proof.
  induction seps as [|sep seps IH]; simpl.
  - split; [intros []|]. intros (before & s & after & l & r & E & _).
    destruct before; discriminate.
  - destruct (contains sep line) eqn:Ec.
    + destruct (unpack2_split1 _ _ Ec) as (l & r & -> & Hfo). simpl.
      fold (pair_question l) (pair_answer r). rewrite emit_cases. split.
      * intros (-> & Hq & Ha). exists [], sep, seps, l, r.
        repeat split; auto. apply Hfo. apply Hfo.
      * intros (before & s & after & l' & r' & E & Hb & Hfo' & Hq & Ha & ->).
        destruct before as [|b before]; simpl in E; inversion E; subst.
        -- destruct (first_occurrence_unique _ _ _ _ _ _ Hfo Hfo') as [-> ->].
           repeat split; auto.
        -- inversion Hb; subst. congruence.
    + rewrite IH. split.
      * intros (before & s & after & l & r & -> & Hb & Hrest).
        exists (sep :: before), s, after, l, r. split; [reflexivity|].
        split; [now constructor | exact Hrest].
      * intros (before & s & after & l & r & E & Hb & Hfo & Hrest).
        destruct before as [|b before]; simpl in E; inversion E; subst.
        -- assert (contains s line = true) by (apply contains_true; eauto).
           congruence.
        -- inversion Hb; subst. exists before, s, after, l, r. auto.
Qed.

Lemma numbered_seps_at_most_one seps line :
  length (appended (numbered_seps seps line)) <= 1.
Proof.
  induction seps as [|sep seps IH]; simpl; [lia|].
  destruct (contains sep line) eqn:Ec; [|exact IH].
  destruct (unpack2_split1 _ _ Ec) as (l & r & -> & _). simpl.
  unfold emit. destruct (truthy _ && truthy _); simpl; lia.
Qed.

(** C8: the numbered or bulleted pairs extractor, line by line.  The
    leading numbering or bullet markup is removed from the stripped
    line; the separators " - ", " -- " (em dash), " : ", " -- " (en dash)
    are tried in this order and the first one that occurs in the line
    splits it at its first occurrence; each side is cleaned (label
    stripped, white space collapsed), and cleaned once more when a
    question or answer label still leads it; one card is produced, and
    only when both sides are non-empty.  The line
    "1) Photosynthesis - converts light to energy" yields the single
    card Photosynthesis / converts light to energy / 0. *)
Theorem C8_numbered_pairs_first_separator :
  (forall raw c,
      let line := sub_empty _NUM_PREFIX (strip raw) in
      In c (appended (numbered_line raw)) <->
      strip raw <> []
      /\ exists before sep after l r,
           SEPARATORS = before ++ sep :: after
           /\ Forall (fun s => contains s line = false) before
           /\ first_occurrence sep line l r
           /\ pair_question l <> [] /\ pair_answer r <> []
           /\ c = new_card (pair_question l) (pair_answer r))
  /\ (forall raw,
        numbered_line raw = Ok (appended (numbered_line raw))
        /\ length (appended (numbered_line raw)) <= 1)
  /\ SEPARATORS
     = [ [32; 45; 32]; [32; 8212; 32]; [32; 58; 32]; [32; 8211; 32] ]%N
  /\ _parse_numbered_pairs (lit "1) Photosynthesis - converts light to energy")
     = Ok [ {| question := lit "Photosynthesis";
               answer := lit "converts light to energy";
               source_chunk := 0 |} ]
  /\ _parse_numbered_pairs (lit "- Q: cell : A: unit of life")
     = Ok [new_card (lit "cell") (lit "unit of life")]
  /\ _parse_numbered_pairs (lit "2. a : b - c")
     = Ok [new_card (lit "a : b") (lit "c")]
  /\ _parse_numbered_pairs (lit "3. term - ") = Ok [].
Proof.
  split; [|split; [|repeat split; vm_compute; reflexivity]].
  - intros raw c line. unfold numbered_line. fold line.
    destruct (strip raw) as [|c0 s0] eqn:Es; simpl negb; cbv iota.
    + split; [intros [] | intros [H _]; congruence].
    + rewrite numbered_seps_spec. split.
      * intros H. split; [discriminate | exact H].
      * intros [_ H]. exact H.
  - intros raw. split; [apply numbered_line_ok|].
    unfold numbered_line.
    destruct (negb (truthy (strip raw)));
      [simpl; lia | apply numbered_seps_at_most_one].
Qed.

(** The line "2. a : b - c" holds two separators.  " : " stands first in
    the line, at offset 1, and " - " at offset 5; the card is cut at
    " - ", which comes first in the list of separators, and not at the
    leftmost separator of the line. *)
Lemma C8_leftmost_separator_counterexample :
  let line := sub_empty _NUM_PREFIX (strip (lit "2. a : b - c")) in
  line = lit "a : b - c"
  /\ In (lit " : ") SEPARATORS /\ In (lit " - ") SEPARATORS
  /\ first_occurrence (lit " : ") line (lit "a") (lit "b - c")
  /\ first_occurrence (lit " - ") line (lit "a : b") (lit "c")
  /\ length (lit "a") < length (lit "a : b")
  /\ _parse_numbered_pairs (lit "2. a : b - c")
     = Ok [new_card (lit "a : b") (lit "c")]
  /\ new_card (lit "a : b") (lit "c") <> new_card (lit "a") (lit "b - c").
Proof.
  cbv zeta.
  split; [vm_compute; reflexivity|].
  split; [simpl; tauto|]. split; [simpl; tauto|].
  split; [apply split_once_spec; vm_compute; reflexivity|].
  split; [apply split_once_spec; vm_compute; reflexivity|].
  split; [simpl; lia|].
  split; [vm_compute; reflexivity | discriminate].
Qed.

End ParserClaims.

(* ================================================================== *)
(** * The output parser never raises, but for the decoder; the
      orchestrator *)
(* ================================================================== *)

Module OrchestratorClaims.
Import PyStr PyStrFacts PyRe Exc Llm ExtractorFacts ParserClaims.

(** A stand-in for CPython's decoder on texts made of opening brackets
    only: such a text is never a document, and the decoder gives up with
    a [RecursionError] once the nesting passes [limit].  Other texts are
    not decoded here. *)
Definition bracket_loads (limit : nat) (text : str) : loads_outcome :=
  if limit <? length (take_while (N.eqb 91) text) then OtherError
  else DecodeError.

(** C4: none of the four line extractors raises, on any text, and
    [_robust_parse_any] returns a list whenever the first [json.loads]
    raises nothing but [JSONDecodeError].  An exception of another class
    from that first call is not caught: when the line extractors find no
    card it leaves [_robust_parse_any], as on a text of 1001 opening
    brackets with a decoder that stops at nesting depth 1000. *)
Theorem C4_parse_any_raises_what_the_decoder_raises :
  (forall text,
      (exists cards, _parse_tsv_lines text = Ok cards)
      /\ (exists cards, _parse_q_a_one_line text = Ok cards)
      /\ (exists cards, _parse_q_a_two_lines text = Ok cards)
      /\ (exists cards, _parse_numbered_pairs text = Ok cards))
  /\ (forall json_loads py_repr text,
        json_loads text <> OtherError ->
        exists cards, _robust_parse_any json_loads py_repr text = Ok cards)
  /\ (forall json_loads py_repr text,
        _parse_tsv_lines text = Ok [] ->
        _parse_q_a_one_line text = Ok [] ->
        _parse_q_a_two_lines text = Ok [] ->
        _parse_numbered_pairs text = Ok [] ->
        json_loads text = OtherError ->
        _robust_parse_any json_loads py_repr text = Raise OtherException)
  /\ _robust_parse_any (bracket_loads 1000) (fun _ => []) (repeat 91%N 1001)
     = Raise OtherException.
Proof.
  split; [|split; [|split]].
  - intros text. repeat split; eexists.
    + apply _parse_tsv_lines_ok.
    + apply _parse_q_a_one_line_ok.
    + apply _parse_q_a_two_lines_ok.
    + apply _parse_numbered_pairs_ok.
  - intros json_loads py_repr text Hj.
    unfold _robust_parse_any, parsers, first_nonempty.
    rewrite _parse_tsv_lines_ok. cbn [bind].
    destruct (truthy _); [eauto|].
    rewrite _parse_q_a_one_line_ok. cbn [bind].
    destruct (truthy _); [eauto|].
    rewrite _parse_q_a_two_lines_ok. cbn [bind].
    destruct (truthy _); [eauto|].
    rewrite _parse_numbered_pairs_ok. cbn [bind].
    destruct (truthy _); [eauto|].
    assert (Hd : exists data, json_data json_loads text = Ok data).
    { unfold json_data. destruct (json_loads text); [eauto | | congruence].
      destruct (find_char 91%N text), (rfind_char 93%N text); eauto.
      destruct (_ <? _); eauto. destruct (json_loads _); eauto. }
    destruct Hd as (data & Hd). unfold _parse_json_list. rewrite Hd. cbn [bind].
    destruct data as [[| | | |items|]|]; cbn [bind truthy];
      try (destruct (truthy _)); eauto.
  - intros json_loads py_repr text H1 H2 H3 H4 Hj.
    unfold _robust_parse_any, parsers, first_nonempty.
    rewrite H1, H2, H3, H4. cbn [bind truthy].
    unfold _parse_json_list, json_data. rewrite Hj. reflexivity.
  - vm_compute. reflexivity.
Qed.

Section Generate.

Variable json_loads : str -> loads_outcome.
Variable py_repr : json -> str.
Variable temperature : Type.




End Generate.

(** The answer of a model that returns two tab-separated cards. *)
Definition two_cards_text : str :=
  lit "a" ++ [TAB] ++ lit "b" ++ [LF] ++ lit "c" ++ [TAB] ++ lit "d".


(** Why the total is taken non-negative: with [n_total = -1] the slice
    [cards[:n_total]] drops the last card only.  The application asks
    for 6 to 120 cards. *)
Lemma negative_total_drops_last_card :
  fst (run (fun (_ : nat) (_ : request unit) => two_cards_text) 0
         (generate_flashcards_turbo (fun _ => DecodeError) (fun _ => [])
            (lit "notes") (-1) tt []))
  = Ok [new_card (lit "a") (lit "b")].
Proof. vm_compute. reflexivity. Qed.

End OrchestratorClaims.

(* ================================================================== *)
(** * Stripping, collapsing and line splitting *)
(* ================================================================== *)

Module CleanFacts.
Import PyStr PyStrFacts PyRe Exc Llm.

Lemma length_drop_while p s : length (drop_while p s) <= length s.
Proof.
  induction s as [|c s IH]; simpl; [lia|]. destruct (p c); simpl; lia.
Qed.

Lemma length_rstrip s : length (rstrip s) <= length s.
Proof.
  induction s as [|c s IH]; simpl; [lia|].
  destruct (rstrip s) as [|r0 r]; simpl in *; [destruct (is_space c); simpl; lia | lia].
Qed.

Lemma In_drop_while p c s : In c (drop_while p s) -> In c s.
Proof.
  induction s as [|d s IH]; simpl; [tauto|].
  destruct (p d); simpl; [auto | tauto].
Qed.

Lemma In_rstrip c s : In c (rstrip s) -> In c s.
Proof.
  induction s as [|d s IH]; simpl; [tauto|].
  destruct (rstrip s) as [|r0 r].
  - destruct (is_space d); simpl; tauto.
  - simpl. intros [H | H]; [now left | right; apply IH; exact H].
Qed.

Lemma In_strip c s : In c (strip s) -> In c s.
Proof. unfold strip, lstrip. intros H. now apply In_rstrip, In_drop_while in H. Qed.

(** A text that stripping leaves alone starts with no white space. *)
Lemma strip_fixed_head c s : strip (c :: s) = c :: s -> is_space c = false.
Proof.
  intros H. destruct (is_space c) eqn:E; [|reflexivity].
  apply (f_equal (@length _)) in H. unfold strip, lstrip in H. simpl in H.
  rewrite E in H.
  pose proof (length_rstrip (drop_while is_space s)).
  pose proof (length_drop_while is_space s). lia.
Qed.

Lemma lstrip_fixed s : strip s = s -> lstrip s = s.
Proof.
  destruct s as [|c s]; [reflexivity|]. intros H.
  apply strip_fixed_head in H. unfold lstrip. simpl. now rewrite H.
Qed.

Lemma rstrip_fixed s : strip s = s -> rstrip s = s.
Proof. intros H. pose proof (lstrip_fixed s H) as Hl. unfold strip in H. now rewrite Hl in H. Qed.

Lemma rstrip_nonempty_app x s : s <> [] -> rstrip s = s -> rstrip (x ++ s) = x ++ s.
Proof.
  intros Hne Hs. induction x as [|c x IH]; simpl; [assumption|].
  rewrite IH. destruct (x ++ s) eqn:E; [|reflexivity].
  apply app_eq_nil in E. destruct E as [_ E]. contradiction.
Qed.

(** Two stripped, non-empty texts around anything make a stripped text. *)
Lemma strip_sandwich q mid a :
  q <> [] -> a <> [] -> strip q = q -> strip a = a ->
  strip (q ++ mid ++ a) = q ++ mid ++ a.
Proof.
  intros Hq Ha Sq Sa. unfold strip.
  assert (Hl : lstrip (q ++ mid ++ a) = q ++ mid ++ a).
  { destruct q as [|c q]; [contradiction|].
    apply strip_fixed_head in Sq. unfold lstrip. simpl. now rewrite Sq. }
  rewrite Hl. rewrite app_assoc. apply rstrip_nonempty_app; [assumption|].
  now apply rstrip_fixed.
Qed.

Lemma rstrip_idem s : rstrip (rstrip s) = rstrip s.
Proof.
  induction s as [|c s IH]; simpl; [reflexivity|].
  destruct (rstrip s) as [|r0 r] eqn:E.
  - destruct (is_space c) eqn:Ec; simpl; [reflexivity | now rewrite Ec].
  - simpl in *. destruct (rstrip r) as [|r1 r'] eqn:E'.
    + destruct (is_space r0); [discriminate|]. inversion IH; subst. reflexivity.
    + now rewrite IH.
Qed.

Lemma rstrip_head_kept c s r :
  rstrip (c :: s) = r -> is_space c = false -> exists r', r = c :: r'.
Proof.
  simpl. intros H Hc. destruct (rstrip s); rewrite ?Hc in H; subst; eauto.
Qed.

Lemma lstrip_no_space_head s : lstrip (lstrip s) = lstrip s.
Proof.
  unfold lstrip. induction s as [|c s IH]; simpl; [reflexivity|].
  destruct (is_space c) eqn:E; [assumption|]. simpl. now rewrite E.
Qed.

Lemma strip_idem s : strip (strip s) = strip s.
Proof.
  unfold strip.
  assert (H : lstrip (rstrip (lstrip s)) = rstrip (lstrip s)).
  { pose proof (lstrip_no_space_head s) as Hl.
    destruct (lstrip s) as [|c t] eqn:E; [reflexivity|].
    assert (Hc : is_space c = false).
    { unfold lstrip in Hl. simpl in Hl. destruct (is_space c) eqn:Ec; [|reflexivity].
      apply (f_equal (@length _)) in Hl. simpl in Hl.
      pose proof (length_drop_while is_space t). lia. }
    destruct (rstrip_head_kept c t _ eq_refl Hc) as (r' & ->).
    unfold lstrip. simpl. now rewrite Hc. }
  rewrite H. apply rstrip_idem.
Qed.

(** After [re.sub("\s+", " ", s)] the only white space left is the
    space itself. *)
Lemma collapse_from_spaces b s c :
  In c (collapse_from b s) -> is_space c = true -> c = SPACE.
Proof.
  revert b. induction s as [|d s IH]; intros b Hin Hc; simpl in Hin; [destruct Hin|].
  destruct (is_space d) eqn:Ed.
  - destruct b; [eapply IH; eauto|].
    destruct Hin as [<- | Hin]; [reflexivity | eapply IH; eauto].
  - destruct Hin as [<- | Hin]; [congruence | eapply IH; eauto].
Qed.

(** A cleaned text is stripped, and white only by single spaces. *)
Lemma _clean_piece_stripped s : strip (_clean_piece s) = _clean_piece s.
Proof. unfold _clean_piece. apply strip_idem. Qed.

Lemma _clean_piece_spaces s c :
  In c (_clean_piece s) -> is_space c = true -> c = SPACE.
Proof.
  unfold _clean_piece, collapse_spaces. intros Hin Hc.
  apply In_strip in Hin. eapply collapse_from_spaces; eauto.
Qed.

Lemma is_linebreak_space c : is_linebreak c = true -> is_space c = true /\ c <> SPACE.
Proof.
  unfold is_linebreak, is_space, in_range, SPACE.
  rewrite !orb_true_iff, !andb_true_iff, !N.leb_le, !N.eqb_eq. lia.
Qed.

End CleanFacts.

(* ================================================================== *)
(** * The tab-separated round trip *)
(* ================================================================== *)

Module RoundTrip.
Import PyStr PyStrFacts PyRe Exc Llm ExtractorFacts ParserClaims CleanFacts.

Definition no_break (l : str) : Prop := Forall (fun c => is_linebreak c = false) l.

Lemma not_break_not_cr c : is_linebreak c = false -> (c =? CR)%N = false.
Proof.
  intros H. destruct (c =? CR)%N eqn:E; [|reflexivity].
  apply N.eqb_eq in E. subst c. discriminate.
Qed.

Lemma splitlines_line_lf l rest :
  no_break l -> splitlines (l ++ LF :: rest) = l :: splitlines rest.
Proof.
  induction 1 as [|c l Hc Hl IH]; simpl.
  - reflexivity.
  - rewrite (not_break_not_cr c Hc), Hc, IH. reflexivity.
Qed.

Lemma splitlines_single l : no_break l -> l <> [] -> splitlines l = [l].
Proof.
  induction 1 as [|c l Hc Hl IH]; intros Hne; [contradiction|]. simpl.
  rewrite (not_break_not_cr c Hc), Hc.
  destruct l as [|d l]; [reflexivity|]. rewrite IH by discriminate. reflexivity.
Qed.

Lemma splitlines_join lines (trailing : bool) :
  lines <> [] ->
  Forall (fun l => l <> [] /\ no_break l) lines ->
  splitlines (join [LF] lines ++ (if trailing then [LF] else [])) = lines.
Proof.
  intros Hne H. induction H as [|l lines [Hl Hb] Hrest IH]; [contradiction|].
  destruct lines as [|l2 lines].
  - simpl. destruct trailing.
    + now rewrite splitlines_line_lf.
    + rewrite app_nil_r. now apply splitlines_single.
  - change (join [LF] (l :: l2 :: lines)) with (l ++ [LF] ++ join [LF] (l2 :: lines)).
    rewrite <- !app_assoc. simpl app at 2.
    rewrite splitlines_line_lf by assumption.
    f_equal. apply IH. discriminate.
Qed.

(** A question or an answer that the cleaning step leaves as it is. *)
Definition clean_text (s : str) : Prop := s <> [] /\ _clean_piece s = s.

(** The line of one card: question, tab, answer. *)
Definition tsv_row (p : str * str) : str := fst p ++ [TAB] ++ snd p.

(** The text of the cards, one line each. *)
Definition tsv_text (pairs : list (str * str)) : str := join [LF] (map tsv_row pairs).

Lemma clean_text_chars s c :
  clean_text s -> In c s -> is_space c = true -> c = SPACE.
Proof. intros [_ E] Hin. rewrite <- E in Hin. now apply (_clean_piece_spaces s). Qed.

Lemma clean_text_stripped s : clean_text s -> strip s = s.
Proof. intros [_ E]. rewrite <- E. apply _clean_piece_stripped. Qed.

Lemma clean_text_no_break s : clean_text s -> no_break s.
Proof.
  intros H. apply Forall_forall. intros c Hin.
  destruct (is_linebreak c) eqn:E; [|reflexivity].
  apply is_linebreak_space in E. destruct E as [Hs Hne].
  now rewrite (clean_text_chars s c H Hin Hs) in Hne.
Qed.

Lemma tsv_row_split q a :
  clean_text q -> split_once [TAB] (q ++ [TAB] ++ a) = Some (q, a).
Proof.
  intros Hq. apply split_once_complete. split; [reflexivity|].
  intros l' r' Hocc. unfold occurs_at in Hocc. simpl in Hocc.
  destruct (cut_compare _ _ _ _ _ _ Hocc) as [(-> & _) | [(m & -> & _) | (m & E & _)]];
    rewrite ?length_app; simpl; try lia.
  exfalso. assert (Hin : In TAB q) by (rewrite E; apply in_or_app; right; now left).
  pose proof (clean_text_chars q TAB Hq Hin eq_refl). discriminate.
Qed.

Lemma tsv_line_row q a :
  clean_text q -> clean_text a ->
  tsv_line (tsv_row (q, a)) = Ok [new_card q a].
Proof.
  intros Hq Ha. unfold tsv_line, tsv_row. simpl fst. simpl snd.
  rewrite (strip_sandwich q [TAB] a (proj1 Hq) (proj1 Ha)
             (clean_text_stripped q Hq) (clean_text_stripped a Ha)).
  unfold contains, split1. rewrite (tsv_row_split q a Hq).
  destruct Hq as [Hq Eq], Ha as [Ha Ea].
  destruct q as [|q0 q]; [contradiction|]. cbn [app truthy negb orb unpack2 bind].
  rewrite Eq, Ea. unfold emit.
  destruct a as [|a0 a]; [contradiction|]. reflexivity.
Qed.

Lemma tsv_row_line p :
  clean_text (fst p) -> clean_text (snd p) ->
  tsv_row p <> [] /\ no_break (tsv_row p).
Proof.
  intros Hq Ha. split.
  - unfold tsv_row. destruct (fst p); [destruct Hq; contradiction | discriminate].
  - unfold tsv_row, no_break. rewrite !Forall_app. repeat split.
    + now apply clean_text_no_break.
    + repeat constructor.
    + now apply clean_text_no_break.
Qed.

(** The round trip for any number of cards. *)
Lemma tsv_round_trip pairs (trailing : bool) :
  Forall (fun p => clean_text (fst p) /\ clean_text (snd p)) pairs ->
  _parse_tsv_lines (tsv_text pairs ++ (if trailing then [LF] else []))
  = Ok (map (fun p => new_card (fst p) (snd p)) pairs).
Proof.
  intros H. destruct pairs as [|p0 pairs'] eqn:Ep.
  - destruct trailing; reflexivity.
  - rewrite <- Ep in *. assert (Hne : map tsv_row pairs <> []) by (subst; discriminate).
    clear Ep. rewrite _parse_tsv_lines_ok. unfold tsv_text.
    rewrite splitlines_join; [|assumption|].
    + f_equal. clear Hne. induction H as [|[q a] pairs [Hq Ha] Hrest IH]; [reflexivity|].
      simpl map. simpl flat_map. rewrite IH.
      rewrite (tsv_line_row q a Hq Ha). reflexivity.
    + apply Forall_map. eapply Forall_impl; [|exact H].
      intros p [Hq Ha]. now apply tsv_row_line.
Qed.

Section AnyDecoder.

Variable json_loads : str -> loads_outcome.
Variable py_repr : json -> str.

(** C7, for cards that the cleaning step leaves alone: on the text of five
    cards, one per line as question, tab, answer (with or without a final
    line feed), where every question and answer is non-empty and equal to
    its own cleaned form (no leading numbering, bullet or label, white
    space normalised), [_robust_parse_any] returns exactly five cards,
    with the questions and answers of the lines, in the order of the
    lines. *)
Theorem C7_tsv_round_trip_five_cards :
  forall (pairs : list (str * str)) (trailing : bool),
    length pairs = 5 ->
    Forall (fun p => clean_text (fst p) /\ clean_text (snd p)) pairs ->
    exists cards,
      _robust_parse_any json_loads py_repr
        (tsv_text pairs ++ (if trailing then [LF] else [])) = Ok cards
      /\ length cards = 5
      /\ cards = map (fun p => new_card (fst p) (snd p)) pairs.
Proof.
  intros pairs trailing Hlen H.
  exists (map (fun p => new_card (fst p) (snd p)) pairs).
  split; [|split; [now rewrite length_map | reflexivity]].
  unfold _robust_parse_any, parsers, first_nonempty.
  rewrite (tsv_round_trip pairs trailing H). cbn [bind].
  destruct pairs; [discriminate | reflexivity].
Qed.

End AnyDecoder.

(** The sample of the specification, continued to five cards. *)
Definition sample_pairs : list (str * str) :=
  [ (lit "What is X?", lit "X is Y.");
    (lit "What is A?", lit "A is B.");
    (lit "What is C?", lit "C is D.");
    (lit "What is E?", lit "E is F.");
    (lit "What is G?", lit "G is H.") ].

Lemma C7_tsv_round_trip_witness :
  exists cards,
    _robust_parse_any (fun _ => DecodeError) (fun _ => [])
      (tsv_text sample_pairs ++ [LF]) = Ok cards
    /\ length cards = 5
    /\ cards = map (fun p => new_card (fst p) (snd p)) sample_pairs.
Proof.
  apply (C7_tsv_round_trip_five_cards (fun _ => DecodeError) (fun _ => [])
           sample_pairs true eq_refl).
  repeat constructor; try discriminate.
Defined.

(** White space normalised: stripped, and every run of white space a
    single space. *)
Definition whitespace_normalized (s : str) : Prop := strip (collapse_spaces s) = s.

(** Five cards whose third answer is a number with its full stop. *)
Definition dated_pairs : list (str * str) :=
  [ (lit "What is X?", lit "X is Y.");
    (lit "What is A?", lit "A is B.");
    (lit "What year did the war end?", lit "1945.");
    (lit "What is E?", lit "E is F.");
    (lit "What is G?", lit "G is H.") ].

(** The five lines are well formed, non-empty and white space normalised,
    and four cards come back: the cleaning step reads "1945." as list
    numbering and leaves an empty answer. *)
Lemma C7_numeric_answer_counterexample :
  length dated_pairs = 5
  /\ Forall (fun p => fst p <> [] /\ snd p <> []
                      /\ whitespace_normalized (fst p)
                      /\ whitespace_normalized (snd p)) dated_pairs
  /\ _robust_parse_any (fun _ => DecodeError) (fun _ => []) (tsv_text dated_pairs)
     = Ok [ new_card (lit "What is X?") (lit "X is Y.");
            new_card (lit "What is A?") (lit "A is B.");
            new_card (lit "What is E?") (lit "E is F.");
            new_card (lit "What is G?") (lit "G is H.") ].
Proof.
  split; [reflexivity|]. split.
  - repeat constructor; try discriminate.
  - vm_compute. reflexivity.
Qed.

End RoundTrip.

(* ================================================================== *)
(** * The unit splitter *)
(* ================================================================== *)

Module SplitterClaims.
Import PyStr PyStrFacts CleanFacts Chunking.

(** Some character of [s] is no white space. *)
Definition has_ink (s : str) : Prop := exists c, In c s /\ is_space c = false.

Lemma drop_while_ink s :
  has_ink s -> exists c t, drop_while is_space s = c :: t /\ is_space c = false.
Proof.
  intros (c & Hin & Hc). induction s as [|d s IH]; [destruct Hin|]. simpl.
  destruct (is_space d) eqn:Ed.
  - destruct Hin as [-> | Hin]; [congruence | now apply IH].
  - eauto.
Qed.

Lemma strip_ink s : strip s <> [] <-> has_ink s.
Proof.
  split.
  - intros H. destruct (strip s) as [|c t] eqn:E; [contradiction|].
    assert (Hs : strip (c :: t) = c :: t) by (rewrite <- E; apply strip_idem).
    exists c. split.
    + apply In_strip. rewrite E. now left.
    + now apply strip_fixed_head in Hs.
  - intros H. destruct (drop_while_ink s H) as (c & t & E & Hc).
    unfold strip, lstrip. rewrite E.
    destruct (rstrip_head_kept c t _ eq_refl Hc) as (r' & ->). discriminate.
Qed.

Lemma stripped_nonblank_nonempty parts :
  stripped_nonblank parts <> [] <-> exists p, In p parts /\ has_ink p.
Proof.
  unfold stripped_nonblank. induction parts as [|p parts IH]; simpl.
  - split; [intros H; now contradiction H | intros (p & [] & _)].
  - destruct (truthy (strip p)) eqn:E.
    + split; [|discriminate]. intros _. exists p. split; [now left|].
      apply strip_ink. now apply truthy_true.
    + rewrite IH. apply truthy_false in E. split.
      * intros (q & Hq & Hi). exists q. auto.
      * intros (q & [<- | Hq] & Hi); [|eauto].
        apply strip_ink in Hi. contradiction.
Qed.

(** ** The parts hold the characters of the text *)

Lemma In_cons_head c (ls : list str) p d :
  In p (cons_head c ls) -> In d p ->
  d = c \/ exists q, In q ls /\ In d q.
Proof.
  destruct ls as [|l ls]; simpl.
  - intros [<- | []] [<- | []]. now left.
  - intros [<- | Hp] Hd.
    + destruct Hd as [<- | Hd]; [now left | right; exists l; auto].
    + right. exists p. auto.
Qed.

Lemma cons_head_keeps c (ls : list str) :
  (exists p, In p (cons_head c ls) /\ In c p)
  /\ forall q d, In q ls -> In d q -> exists p, In p (cons_head c ls) /\ In d p.
Proof.
  destruct ls as [|l ls]; simpl.
  - split; [exists [c]; simpl; auto | intros q d []].
  - split; [exists (c :: l); simpl; auto|].
    intros q d [<- | Hq] Hd.
    + exists (c :: l). simpl. auto.
    + exists q. simpl. auto.
Qed.

Lemma paragraph_parts_sound s : forall b p d,
  In p (paragraph_parts_from b s) -> In d p -> In d s.
Proof.
  induction s as [|c s IH]; intros b p d Hp Hd; simpl in Hp.
  - destruct Hp as [<- | []]. destruct Hd.
  - assert (Hcons : forall b', In p (cons_head c (paragraph_parts_from b' s)) -> In d (c :: s)).
    { intros b' H. destruct (In_cons_head _ _ _ _ H Hd) as [-> | (q & Hq & Hdq)];
        [now left | right; eapply IH; eauto]. }
    destruct (c =? LF)%N.
    + destruct b; [right; eapply IH; eauto|].
      destruct s as [|c' s']; [now apply (Hcons false)|].
      destruct (c' =? LF)%N; [|now apply (Hcons false)].
      destruct Hp as [<- | Hp]; [destruct Hd | right; eapply IH; eauto].
    + now apply (Hcons false).
Qed.

Lemma sentence_parts_sound s : forall m p d,
  In p (sentence_parts_from m s) -> In d p -> In d s.
Proof.
  induction s as [|c s IH]; intros m p d Hp Hd; simpl in Hp.
  - destruct Hp as [<- | []]. destruct Hd.
  - assert (Hcons : forall m', In p (cons_head c (sentence_parts_from m' s)) -> In d (c :: s)).
    { intros m' H. destruct (In_cons_head _ _ _ _ H Hd) as [-> | (q & Hq & Hdq)];
        [now left | right; eapply IH; eauto]. }
    destruct (is_space c).
    + destruct m.
      * now apply (Hcons Plain).
      * destruct Hp as [<- | Hp]; [destruct Hd | right; eapply IH; eauto].
      * right. eapply IH; eauto.
    + eapply Hcons; eauto.
Qed.

(** No character that is not white space is lost by the sentence split. *)
Lemma sentence_parts_complete s : forall m d,
  In d s -> is_space d = false ->
  exists p, In p (sentence_parts_from m s) /\ In d p.
Proof.
  induction s as [|c s IH]; intros m d Hd Hink; [destruct Hd|]. simpl.
  destruct (is_space c) eqn:Ec.
  - destruct Hd as [-> | Hd]; [congruence|].
    destruct m.
    + destruct (IH Plain d Hd Hink) as (q & Hq & Hdq).
      now apply (proj2 (cons_head_keeps c _) q d).
    + destruct (IH InSeparator d Hd Hink) as (q & Hq & Hdq).
      exists q. simpl. auto.
    + now apply IH.
  - destruct Hd as [-> | Hd].
    + apply (proj1 (cons_head_keeps _ _)).
    + destruct (IH (if is_stop c then Armed else Plain) d Hd Hink) as (q & Hq & Hdq).
      now apply (proj2 (cons_head_keeps c _) q d).
Qed.

(** ** The text is its heading parts when no heading line is cut *)

Lemma split_lf_nonempty s : split_lf s <> [].
Proof.
  induction s as [|c s IH]; simpl; [discriminate|].
  destruct (c =? LF)%N; [discriminate|].
  destruct (split_lf s); [contradiction | discriminate].
Qed.

Lemma join_split_lf s : join [LF] (split_lf s) = s.
Proof.
  induction s as [|c s IH]; [reflexivity|]. simpl.
  pose proof (split_lf_nonempty s) as Hne.
  destruct (c =? LF)%N eqn:E.
  - apply N.eqb_eq in E. subst c.
    destruct (split_lf s) as [|l ls]; [contradiction|]. simpl in *. now rewrite IH.
  - destruct (split_lf s) as [|l ls]; [contradiction|]. simpl in *.
    destruct ls; simpl in *; now rewrite <- IH.
Qed.

Lemma heading_parts_from_length lines : forall cur,
  1 <= length (heading_parts_from cur lines)
  /\ (length (heading_parts_from cur lines) = 1 ->
      heading_parts_from cur lines = [cur ++ join [LF] lines]).
Proof.
  induction lines as [|l lines IH]; intros cur; simpl.
  - split; [lia|]. now rewrite app_nil_r.
  - destruct lines as [|l2 lines]; [simpl; split; [lia | reflexivity]|].
    destruct (is_heading l).
    + destruct (IH []) as [H1 _]. cbn [length]. split; [lia|]. lia.
    + destruct (IH (cur ++ l ++ [LF])) as [H1 H2]. split; [exact H1|].
      intros H. rewrite (H2 H). now rewrite <- !app_assoc.
Qed.

Lemma heading_parts_single text :
  (1 <? length (heading_parts text)) = false -> heading_parts text = [text].
Proof.
  intros H. apply Nat.ltb_ge in H. unfold heading_parts in *.
  destruct (heading_parts_from_length (split_lf text) []) as [H1 H2].
  rewrite H2 by lia. simpl. now rewrite join_split_lf.
Qed.

Lemma heading_parts_from_plain lines : forall cur,
  lines <> [] ->
  Forall (fun line => is_heading line = false) lines ->
  heading_parts_from cur lines = [cur ++ join [LF] lines].
Proof.
  induction lines as [|l lines IH]; intros cur Hne H; [contradiction|].
  inversion H as [|? ? Hl Hrest]; subst. simpl.
  destruct lines as [|l2 lines]; [reflexivity|].
  rewrite Hl. rewrite IH by (assumption || discriminate).
  now rewrite <- !app_assoc.
Qed.

(** C5, as the code has it: [_split_candidates] returns a non-empty
    sequence of units exactly when one of the parts between the heading
    lines holds a character that is not white space.  Without a heading
    line the whole text is the one part, so every text that is not all
    white space gives at least one unit; a text of white space only, or of
    heading lines only, gives none. *)
Theorem C5_split_candidates_nonempty :
  (forall text,
      _split_candidates text <> [] <->
      exists part, In part (heading_parts text) /\ has_ink part)
  /\ (forall text,
        heading_parts text = [text] ->
        (_split_candidates text <> [] <-> has_ink text))
  /\ (forall text,
        Forall (fun line => is_heading line = false) (split_lf text) ->
        has_ink text -> _split_candidates text <> [])
  /\ _split_candidates (lit "One sentence only") = [lit "One sentence only"]
  /\ _split_candidates (lit "# Title" ++ [LF]) = [].
Proof.
  assert (Hmain : forall text,
             _split_candidates text <> [] <->
             exists part, In part (heading_parts text) /\ has_ink part).
  { intros text. unfold _split_candidates.
    destruct (1 <? length (heading_parts text)) eqn:E1.
    - apply stripped_nonblank_nonempty.
    - rewrite (heading_parts_single text E1).
      destruct (1 <? length (stripped_nonblank (paragraph_parts text))) eqn:E2.
      + split.
        * intros H. apply stripped_nonblank_nonempty in H.
          destruct H as (p & Hp & c & Hc & Hink).
          exists text. split; [now left|]. exists c. split; [|assumption].
          eapply paragraph_parts_sound; eauto.
        * intros _ H. rewrite H in E2. discriminate.
      + rewrite stripped_nonblank_nonempty. split.
        * intros (p & Hp & c & Hc & Hink).
          exists text. split; [now left|]. exists c. split; [|assumption].
          eapply sentence_parts_sound; eauto.
        * intros (part & [<- | []] & c & Hc & Hink).
          destruct (sentence_parts_complete text Plain c Hc Hink) as (p & Hp & Hcp).
          exists p. split; [assumption|]. exists c. auto. }
  assert (Hsingle : forall text,
             heading_parts text = [text] ->
             (_split_candidates text <> [] <-> has_ink text)).
  { intros text H. rewrite Hmain, H. split.
    - intros (part & [<- | []] & Hink). exact Hink.
    - intros Hink. exists text. split; [now left | exact Hink]. }
  split; [exact Hmain|]. split; [exact Hsingle|]. split; [|split].
  - intros text Hlines Hink. apply Hsingle; [|exact Hink].
    unfold heading_parts.
    rewrite (heading_parts_from_plain _ [] (split_lf_nonempty text) Hlines).
    simpl. now rewrite join_split_lf.
  - vm_compute. reflexivity.
  - vm_compute. reflexivity.
Qed.

(** A text of one space is not empty, and has no unit. *)
Lemma C5_blank_text_counterexample :
  lit " " <> [] /\ _split_candidates (lit " ") = [].
Proof. split; [discriminate | reflexivity]. Qed.

End SplitterClaims.

(* ================================================================== *)
(** * The chunk packer *)
(* ================================================================== *)

Module PackerClaims.
Import PyStr PyStrFacts Exc Chunking SplitterClaims.

Section Tokenizer.

Variable token : Type.
Variable encode : str -> result (list token).
Variable decode : list token -> str.

Local Abbreviation ntokens := (ntokens encode).
Local Abbreviation hard_split := (hard_split encode decode).
Local Abbreviation add_unit := (add_unit encode decode).
Local Abbreviation add_units := (add_units encode decode).
Local Abbreviation chunk_text := (chunk_text encode decode).

(** The token counts of the units of an accumulator, added up; an
    exception when the tokenizer refuses one of them. *)
Fixpoint sum_tokens (units : list str) : result Z :=
  match units with
  | [] => Ok 0%Z
  | u :: rest =>
      match ntokens u with
      | Raise e => Raise e
      | Ok n =>
          match sum_tokens rest with
          | Raise e => Raise e
          | Ok total => Ok (n + total)%Z
          end
      end
  end.

Lemma ntokens_encode s n :
  ntokens s = Ok n <-> exists toks, encode s = Ok toks /\ n = len toks.
Proof.
  unfold Chunking.ntokens. destruct (encode s) as [toks|e]; split.
  - intros H. inversion H. eauto.
  - intros (t & E & ->). now inversion E.
  - discriminate.
  - intros (t & E & _). discriminate.
Qed.

Lemma ntokens_nonneg s n : ntokens s = Ok n -> (0 <= n)%Z.
Proof. intros H. apply ntokens_encode in H. destruct H as (t & _ & ->). unfold len. lia. Qed.

Lemma sum_tokens_nonneg units : forall total,
  sum_tokens units = Ok total -> (0 <= total)%Z.
Proof.
  induction units as [|u units IH]; intros total H; simpl in H.
  - inversion H. lia.
  - destruct (ntokens u) as [n|e] eqn:En; [|discriminate].
    destruct (sum_tokens units) as [t|e]; [|discriminate].
    inversion H. pose proof (ntokens_nonneg u n En). specialize (IH t eq_refl). lia.
Qed.

Lemma sum_tokens_app a b ta tb :
  sum_tokens a = Ok ta -> sum_tokens b = Ok tb ->
  sum_tokens (a ++ b) = Ok (ta + tb)%Z.
Proof.
  revert ta. induction a as [|u a IH]; intros ta Ha Hb; simpl in *.
  - inversion Ha. exact Hb.
  - destruct (ntokens u) as [n|e]; [|discriminate].
    destruct (sum_tokens a) as [t|e]; [|discriminate].
    inversion Ha. rewrite (IH t eq_refl Hb). f_equal. lia.
Qed.

Lemma sum_tokens_single u n : ntokens u = Ok n -> sum_tokens [u] = Ok n.
Proof. intros H. simpl. rewrite H. f_equal. lia. Qed.

(** Units that fit the target together are all appended. *)
Lemma add_units_fit fuel target_tokens overlap_tokens units : forall st total,
  sum_tokens units = Ok total ->
  (cur_tok st + total <= target_tokens)%Z ->
  add_units fuel target_tokens overlap_tokens st units
  = Some (Ok (mk_state (chunks st) (cur st ++ units) (cur_tok st + total))).
Proof.
  induction units as [|u units IH]; intros st total Hsum H; simpl in *.
  - inversion Hsum. rewrite app_nil_r, Z.add_0_r. now destruct st.
  - destruct (ntokens u) as [n|e] eqn:En; [|discriminate].
    destruct (sum_tokens units) as [t|e] eqn:Et; [|discriminate].
    inversion Hsum; subst total.
    pose proof (sum_tokens_nonneg units t Et).
    unfold Chunking.add_unit. rewrite En.
    rewrite (proj2 (Z.leb_le _ _)) by lia.
    rewrite (IH _ t eq_refl) by (simpl; lia). simpl. rewrite <- app_assoc. simpl.
    f_equal. f_equal. f_equal. lia.
Qed.

(** C6, as the code has it: the empty text gives no chunk; a text with at
    least one unit whose units' token counts add up to at most
    [target_tokens] gives exactly one chunk, the units joined by blank
    lines.  The budget is checked against the sum over the units, not
    against the token count of the document. *)
Theorem C6_empty_and_small_documents :
  forall (fuel : nat) (target_tokens overlap_tokens : Z),
    chunk_text fuel [] target_tokens overlap_tokens = Some (Ok [])
    /\ forall text total,
         _split_candidates text <> [] ->
         sum_tokens (_split_candidates text) = Ok total ->
         (total <= target_tokens)%Z ->
         chunk_text fuel text target_tokens overlap_tokens
         = Some (Ok [join PARA (_split_candidates text)]).
Proof.
  intros fuel target_tokens overlap_tokens. split; [reflexivity|].
  intros text total Hne Hsum Hfit. unfold Chunking.chunk_text.
  rewrite (add_units_fit _ _ _ _ _ total Hsum) by (simpl; lia). simpl.
  unfold flush. simpl.
  destruct (_split_candidates text); [contradiction | reflexivity].
Qed.

End Tokenizer.

(** Witness of C6 with one token per character: two sentences, 23
    characters in the units, target 1400. *)
Lemma C6_small_document_witness :
  chunk_text char_encode char_decode 0 [] 1400 150 = Some (Ok [])
  /\ chunk_text char_encode char_decode 0 (lit "Cells divide. They grow.") 1400 150
     = Some (Ok [join PARA (_split_candidates (lit "Cells divide. They grow."))]).
Proof.
  destruct (C6_empty_and_small_documents char char_encode char_decode 0 1400 150)
    as [H0 H1].
  split; [exact H0|].
  apply (H1 _ 23%Z); [vm_compute; discriminate | reflexivity | vm_compute; discriminate].
Defined.

(** A text of one space holds one token, fewer than the target, and is
    not empty; it gives no chunk at all. *)
Lemma C6_blank_document_counterexample :
  lit " " <> []
  /\ ntokens char_encode (lit " ") = Ok 1%Z
  /\ (1 < 1400)%Z
  /\ chunk_text char_encode char_decode 0 (lit " ") 1400 150 = Some (Ok []).
Proof. repeat split; (discriminate || reflexivity). Qed.

(** ** What every chunk is made of *)

Section Budget.

Variable token : Type.
Variable encode : str -> result (list token).
Variable decode : list token -> str.

Local Abbreviation ntokens := (ntokens encode).
Local Abbreviation sum_tokens := (sum_tokens token encode).
Local Abbreviation hard_split := (hard_split encode decode).
Local Abbreviation add_unit := (add_unit encode decode).
Local Abbreviation add_units := (add_units encode decode).
Local Abbreviation chunk_text := (chunk_text encode decode).

Variable target_tokens overlap_tokens : Z.

(** Where a chunk comes from: a hard split, which decodes the first
    [target_tokens] tokens of the accumulator, or a flush of an
    accumulator whose pieces count at most [target_tokens * 1.3] tokens
    together (the blank lines that join them are not counted). *)
Inductive chunk_origin : str -> Prop :=
| hard_piece toks :
    chunk_origin (decode (slice_to target_tokens toks))
| packed pieces total :
    pieces <> [] ->
    sum_tokens pieces = Ok total ->
    (10 * total <= 13 * target_tokens)%Z ->
    chunk_origin (join PARA pieces).

(** The accumulator is the input one, or the one remainder of a hard
    split. *)
Definition cur_kept_or_single (st st' : state) : Prop :=
  (cur st' = cur st /\ cur_tok st' = cur_tok st)
  \/ exists rest, cur st' = [rest] /\ ntokens rest = Ok (cur_tok st').

Lemma hard_split_facts fuel : forall st st',
  hard_split fuel target_tokens overlap_tokens st = Some (Ok st') ->
  (Forall chunk_origin (chunks st) -> Forall chunk_origin (chunks st'))
  /\ (10 * cur_tok st' <= 13 * target_tokens)%Z
  /\ cur_kept_or_single st st'
  /\ length (chunks st) <= length (chunks st')
  /\ (over_budget (cur_tok st) target_tokens = true ->
      length (chunks st) < length (chunks st')
      /\ exists rest, cur st' = [rest] /\ ntokens rest = Ok (cur_tok st')).
Proof.
  induction fuel as [|fuel IH]; intros st st' H; simpl in H;
    destruct (over_budget (cur_tok st) target_tokens) eqn:E; try discriminate.
  - inversion H; subst. unfold over_budget in E. apply Z.ltb_ge in E.
    repeat split; auto; try lia; try discriminate. now left.
  - destruct (encode (join PARA (cur st))) as [toks|e]; [|discriminate].
    match type of H with
    | match ?x with _ => _ end = _ => destruct x as [rest_tok|e] eqn:Er; [|discriminate]
    end.
    apply IH in H. cbn [chunks cur cur_tok] in H.
    destruct H as (H1 & H2 & H3 & H4 & H5).
    rewrite length_app in H4. simpl in H4.
    assert (Hsingle : exists rest, cur st' = [rest] /\ ntokens rest = Ok (cur_tok st')).
    { unfold cur_kept_or_single in H3. cbn [cur cur_tok] in H3.
      destruct H3 as [[Hc Ht] | H3]; [|exact H3].
      eexists. split; [exact Hc|]. rewrite Ht. exact Er. }
    repeat split; auto; try lia.
    + intros Hc. apply H1. apply Forall_app. split; [assumption|].
      repeat constructor.
    + now right.
  - inversion H; subst. unfold over_budget in E. apply Z.ltb_ge in E.
    repeat split; auto; try lia; try discriminate. now left.
Qed.

(** The invariant of the loop over the units. *)
Definition state_ok (st : state) : Prop :=
  Forall chunk_origin (chunks st)
  /\ sum_tokens (cur st) = Ok (cur_tok st)
  /\ (cur st <> [] -> (10 * cur_tok st <= 13 * target_tokens)%Z).

Lemma add_unit_facts fuel st unit st' :
  state_ok st ->
  add_unit fuel target_tokens overlap_tokens st unit = Some (Ok st') ->
  state_ok st'
  /\ cur st' <> []
  /\ length (chunks st) <= length (chunks st')
  /\ (forall n, ntokens unit = Ok n -> over_budget n target_tokens = true ->
      1 <= length (chunks st')).
Proof.
  intros (Hch & Htok & Hbound) H. unfold Chunking.add_unit in H.
  destruct (ntokens unit) as [utoks|e] eqn:Eu; [|discriminate].
  pose proof (ntokens_nonneg token encode unit utoks Eu) as Hu.
  pose proof (sum_tokens_nonneg token encode (cur st) _ Htok) as Hs.
  destruct (cur_tok st + utoks <=? target_tokens)%Z eqn:E.
  - apply Z.leb_le in E. inversion H; subst.
    unfold state_ok. cbn [chunks cur cur_tok].
    assert (Hsum : sum_tokens (cur st ++ [unit]) = Ok (cur_tok st + utoks)%Z).
    { apply sum_tokens_app; [exact Htok | now apply sum_tokens_single]. }
    split; [|split; [|split]].
    + split; [assumption|]. split; [exact Hsum|]. intros _. lia.
    + intros Hnil. apply app_eq_nil in Hnil. destruct Hnil; discriminate.
    + lia.
    + intros n Hn Ho. inversion Hn; subst n.
      unfold over_budget in Ho. apply Z.ltb_lt in Ho. lia.
  - apply Z.leb_gt in E.
    set (chunks1 := if truthy (cur st)
                    then chunks st ++ [join PARA (cur st)] else chunks st) in *.
    assert (Hch1 : Forall chunk_origin chunks1 /\ length (chunks st) <= length chunks1).
    { unfold chunks1. destruct (truthy (cur st)) eqn:Et; [|auto].
      apply truthy_true in Et. split; [|rewrite length_app; simpl; lia].
      apply Forall_app. split; [assumption|]. constructor; [|constructor].
      apply (packed _ (cur_tok st)); [assumption | exact Htok | now apply Hbound]. }
    destruct Hch1 as [Hch1 Hlen1].
    assert (Hst1 : exists st1,
               hard_split fuel target_tokens overlap_tokens st1 = Some (Ok st')
               /\ chunks st1 = chunks1
               /\ cur st1 <> []
               /\ sum_tokens (cur st1) = Ok (cur_tok st1)
               /\ (utoks <= cur_tok st1)%Z).
    { destruct (rev chunks1) as [|last_chunk ?].
      - eexists. split; [exact H|]. cbn [chunks cur cur_tok].
        split; [reflexivity|]. split; [discriminate|].
        split; [now apply sum_tokens_single | lia].
      - destruct (encode last_chunk) as [last_tokens|e]; [|discriminate].
        match type of H with
        | match ?x with _ => _ end = _ => destruct x as [otoks|e] eqn:Eo; [|discriminate]
        end.
        eexists. split; [exact H|]. cbn [chunks cur cur_tok].
        split; [reflexivity|]. split; [discriminate|].
        pose proof (ntokens_nonneg token encode _ otoks Eo).
        split; [|lia].
        change [?a; unit] with ([a] ++ [unit]).
        apply sum_tokens_app; now apply sum_tokens_single. }
    destruct Hst1 as (st1 & Hhs & Ec1 & Hne1 & Htok1 & Hge1).
    apply hard_split_facts in Hhs. destruct Hhs as (H1 & H2 & H3 & H4 & H5).
    rewrite Ec1 in *.
    split; [|split; [|split]].
    + split; [now apply H1|]. split.
      * destruct H3 as [[-> ->] | (rest & -> & Hr)];
          [assumption | now apply sum_tokens_single].
      * intros _. exact H2.
    + destruct H3 as [[-> _] | (rest & -> & _)]; [assumption | discriminate].
    + lia.
    + intros n Hn Ho. inversion Hn; subst n.
      unfold over_budget in *. apply Z.ltb_lt in Ho.
      assert (Ho1 : (13 * target_tokens <? 10 * cur_tok st1)%Z = true)
        by (apply Z.ltb_lt; lia).
      destruct (H5 Ho1) as [Hlt _]. lia.
Qed.

Lemma add_units_facts fuel units : forall st st',
  state_ok st ->
  add_units fuel target_tokens overlap_tokens st units = Some (Ok st') ->
  state_ok st'
  /\ length (chunks st) <= length (chunks st')
  /\ (cur st <> [] -> cur st' <> [])
  /\ ((exists u n, In u units /\ ntokens u = Ok n
                   /\ over_budget n target_tokens = true) ->
      1 <= length (chunks st') /\ cur st' <> []).
Proof.
  induction units as [|u units IH]; intros st st' Hok H; simpl in H.
  - inversion H; subst. split; [assumption|]. split; [lia|]. split; [auto|].
    intros (u & n & [] & _).
  - destruct (add_unit fuel target_tokens overlap_tokens st u) as [[st1|e]|] eqn:E1;
      try discriminate.
    destruct (add_unit_facts _ _ _ _ Hok E1) as (Hok1 & Hne1 & Hlen1 & Hover1).
    destruct (IH _ _ Hok1 H) as (Hok' & Hlen' & Hne' & Hover').
    split; [assumption|]. split; [lia|]. split; [intros _; now apply Hne'|].
    intros (v & n & [<- | Hv] & Hn & Ho).
    + specialize (Hover1 n Hn Ho). split; [lia | now apply Hne'].
    + apply Hover'. eauto.
Qed.

Lemma flush_facts st :
  state_ok st ->
  Forall chunk_origin (flush st)
  /\ (cur st <> [] -> length (flush st) = S (length (chunks st))).
Proof.
  intros (Hch & Htok & Hbound). unfold flush.
  destruct (truthy (cur st)) eqn:Et.
  - apply truthy_true in Et. split; [|intros _; rewrite length_app; simpl; lia].
    apply Forall_app. split; [assumption|]. constructor; [|constructor].
    apply (packed _ (cur_tok st)); [assumption | exact Htok | now apply Hbound].
  - apply truthy_false in Et. split; [assumption | congruence].
Qed.

Lemma state_ok_initial : state_ok (mk_state [] [] 0).
Proof. repeat split; [constructor | intros H; now contradiction H]. Qed.

(** ** What the packer raises *)

(** An exception of a hard split is an exception of the tokenizer. *)
Lemma hard_split_raises fuel : forall st e,
  hard_split fuel target_tokens overlap_tokens st = Some (Raise e) ->
  exists s, encode s = Raise e.
Proof.
  induction fuel as [|fuel IH]; intros st e H; simpl in H;
    destruct (over_budget (cur_tok st) target_tokens); try discriminate.
  destruct (encode (join PARA (cur st))) as [toks|e0] eqn:E0;
    [|inversion H; subst; eauto].
  unfold Chunking.ntokens in H.
  match type of H with
  | context [encode ?x] => destruct (encode x) as [toks'|e1] eqn:E1
  end; [eapply IH; eauto | inversion H; subst; eauto].
Qed.

Lemma add_unit_raises fuel st unit e :
  add_unit fuel target_tokens overlap_tokens st unit = Some (Raise e) ->
  exists s, encode s = Raise e.
Proof.
  unfold Chunking.add_unit, Chunking.ntokens. intros H.
  destruct (encode unit) as [utoks|e0] eqn:E0; [|inversion H; subst; eauto].
  destruct (_ <=? _)%Z; [discriminate|].
  destruct (rev _) as [|last_chunk ?]; [eapply hard_split_raises; eauto|].
  destruct (encode last_chunk) as [last_tokens|e1] eqn:E1;
    [|inversion H; subst; eauto].
  match type of H with
  | context [encode (decode ?x)] => destruct (encode (decode x)) as [toks'|e2] eqn:E2
  end; [eapply hard_split_raises; eauto | inversion H; subst; eauto].
Qed.

Lemma add_units_raises fuel units : forall st e,
  add_units fuel target_tokens overlap_tokens st units = Some (Raise e) ->
  exists s, encode s = Raise e.
Proof.
  induction units as [|u units IH]; intros st e H; simpl in H; [discriminate|].
  destruct (add_unit fuel target_tokens overlap_tokens st u) as [[st1|e1]|] eqn:E1;
    try discriminate.
  - eapply IH; eauto.
  - inversion H; subst. eapply add_unit_raises; eauto.
Qed.

(** ** Termination of the hard split *)

Hypothesis overlap_below_target : (0 <= overlap_tokens < target_tokens)%Z.
(** Encoding a decoded token sequence gives no more tokens than it had. *)
Hypothesis reencode_no_longer :
  forall ts toks, encode (decode ts) = Ok toks -> length toks <= length ts.

Lemma length_slice_from_pos {A} (a : Z) (l : list A) :
  (0 < a)%Z -> l <> [] -> length (slice_from a l) < length l.
Proof.
  intros Ha Hl. unfold slice_from, clamp_index, len.
  rewrite (proj2 (Z.ltb_ge _ _)) by lia. rewrite length_skipn.
  destruct l; [contradiction|]. simpl length. lia.
Qed.

Lemma length_slice_to_nonneg {A} (b : Z) (l : list A) :
  (0 <= b)%Z -> (len (slice_to b l) <= b)%Z.
Proof.
  intros Hb. unfold slice_to, clamp_index, len.
  rewrite (proj2 (Z.ltb_ge _ _)) by lia.
  pose proof (firstn_le_length (Z.to_nat (Z.min b (Z.of_nat (length l)))) l). lia.
Qed.

(** A hard-split piece: at most [target_tokens] tokens decoded, which
    encode to no more. *)
Definition hard_piece_of (p : str) : Prop :=
  exists ts,
    p = decode ts /\ (len ts <= target_tokens)%Z
    /\ forall n, ntokens p = Ok n -> (n <= target_tokens)%Z.

Lemma hard_piece_within_target toks :
  hard_piece_of (decode (slice_to target_tokens toks)).
Proof.
  exists (slice_to target_tokens toks).
  pose proof (length_slice_to_nonneg target_tokens toks ltac:(lia)) as Hlen.
  split; [reflexivity|]. split; [exact Hlen|].
  intros n Hn. apply ntokens_encode in Hn. destruct Hn as (t & Ht & ->).
  pose proof (reencode_no_longer _ _ Ht). unfold len in *. lia.
Qed.

Lemma hard_split_single_terminates n : forall rest toks chunks0,
  encode rest = Ok toks ->
  length toks <= n ->
  exists outcome, forall fuel, n <= fuel ->
    hard_split fuel target_tokens overlap_tokens
      (mk_state chunks0 [rest] (len toks)) = Some outcome.
Proof.
  induction n as [|n IH]; intros rest toks chunks0 Henc Hn.
  - exists (Ok (mk_state chunks0 [rest] (len toks))). intros fuel _.
    assert (E : over_budget (len toks) target_tokens = false).
    { unfold over_budget, len. apply Z.ltb_ge. lia. }
    destruct fuel; simpl; now rewrite E.
  - destruct (over_budget (len toks) target_tokens) eqn:E.
    + set (rest' := decode (slice_from (target_tokens - overlap_tokens) toks)).
      destruct (encode rest') as [toks'|e] eqn:E'.
      * assert (Hlt : length toks' <= n).
        { pose proof (reencode_no_longer _ _ E') as Hre.
          assert (Hne : toks <> []).
          { intros Hnil. unfold over_budget, len in E. rewrite Hnil in E.
            apply Z.ltb_lt in E. cbn [length Z.of_nat] in E. lia. }
          pose proof (length_slice_from_pos (target_tokens - overlap_tokens) toks
                        ltac:(lia) Hne).
          lia. }
        destruct (IH rest' toks' (chunks0 ++ [decode (slice_to target_tokens toks)])
                    E' Hlt) as (outcome & Hout).
        exists outcome. intros fuel Hfuel. destruct fuel as [|fuel]; [lia|].
        simpl. rewrite E. cbn [join]. rewrite Henc.
        unfold Chunking.ntokens. fold rest'. rewrite E'.
        apply Hout. lia.
      * exists (Raise e). intros fuel Hfuel. destruct fuel as [|fuel]; [lia|].
        simpl. rewrite E. cbn [join]. rewrite Henc.
        unfold Chunking.ntokens. fold rest'. now rewrite E'.
    + exists (Ok (mk_state chunks0 [rest] (len toks))). intros fuel _.
      destruct fuel; simpl; now rewrite E.
Qed.

Lemma hard_split_terminates st :
  exists n outcome, forall fuel, n <= fuel ->
    hard_split fuel target_tokens overlap_tokens st = Some outcome.
Proof.
  destruct (over_budget (cur_tok st) target_tokens) eqn:E.
  - destruct (encode (join PARA (cur st))) as [toks|e] eqn:E0.
    + set (rest := decode (slice_from (target_tokens - overlap_tokens) toks)).
      destruct (encode rest) as [toks'|e] eqn:E1.
      * destruct (hard_split_single_terminates (length toks') rest toks'
                    (chunks st ++ [decode (slice_to target_tokens toks)]) E1 (le_n _))
          as (outcome & Hout).
        exists (S (length toks')), outcome. intros fuel Hfuel.
        destruct fuel as [|fuel]; [lia|]. simpl. rewrite E, E0.
        unfold Chunking.ntokens. fold rest. rewrite E1. apply Hout. lia.
      * exists 1, (Raise e). intros fuel Hfuel.
        destruct fuel as [|fuel]; [lia|]. simpl. rewrite E, E0.
        unfold Chunking.ntokens. fold rest. now rewrite E1.
    + exists 1, (Raise e). intros fuel Hfuel.
      destruct fuel as [|fuel]; [lia|]. simpl. now rewrite E, E0.
  - exists 0, (Ok st). intros fuel _. destruct fuel; simpl; now rewrite E.
Qed.

Lemma add_unit_terminates st unit :
  exists n outcome, forall fuel, n <= fuel ->
    add_unit fuel target_tokens overlap_tokens st unit = Some outcome.
Proof.
  unfold Chunking.add_unit.
  destruct (ntokens unit) as [utoks|e]; [|exists 0, (Raise e); reflexivity].
  destruct (cur_tok st + utoks <=? target_tokens)%Z.
  - eexists 0, _. intros fuel _. reflexivity.
  - destruct (rev _) as [|last_chunk ?]; [apply hard_split_terminates|].
    destruct (encode last_chunk) as [last_tokens|e];
      [|exists 0, (Raise e); reflexivity].
    match goal with
    | |- context [Chunking.ntokens encode ?x] =>
        destruct (Chunking.ntokens encode x) as [otoks|e]
    end; [apply hard_split_terminates | exists 0, (Raise e); reflexivity].
Qed.

Lemma add_units_terminates units : forall st,
  exists n outcome, forall fuel, n <= fuel ->
    add_units fuel target_tokens overlap_tokens st units = Some outcome.
Proof.
  induction units as [|u units IH]; intros st.
  - exists 0, (Ok st). reflexivity.
  - destruct (add_unit_terminates st u) as (n1 & [st1|e] & H1).
    + destruct (IH st1) as (n2 & outcome & H2).
      exists (Nat.max n1 n2), outcome. intros fuel Hfuel. simpl.
      rewrite H1 by lia. apply H2. lia.
    + exists n1, (Raise e). intros fuel Hfuel. simpl. now rewrite H1.
Qed.

Lemma hard_split_pieces fuel : forall st st',
  hard_split fuel target_tokens overlap_tokens st = Some (Ok st') ->
  exists pieces,
    chunks st' = chunks st ++ pieces /\ Forall hard_piece_of pieces.
Proof.
  induction fuel as [|fuel IH]; intros st st' H; simpl in H;
    destruct (over_budget (cur_tok st) target_tokens) eqn:E; try discriminate.
  - inversion H; subst. exists []. now rewrite app_nil_r.
  - destruct (encode (join PARA (cur st))) as [toks|e]; [|discriminate].
    match type of H with
    | match ?x with _ => _ end = _ => destruct x as [rest_tok|e]; [|discriminate]
    end.
    apply IH in H. cbn [chunks] in H. destruct H as (pieces & -> & Hp).
    eexists. rewrite <- app_assoc. split; [reflexivity|].
    constructor; [apply hard_piece_within_target | exact Hp].
  - inversion H; subst. exists []. now rewrite app_nil_r.
Qed.

(** What [chunk_text] guarantees on [text]. *)
Definition chunk_budget (text : str) : Prop :=
  (* it ends: it returns, or it raises what the tokenizer raised *)
  (exists fuel0 outcome, forall fuel, fuel0 <= fuel ->
      chunk_text fuel text target_tokens overlap_tokens = Some outcome)
  /\ (forall fuel e,
        chunk_text fuel text target_tokens overlap_tokens = Some (Raise e) ->
        exists s, encode s = Raise e)
  /\ forall fuel chunks,
       chunk_text fuel text target_tokens overlap_tokens = Some (Ok chunks) ->
       (* every chunk is a hard-split piece of at most [target_tokens]
          tokens, or pieces joined by blank lines whose token counts add
          up to at most [target_tokens * 1.3] *)
       Forall (fun c =>
                 hard_piece_of c
                 \/ exists pieces total,
                      pieces <> [] /\ c = join PARA pieces
                      /\ sum_tokens pieces = Ok total
                      /\ (10 * total <= 13 * target_tokens)%Z)
              chunks
       (* a unit over the bound makes at least two chunks *)
       /\ ((exists u n, In u (_split_candidates text)
                        /\ ntokens u = Ok n
                        /\ (13 * target_tokens < 10 * n)%Z) ->
           2 <= length chunks)
       (* a text of one unit only has every chunk within the bound *)
       /\ (forall u, _split_candidates text = [u] ->
                     Forall (fun c => forall n, ntokens c = Ok n ->
                                                (10 * n <= 13 * target_tokens)%Z)
                            chunks).

(** C1, as the code has it.  For [0 <= overlap_tokens < target_tokens]
    and a tokenizer that never gets more tokens from encoding a decoded
    token sequence than the sequence had, [chunk_text] ends: it raises
    the exception of the tokenizer when [enc.encode] refuses a text, and
    otherwise it returns.  Every chunk it returns is either a hard-split
    piece, whose token count is at most [target_tokens], or the join of
    the pieces of an accumulator whose token counts add up to at most
    [target_tokens * 1.3]; the tokens of the blank lines between the
    pieces are not counted, so the bound is on that sum and not on the
    token count of the joined chunk.  A unit of more than
    [target_tokens * 1.3] tokens gives at least two chunks, and when it
    is the only unit every chunk is within [target_tokens * 1.3]. *)
Theorem C1_chunk_budget : forall text, chunk_budget text.
Proof.
  intros text. unfold chunk_budget, Chunking.chunk_text. split; [|split].
  - destruct (add_units_terminates (_split_candidates text) (mk_state [] [] 0))
      as (n & [st'|e] & H).
    + exists n, (Ok (flush st')). intros fuel Hfuel. now rewrite H.
    + exists n, (Raise e). intros fuel Hfuel. now rewrite H.
  - intros fuel e H.
    destruct (add_units fuel target_tokens overlap_tokens (mk_state [] [] 0)
                (_split_candidates text)) as [[st'|e']|] eqn:E; try discriminate.
    inversion H; subst. eapply add_units_raises; eauto.
  - intros fuel chunks0 H.
    destruct (add_units fuel target_tokens overlap_tokens (mk_state [] [] 0)
                (_split_candidates text)) as [[st'|e']|] eqn:E; try discriminate.
    inversion H; subst chunks0. clear H.
    destruct (add_units_facts _ _ _ _ state_ok_initial E)
      as (Hok & _ & _ & Hover).
    destruct (flush_facts _ Hok) as [Hflush Hlen].
    split; [|split].
    + eapply Forall_impl; [|exact Hflush].
      intros c [toks | pieces total Hne Hsum Hle].
      * left. apply hard_piece_within_target.
      * right. exists pieces, total. auto.
    + intros (u & n & Hu & Hn & Ho).
      destruct Hover as [H1 Hne].
      { exists u, n. split; [assumption|]. split; [assumption|]. now apply Z.ltb_lt. }
      rewrite (Hlen Hne). lia.
    + intros u Eu. rewrite Eu in E. simpl in E.
      destruct (add_unit fuel target_tokens overlap_tokens (mk_state [] [] 0) u)
        as [[st1|e1]|] eqn:E1; try discriminate.
      inversion E; subst st1. clear E.
      unfold Chunking.add_unit in E1. cbn [chunks cur cur_tok truthy rev] in E1.
      destruct (ntokens u) as [utoks|e] eqn:Eu'; [|discriminate].
      destruct (0 + utoks <=? target_tokens)%Z eqn:Efit.
      * apply Z.leb_le in Efit. inversion E1; subst st'.
        unfold flush. cbn [cur chunks truthy app join]. repeat constructor.
        intros n Hn. rewrite Eu' in Hn. inversion Hn; subst. lia.
      * destruct (hard_split_pieces _ _ _ E1) as (pieces & Hch & Hp).
        destruct (hard_split_facts _ _ _ E1) as (_ & Hb & Hcur & _).
        cbn [chunks cur cur_tok] in Hch, Hcur.
        assert (Hone : exists x, cur st' = [x] /\ ntokens x = Ok (cur_tok st')).
        { destruct Hcur as [[Hc Ht] | Hc]; [|exact Hc].
          exists u. split; [exact Hc|]. now rewrite Ht. }
        destruct Hone as (x & Hx & Htx).
        unfold flush. rewrite Hx, Hch. cbn [truthy app join].
        apply Forall_app. split.
        -- eapply Forall_impl; [|exact Hp].
           intros p (ts & _ & _ & Hle) n Hn. specialize (Hle n Hn). lia.
        -- repeat constructor. intros n Hn. rewrite Htx in Hn.
           inversion Hn; subst. exact Hb.
Qed.

End Budget.

(** Witness of C1 with one token per character and one special token
    that the tokenizer refuses: a single unit of ten tokens, target 4 and
    overlap 1. *)
Lemma C1_chunk_budget_witness :
  chunk_budget char guarded_encode char_decode 4 1 (lit "abcdefghij").
Proof.
  apply (C1_chunk_budget char guarded_encode char_decode 4 1).
  - lia.
  - intros ts toks. unfold guarded_encode, char_decode.
    destruct (contains END_OF_TEXT ts); [discriminate|].
    intros H. inversion H. apply le_n.
Defined.

(** A text that spells the special token: the tokenizer refuses the
    unit, and [chunk_text] raises. *)
Lemma chunk_text_refused_text :
  chunk_text guarded_encode char_decode 0 (lit "see <|endoftext|> here") 1400 150
  = Some (Raise ValueError).
Proof. vm_compute. reflexivity. Qed.

(** Three one-token paragraphs and a target of three tokens: the units
    fit, so they are joined into one chunk, and the two blank lines bring
    it to seven tokens, over [3 * 1.3]; no unit is over the bound. *)
Lemma C1_separator_tokens_counterexample :
  let text := lit "a" ++ PARA ++ lit "b" ++ PARA ++ lit "c" in
  chunk_text char_encode char_decode 0 text 3 1 = Some (Ok [text])
  /\ ntokens char_encode text = Ok 7%Z
  /\ (13 * 3 < 10 * 7)%Z
  /\ Forall (fun u => ntokens char_encode u = Ok 1%Z)
            (_split_candidates text)
  /\ (10 * 1 <= 13 * 3)%Z.
Proof.
  cbv zeta. split; [reflexivity|]. split; [reflexivity|]. split; [reflexivity|].
  split; [|discriminate]. repeat constructor.
Qed.

End PackerClaims.

(* ================================================================== *)
(** * Instances *)
(* ================================================================== *)

Module Instances.
Import PyStr PyStrFacts PyRe Exc Llm ExtractorFacts ParserClaims.
Import OrchestratorClaims Chunking SplitterClaims.

(** Witness of C2: two tab-separated lines are read by the first
    extractor, and its result is the result. *)
Lemma C2_first_extractor_witness :
  _robust_parse_any (fun _ => DecodeError) (fun _ => []) two_cards_text
  = Ok [new_card (lit "a") (lit "b"); new_card (lit "c") (lit "d")].
Proof.
  apply (C2_parse_any_first_nonempty_extractor
           (fun _ => DecodeError) (fun _ => []) two_cards_text).
  left. eexists [], _parse_tsv_lines, _.
  split; [reflexivity|]. split; [constructor|].
  split; [reflexivity | discriminate].
Defined.

(** Witness of C5: one sentence, no heading line. *)
Lemma C5_one_sentence_witness :
  has_ink (lit "Cells divide.")
  /\ _split_candidates (lit "Cells divide.") <> [].
Proof.
  assert (H : has_ink (lit "Cells divide.")).
  { exists 67%N. split; [now left | reflexivity]. }
  split; [exact H|].
  apply (proj1 (proj2 (proj2 C5_split_candidates_nonempty))); [|exact H].
  repeat constructor.
Defined.

(** Witness of C8: the card of the sample line, read off the
    characterisation. *)
Lemma C8_sample_line_witness :
  In (new_card (lit "Photosynthesis") (lit "converts light to energy"))
     (appended (numbered_line (lit "1) Photosynthesis - converts light to energy"))).
Proof.
  apply (proj1 C8_numbered_pairs_first_separator).
  split; [discriminate|].
  exists [], (lit " - "), (tl SEPARATORS),
    (lit "Photosynthesis"), (lit "converts light to energy").
  split; [reflexivity|]. split; [constructor|].
  split; [apply split_once_spec; reflexivity|].
  repeat split; discriminate.
Defined.

(** Witness of C10: the lower-case answer label. *)
Lemma C10_lower_case_answer_witness :
  one_line_line (lit "q: foo a: bar") = Ok [].
Proof.
  apply (proj1 C10_one_line_answer_delimiter_case_sensitive); reflexivity.
Defined.

End Instances.

(* ================================================================== *)
(** * More on the output parser *)
(* ================================================================== *)

Module ParserFacts.
Import PyStr PyStrFacts PyRe Exc Llm ExtractorFacts ParserClaims CleanFacts.

(** ** The normal form of a cleaned piece *)

(** No two adjacent characters of [s] are both white space. *)
Fixpoint single_spaced (s : str) : Prop :=
  match s with
  | [] => True
  | c :: t =>
      match t with
      | [] => True
      | d :: _ => (is_space c = false \/ is_space d = false) /\ single_spaced t
      end
  end.

Lemma single_spaced_tail c s : single_spaced (c :: s) -> single_spaced s.
Proof. destruct s; simpl; tauto. Qed.

Lemma collapse_from_single_spaced s : forall b,
  single_spaced (collapse_from b s)
  /\ (b = true -> forall c t, collapse_from b s = c :: t -> is_space c = false).
Proof.
  induction s as [|d s IH]; intros b; simpl.
  - split; [exact I | intros _ c t H; discriminate].
  - destruct (is_space d) eqn:Ed.
    + destruct b.
      * apply IH.
      * split; [|discriminate]. destruct (IH true) as [Hs Hh].
        destruct (collapse_from true s) as [|e r] eqn:Er; simpl; [exact I|].
        split; [|exact Hs]. right. eapply Hh; eauto.
    + split.
      * destruct (IH false) as [Hs _].
        destruct (collapse_from false s) as [|e r] eqn:Er; simpl; [exact I|].
        split; [now left | exact Hs].
      * intros _ c t H. inversion H; subst. exact Ed.
Qed.

Lemma drop_while_single_spaced p s :
  single_spaced s -> single_spaced (drop_while p s).
Proof.
  induction s as [|c s IH]; intros H; simpl; [exact I|].
  destruct (p c); [apply IH; eapply single_spaced_tail; eauto | exact H].
Qed.

Lemma rstrip_head s c r : rstrip s = c :: r -> exists t, s = c :: t.
Proof.
  destruct s as [|d s]; simpl; [discriminate|].
  destruct (rstrip s); [destruct (is_space d)|]; intros H; inversion H; eauto.
Qed.

Lemma rstrip_single_spaced s : single_spaced s -> single_spaced (rstrip s).
Proof.
  induction s as [|c s IH]; intros H; [exact I|].
  cbn [rstrip]. specialize (IH (single_spaced_tail _ _ H)).
  destruct (rstrip s) as [|e r] eqn:Er.
  - destruct (is_space c); exact I.
  - destruct (rstrip_head _ _ _ Er) as (t & ->).
    simpl in H. cbn [single_spaced]. split; [apply H | exact IH].
Qed.

Lemma strip_single_spaced s : single_spaced s -> single_spaced (strip s).
Proof.
  intros H. unfold strip, lstrip.
  now apply rstrip_single_spaced, drop_while_single_spaced.
Qed.

(** The cleaning step leaves a text in normal form: stripped, white only
    by the space character, and never two spaces in a row. *)
Theorem _clean_piece_normal_form : forall s,
  strip (_clean_piece s) = _clean_piece s
  /\ (forall c, In c (_clean_piece s) -> is_space c = true -> c = SPACE)
  /\ single_spaced (_clean_piece s).
Proof.
  intros s. split; [apply _clean_piece_stripped|]. split.
  - intros c. apply _clean_piece_spaces.
  - unfold _clean_piece, collapse_spaces. apply strip_single_spaced.
    apply collapse_from_single_spaced.
Qed.

(** ** Every card is well formed *)

(** The invariant of a flashcard: both sides are cleaned texts, neither
    is empty, and the source chunk is 0. *)
Definition well_formed (c : card) : Prop :=
  source_chunk c = 0%Z
  /\ question c <> [] /\ answer c <> []
  /\ (exists x, question c = _clean_piece x)
  /\ (exists y, answer c = _clean_piece y).

Lemma emit_well_formed x y c :
  In c (emit (_clean_piece x) (_clean_piece y)) -> well_formed c.
Proof.
  intros H. apply emit_cases in H. destruct H as (-> & Hq & Ha).
  repeat split; simpl; eauto.
Qed.

Lemma flat_map_all {A B} (P : B -> Prop) (f : A -> list B) l :
  (forall x, In x l -> Forall P (f x)) -> Forall P (flat_map f l).
Proof.
  intros H. apply Forall_forall. intros b Hb. apply in_flat_map in Hb.
  destruct Hb as (x & Hx & Hb). specialize (H x Hx).
  rewrite Forall_forall in H. now apply H.
Qed.

Lemma tsv_line_well_formed raw : Forall well_formed (appended (tsv_line raw)).
Proof.
  apply Forall_forall. intros c. unfold tsv_line.
  destruct (negb (truthy (strip raw)) || negb (contains [TAB] (strip raw))) eqn:E;
    [intros []|].
  apply orb_false_iff in E. destruct E as [_ E]. apply negb_false_iff in E.
  destruct (unpack2_split1 _ _ E) as (l & r & -> & _). simpl.
  apply emit_well_formed.
Qed.

Lemma one_line_try_well_formed delim line :
  Forall well_formed (one_line_try delim line).
Proof.
  apply Forall_forall. intros c. unfold one_line_try.
  destruct (index (split1 (lit ":") line) 1) as [seg|e]; [|intros []]. simpl.
  destruct (index (split1 delim seg) 0) as [q|e]; [|intros []]. simpl.
  destruct (index (split1 delim line) 1) as [a|e]; [|intros []]. simpl.
  apply emit_well_formed.
Qed.

Lemma one_line_line_well_formed raw :
  Forall well_formed (appended (one_line_line raw)).
Proof.
  unfold one_line_line.
  repeat match goal with |- context [if ?b then _ else _] => destruct b end;
    try constructor; apply one_line_try_well_formed.
Qed.

Lemma numbered_seps_well_formed seps line :
  Forall well_formed (appended (numbered_seps seps line)).
Proof.
  induction seps as [|sep seps IH]; simpl; [constructor|].
  destruct (contains sep line) eqn:Ec; [|exact IH].
  destruct (unpack2_split1 _ _ Ec) as (l & r & -> & _). simpl.
  apply Forall_forall. intros c.
  repeat match goal with |- context [if ?b then _ else _] => destruct b end;
    apply emit_well_formed.
Qed.

Lemma numbered_line_well_formed raw :
  Forall well_formed (appended (numbered_line raw)).
Proof.
  unfold numbered_line. destruct (negb (truthy (strip raw))); [constructor|].
  apply numbered_seps_well_formed.
Qed.

Lemma scan_pairs_well_formed lines : Forall well_formed (scan_pairs lines).
Proof.
  assert (H : forall n lines, length lines <= n -> Forall well_formed (scan_pairs lines)).
  { induction n as [|n IH]; intros [|l1 [|l2 rest]] Hn; simpl in *;
      try constructor; try lia.
    destruct (pair_matches l1 l2).
    - apply Forall_app. split; [|apply IH; lia].
      apply Forall_forall. intros c. apply emit_well_formed.
    - apply (IH (l2 :: rest)). simpl. lia. }
  now apply (H (length lines)).
Qed.

Section AnyDecoder.

Variable json_loads : str -> loads_outcome.
Variable py_repr : json -> str.

Lemma json_item_well_formed item :
  Forall well_formed (json_item py_repr item).
Proof.
  destruct item; try constructor. simpl.
  apply Forall_forall. intros c. apply emit_well_formed.
Qed.

Lemma _parse_json_list_well_formed text cards :
  _parse_json_list json_loads py_repr text = Ok cards -> Forall well_formed cards.
Proof.
  unfold _parse_json_list. destruct (json_data json_loads text) as [data|e];
    [|discriminate]. simpl.
  destruct data as [[| | | |items|]|]; intros H; inversion H; try constructor.
  apply flat_map_all. intros item _. apply json_item_well_formed.
Qed.

Lemma first_nonempty_well_formed text cards :
  first_nonempty (parsers json_loads py_repr) text = Ok cards ->
  Forall well_formed cards.
Proof.
  intros H. apply first_nonempty_ok in H.
  destruct H as [(before & p & after & E & _ & Hp & _) | [-> _]]; [|constructor].
  assert (Hin : In p (parsers json_loads py_repr))
    by (rewrite E; apply in_or_app; right; now left).
  simpl in Hin.
  destruct Hin as [<- | [<- | [<- | [<- | [<- | []]]]]].
  - rewrite _parse_tsv_lines_ok in Hp. inversion Hp.
    apply flat_map_all. intros raw _. apply tsv_line_well_formed.
  - rewrite _parse_q_a_one_line_ok in Hp. inversion Hp.
    apply flat_map_all. intros raw _. apply one_line_line_well_formed.
  - rewrite _parse_q_a_two_lines_ok in Hp. inversion Hp.
    apply scan_pairs_well_formed.
  - rewrite _parse_numbered_pairs_ok in Hp. inversion Hp.
    apply flat_map_all. intros raw _. apply numbered_line_well_formed.
  - eapply _parse_json_list_well_formed; eauto.
Qed.

(** Whatever the text and whichever extractor reads it, every card that
    [_robust_parse_any] returns has a source chunk of 0 and a question
    and an answer that are cleaned texts and not empty. *)
Theorem _robust_parse_any_well_formed : forall text cards,
  _robust_parse_any json_loads py_repr text = Ok cards ->
  Forall well_formed cards.
Proof. intros text cards. apply first_nonempty_well_formed. Qed.

End AnyDecoder.

(** The cards of the sample line of the specification are well formed. *)
Lemma _robust_parse_any_well_formed_witness :
  Forall well_formed [new_card (lit "a") (lit "b"); new_card (lit "c") (lit "d")].
Proof.
  apply (_robust_parse_any_well_formed (fun _ => DecodeError) (fun _ => [])
           OrchestratorClaims.two_cards_text).
  reflexivity.
Defined.

(** ** How many cards a text can give *)

Lemma length_emit q a : length (emit q a) <= 1.
Proof. unfold emit. destruct (truthy q && truthy a); simpl; lia. Qed.

Lemma length_flat_map_le {A B} (f : A -> list B) l :
  (forall x, length (f x) <= 1) -> length (flat_map f l) <= length l.
Proof.
  intros H. induction l as [|x l IH]; simpl; [lia|].
  rewrite length_app. specialize (H x). lia.
Qed.

Lemma length_tsv_line raw : length (appended (tsv_line raw)) <= 1.
Proof.
  unfold tsv_line.
  destruct (negb (truthy (strip raw)) || negb (contains [TAB] (strip raw))) eqn:E;
    [simpl; lia|].
  apply orb_false_iff in E. destruct E as [_ E]. apply negb_false_iff in E.
  destruct (unpack2_split1 _ _ E) as (l & r & -> & _). apply length_emit.
Qed.

Lemma length_one_line_try delim line : length (one_line_try delim line) <= 1.
Proof.
  unfold one_line_try.
  destruct (index (split1 (lit ":") line) 1) as [seg|e]; [|simpl; lia]. simpl.
  destruct (index (split1 delim seg) 0) as [q|e]; [|simpl; lia]. simpl.
  destruct (index (split1 delim line) 1) as [a|e]; [|simpl; lia].
  apply length_emit.
Qed.

Lemma length_one_line_line raw : length (appended (one_line_line raw)) <= 1.
Proof.
  unfold one_line_line.
  repeat match goal with |- context [if ?b then _ else _] => destruct b end;
    try (simpl; lia); apply length_one_line_try.
Qed.

Lemma length_numbered_line raw : length (appended (numbered_line raw)) <= 1.
Proof.
  unfold numbered_line.
  destruct (negb (truthy (strip raw)));
    [simpl; lia | apply numbered_seps_at_most_one].
Qed.

Lemma length_scan_pairs : forall n lines,
  length lines <= n -> 2 * length (scan_pairs lines) <= length lines.
Proof.
  induction n as [|n IH]; intros [|l1 [|l2 rest]] Hn; simpl in *; try lia.
  destruct (pair_matches l1 l2).
  - rewrite length_app. unfold pair_cards.
    pose proof (length_emit (_clean_piece (sub_empty _Q_PREFIX l1))
                  (_clean_piece (sub_empty _A_PREFIX l2))).
    specialize (IH rest ltac:(lia)). lia.
  - specialize (IH (l2 :: rest) ltac:(simpl; lia)). simpl in IH. lia.
Qed.

Lemma length_filter_le {A} (f : A -> bool) l : length (filter f l) <= length l.
Proof. induction l as [|x l IH]; simpl; [lia|]. destruct (f x); simpl; lia. Qed.

(** A line gives at most one card in the tab-separated, single-line and
    numbered extractors, and a card of the two-line extractor takes two
    lines: none of them returns more cards than the text has lines, and
    the two-line extractor at most half as many. *)
Theorem line_extractors_card_count : forall text,
  (exists cards, _parse_tsv_lines text = Ok cards
                 /\ length cards <= length (splitlines text))
  /\ (exists cards, _parse_q_a_one_line text = Ok cards
                    /\ length cards <= length (splitlines text))
  /\ (exists cards, _parse_q_a_two_lines text = Ok cards
                    /\ 2 * length cards <= length (splitlines text))
  /\ (exists cards, _parse_numbered_pairs text = Ok cards
                    /\ length cards <= length (splitlines text)).
Proof.
  intros text. repeat split; eexists; split;
    try apply _parse_tsv_lines_ok; try apply _parse_q_a_one_line_ok;
    try apply _parse_q_a_two_lines_ok; try apply _parse_numbered_pairs_ok.
  - apply length_flat_map_le, length_tsv_line.
  - apply length_flat_map_le, length_one_line_line.
  - pose proof (length_scan_pairs _ (nonblank_lines text) (le_n _)) as H1.
    assert (H2 : length (nonblank_lines text) <= length (splitlines text)).
    { unfold nonblank_lines. etransitivity; [apply length_filter_le|].
      now rewrite length_map. }
    unfold str, char in *. lia.
  - apply length_flat_map_le, length_numbered_line.
Qed.

(** ** Blank text *)

Lemma In_splitlines s : forall l c, In l (splitlines s) -> In c l -> In c s.
Proof.
  assert (H : forall n s, length s <= n ->
                forall l c, In l (splitlines s) -> In c l -> In c s).
  { induction n as [|n IH]; intros [|d s'] Hn l c Hl Hc; simpl in *;
      try tauto; try lia.
    assert (Hcons : In l (cons_head d (splitlines s')) -> d = c \/ In c s').
    { intros H. destruct (SplitterClaims.In_cons_head _ _ _ _ H Hc)
        as [-> | (q & Hq & Hcq)]; [now left | right].
      eapply (IH s'); eauto. lia. }
    destruct (d =? CR)%N.
    - destruct s' as [|d' s''].
      + destruct Hl as [<- | []]. destruct Hc.
      + destruct (d' =? LF)%N.
        * destruct Hl as [<- | Hl]; [destruct Hc|].
          right. right. eapply (IH s''); eauto. simpl in Hn. lia.
        * destruct Hl as [<- | Hl]; [destruct Hc|].
          right. eapply (IH (d' :: s'')); eauto. lia.
    - destruct (is_linebreak d).
      + destruct Hl as [<- | Hl]; [destruct Hc|].
        right. eapply (IH s'); eauto. lia.
      + now apply Hcons. }
  intros l c. now apply (H (length s)).
Qed.

Lemma strip_blank s : Forall (fun c => is_space c = true) s -> strip s = [].
Proof.
  intros H. destruct (strip s) as [|c t] eqn:E; [reflexivity|].
  assert (Hink : SplitterClaims.has_ink s)
    by (apply SplitterClaims.strip_ink; rewrite E; discriminate).
  destruct Hink as (d & Hd & Hs). rewrite Forall_forall in H.
  rewrite (H d Hd) in Hs. discriminate.
Qed.

Lemma blank_lines text :
  Forall (fun c => is_space c = true) text ->
  forall raw, In raw (splitlines text) -> strip raw = [].
Proof.
  intros H raw Hraw. apply strip_blank. apply Forall_forall. intros c Hc.
  rewrite Forall_forall in H. apply H. eapply In_splitlines; eauto.
Qed.

(** On a text of white space only (the empty text included) the four
    line extractors all return the empty list. *)
Theorem line_extractors_blank_text : forall text,
  Forall (fun c => is_space c = true) text ->
  _parse_tsv_lines text = Ok []
  /\ _parse_q_a_one_line text = Ok []
  /\ _parse_q_a_two_lines text = Ok []
  /\ _parse_numbered_pairs text = Ok [].
Proof.
  intros text H. pose proof (blank_lines text H) as Hb. repeat split.
  - rewrite _parse_tsv_lines_ok. f_equal. apply flat_map_nil.
    intros raw Hraw. unfold tsv_line. now rewrite (Hb raw Hraw).
  - rewrite _parse_q_a_one_line_ok. f_equal. apply flat_map_nil.
    intros raw Hraw. unfold one_line_line. now rewrite (Hb raw Hraw).
  - rewrite _parse_q_a_two_lines_ok. unfold nonblank_lines.
    assert (E : filter truthy (map strip (splitlines text)) = []).
    { induction (splitlines text) as [|raw ls IH]; [reflexivity|]. simpl.
      rewrite (Hb raw (or_introl eq_refl)). simpl. apply IH.
      intros r Hr. apply Hb. now right. }
    now rewrite E.
  - rewrite _parse_numbered_pairs_ok. f_equal. apply flat_map_nil.
    intros raw Hraw. unfold numbered_line. now rewrite (Hb raw Hraw).
Qed.

Lemma line_extractors_blank_text_witness :
  _parse_tsv_lines (lit "  " ++ [LF; TAB]) = Ok []
  /\ _parse_q_a_one_line (lit "  " ++ [LF; TAB]) = Ok []
  /\ _parse_q_a_two_lines (lit "  " ++ [LF; TAB]) = Ok []
  /\ _parse_numbered_pairs (lit "  " ++ [LF; TAB]) = Ok [].
Proof.
  apply (line_extractors_blank_text (lit "  " ++ [LF; TAB])).
  repeat constructor.
Defined.

(** ** The JSON extractor *)

Lemma dict_get_missing fields key default :
  ~ In key (map fst fields) -> dict_get fields key default = default.
Proof.
  induction fields as [|[k v] fields IH]; simpl; intros H; [reflexivity|].
  destruct (eqb_str k key) eqn:E.
  - apply eqb_str_true in E. subst. tauto.
  - apply IH. tauto.
Qed.

Lemma emit_nil_r q : emit q [] = [].
Proof. unfold emit. now destruct (truthy q). Qed.

Lemma find_char_absent c s : ~ In c s -> find_char c s = None.
Proof.
  induction s as [|d s IH]; simpl; intros H; [reflexivity|].
  destruct (d =? c)%N eqn:E; [apply N.eqb_eq in E; tauto|].
  rewrite IH by tauto. reflexivity.
Qed.

Lemma find_char_first c pre rest :
  ~ In c pre -> find_char c (pre ++ c :: rest) = Some (length pre).
Proof.
  induction pre as [|d pre IH]; simpl; intros H.
  - now rewrite N.eqb_refl.
  - destruct (d =? c)%N eqn:E; [apply N.eqb_eq in E; tauto|].
    rewrite IH by tauto. reflexivity.
Qed.

Lemma rfind_char_absent c s : ~ In c s -> rfind_char c s = None.
Proof.
  induction s as [|d s IH]; simpl; intros H; [reflexivity|].
  rewrite IH by tauto.
  destruct (d =? c)%N eqn:E; [apply N.eqb_eq in E; tauto | reflexivity].
Qed.

Lemma rfind_char_last c pre post :
  ~ In c post -> rfind_char c (pre ++ c :: post) = Some (length pre).
Proof.
  intros H. induction pre as [|d pre IH]; simpl.
  - rewrite (rfind_char_absent c post H). now rewrite N.eqb_refl.
  - now rewrite IH.
Qed.

Lemma slice_middle {A} (pre x post : list A) :
  slice (Z.of_nat (length pre)) (Z.of_nat (length pre + length x))
        (pre ++ x ++ post) = x.
Proof.
  unfold slice, clamp_index, len. rewrite !length_app.
  rewrite !(proj2 (Z.ltb_ge _ _)) by lia.
  rewrite !Z.min_l by lia. rewrite !Nat2Z.id.
  rewrite skipn_app, Nat.sub_diag, skipn_all. simpl.
  replace (length pre + length x - length pre) with (length x) by lia.
  rewrite firstn_app, Nat.sub_diag, firstn_all. simpl. apply app_nil_r.
Qed.

Section JsonList.

Variable json_loads : str -> loads_outcome.
Variable py_repr : json -> str.

(** A decoded document that is not a list gives no card.  In a list, an
    element that is not an object gives none, and neither does an object
    that lacks the key question or the key answer: the missing side
    defaults to the empty string, and a card needs both sides. *)
Theorem json_list_skips_unusable_items :
  (forall text v,
      json_loads text = Loaded v ->
      (forall items, v <> JArray items) ->
      _parse_json_list json_loads py_repr text = Ok [])
  /\ (forall text items,
        json_loads text = Loaded (JArray items) ->
        _parse_json_list json_loads py_repr text
        = Ok (flat_map (json_item py_repr) items))
  /\ (forall item,
        (forall fields, item <> JObject fields) -> json_item py_repr item = [])
  /\ (forall fields,
        ~ In (lit "question") (map fst fields)
        \/ ~ In (lit "answer") (map fst fields) ->
        json_item py_repr (JObject fields) = []).
Proof.
  repeat split.
  - intros text v Hv Hnot. unfold _parse_json_list, json_data. rewrite Hv. simpl.
    destruct v; try reflexivity. exfalso. now apply (Hnot items).
  - intros text items Hv. unfold _parse_json_list, json_data. now rewrite Hv.
  - intros item Hnot. destruct item; try reflexivity. exfalso. now apply (Hnot fields).
  - intros fields [H | H]; simpl; rewrite (dict_get_missing _ _ _ H); simpl.
    + reflexivity.
    + change (_clean_piece []) with (@nil char). apply emit_nil_r.
Qed.

(** When the whole text is no JSON document, the second attempt decodes
    the text from its first opening bracket to its last closing bracket,
    both included; a text in which one of the two brackets is missing
    gives no card. *)
Theorem json_list_bracket_fallback :
  (forall pre mid post,
      let text := pre ++ [91%N] ++ mid ++ [93%N] ++ post in
      ~ In 91%N pre -> ~ In 93%N post ->
      json_loads text = DecodeError ->
      json_data json_loads text
      = match json_loads ([91%N] ++ mid ++ [93%N]) with
        | Loaded data => Ok (Some data)
        | _ => Ok None
        end)
  /\ (forall text,
        ~ In 91%N text \/ ~ In 93%N text ->
        json_loads text = DecodeError ->
        _parse_json_list json_loads py_repr text = Ok []).
Proof.
  split.
  - intros pre mid post text Hpre Hpost Hd. unfold json_data. rewrite Hd.
    unfold text at 1. simpl app at 1. rewrite (find_char_first _ _ _ Hpre).
    assert (Er : rfind_char 93%N text = Some (length (pre ++ [91%N] ++ mid))).
    { unfold text.
      replace (pre ++ [91%N] ++ mid ++ [93%N] ++ post)
        with ((pre ++ [91%N] ++ mid) ++ 93%N :: post)
        by (now rewrite <- !app_assoc).
      apply rfind_char_last. exact Hpost. }
    rewrite Er.
    assert (Hlt : (length pre <? length (pre ++ [91%N] ++ mid)) = true).
    { apply Nat.ltb_lt. rewrite length_app. simpl. lia. }
    unfold str, char in *. rewrite Hlt.
    assert (Es : slice (Z.of_nat (length pre))
                   (Z.of_nat (length (pre ++ [91%N] ++ mid)) + 1) text
                 = [91%N] ++ mid ++ [93%N]).
    { replace (Z.of_nat (length (pre ++ [91%N] ++ mid)) + 1)%Z
        with (Z.of_nat (length pre + length ([91%N] ++ mid ++ [93%N]))).
      2:{ rewrite !length_app. simpl length. lia. }
      unfold text.
      replace (pre ++ [91%N] ++ mid ++ [93%N] ++ post)
        with (pre ++ ([91%N] ++ mid ++ [93%N]) ++ post).
      2:{ now rewrite <- !app_assoc. }
      apply slice_middle. }
    rewrite Es. reflexivity.
  - intros text H Hd. unfold _parse_json_list, json_data. rewrite Hd.
    destruct H as [H | H].
    + now rewrite (find_char_absent _ _ H).
    + rewrite (rfind_char_absent _ _ H). now destruct (find_char 91%N text).
Qed.

End JsonList.

(** A decoder that knows one document, the list holding the object with
    the keys question and answer set to q and a. *)
Definition one_card_loads (text : str) : loads_outcome :=
  if eqb_str text (lit "[x]")
  then Loaded (JArray [JObject [(lit "question", JString (lit "q"));
                                (lit "answer", JString (lit "a"))]])
  else DecodeError.

(** The list is found between the brackets of a longer answer. *)
Lemma json_list_bracket_fallback_witness :
  json_data one_card_loads (lit "cards: " ++ [91%N] ++ lit "x" ++ [93%N] ++ lit " done")
  = match one_card_loads ([91%N] ++ lit "x" ++ [93%N]) with
    | Loaded data => Ok (Some data)
    | _ => Ok None
    end.
Proof.
  apply (proj1 (json_list_bracket_fallback one_card_loads (fun _ => []))
           (lit "cards: ") (lit "x") (lit " done")).
  - vm_compute. intuition discriminate.
  - vm_compute. intuition discriminate.
  - reflexivity.
Defined.

End ParserFacts.

(* ================================================================== *)
(** * Corpus compression *)
(* ================================================================== *)

Module CorpusFacts.
Import PyStr PyStrFacts Exc Llm.

Lemma round_div_bounds a m d :
  (0 < m)%Z -> (0 <= a <= m * d)%Z -> (0 <= round_div a m <= d)%Z.
Proof.
  intros Hm Ha. unfold round_div.
  pose proof (Z.div_mod a m ltac:(lia)) as Hdiv.
  pose proof (Z.mod_pos_bound a m Hm) as Hr.
  assert (Hq : (0 <= a / m)%Z) by (apply Z.div_pos; lia).
  assert (Hqd : (a / m <= d)%Z) by nia.
  assert (Hstrict : (0 < a mod m -> a / m < d)%Z) by nia.
  destruct (2 * (a mod m) <? m)%Z eqn:E1; [lia|].
  apply Z.ltb_ge in E1.
  destruct (m <? 2 * (a mod m))%Z; [lia|].
  destruct (Z.even (a / m)); lia.
Qed.

Lemma round_div_exact m d : (0 < m)%Z -> round_div (m * d) m = d.
Proof.
  intros Hm. unfold round_div.
  replace (m * d)%Z with (d * m)%Z by lia.
  rewrite Z.div_mul, Z.mod_mul by lia.
  now rewrite (proj2 (Z.ltb_lt _ _)) by lia.
Qed.

Lemma length_slice_window {A} (l : list A) start n :
  (0 <= start)%Z -> (0 <= n)%Z -> (start + n <= len l)%Z ->
  slice start (start + n) l = firstn (Z.to_nat n) (skipn (Z.to_nat start) l)
  /\ length (slice start (start + n) l) = Z.to_nat n.
Proof.
  intros Hs Hn Hlen. unfold slice, clamp_index, len in *.
  rewrite !(proj2 (Z.ltb_ge _ _)) by lia. rewrite !Z.min_l by lia.
  replace (Z.to_nat (start + n) - Z.to_nat start) with (Z.to_nat n) by lia.
  split; [reflexivity|].
  rewrite length_firstn, length_skipn. lia.
Qed.

(** The lengths of the pieces, added up. *)
Definition total_length (parts : list str) : nat := list_sum (map (@length char) parts).

Lemma length_join sep parts :
  parts <> [] ->
  length (join sep parts) + length sep
  = total_length parts + length parts * length sep.
Proof.
  unfold total_length.
  induction parts as [|p parts IH]; intros Hne; [contradiction|].
  destruct parts as [|p2 parts].
  - simpl. lia.
  - change (join sep (p :: p2 :: parts)) with (p ++ sep ++ join sep (p2 :: parts)).
    rewrite !length_app. specialize (IH ltac:(discriminate)).
    simpl in *. lia.
Qed.

Lemma total_length_uniform n parts :
  Forall (fun p => length p = n) parts -> total_length parts = length parts * n.
Proof.
  unfold total_length. induction 1 as [|p parts Hp _ IH]; simpl; [reflexivity|].
  rewrite IH, Hp. reflexivity.
Qed.

Lemma join_starts sep p parts : exists rest, join sep (p :: parts) = p ++ rest.
Proof. destruct parts; simpl; [exists []; now rewrite app_nil_r | eauto]. Qed.

Lemma join_ends sep parts p : exists pre, join sep (parts ++ [p]) = pre ++ p.
Proof.
  induction parts as [|q parts IH]; [exists []; reflexivity|].
  destruct IH as (pre & IH). simpl app.
  destruct (parts ++ [p]) as [|x l] eqn:E; [destruct parts; discriminate|].
  change (join sep (q :: x :: l)) with (q ++ sep ++ join sep (x :: l)).
  rewrite IH. exists (q ++ sep ++ pre). now rewrite <- !app_assoc.
Qed.

(** The marker between two slices: a line holding three dots. *)
Definition SLICE_MARK : str := [LF] ++ lit "..." ++ [LF].

Lemma compress_corpus_windows text max_chars slices :
  (0 <= max_chars < len text)%Z -> (1 <= slices)%Z ->
  let width := (max_chars / slices)%Z in
  exists out,
    _compress_corpus text max_chars slices = Ok out
    /\ len out = (slices * width + 5 * (slices - 1))%Z
    /\ (len out <= max_chars + 5 * (slices - 1))%Z
    /\ (exists rest, out = firstn (Z.to_nat width) text ++ rest)
    /\ ((2 <= slices)%Z ->
        exists pre,
          out = pre ++ skipn (length text - Z.to_nat width) text).
Proof.
  - intros Hmax Hslices width.
    assert (Hw : (0 <= width <= max_chars)%Z).
    { unfold width. split; [apply Z.div_pos; lia|].
      apply Z.div_le_upper_bound; nia. }
    assert (Hwm : (slices * width <= max_chars)%Z)
      by (unfold width; apply Z.mul_div_le; lia).
    set (gap := (len text - width)%Z).
    set (m := Z.max 1 (slices - 1)).
    set (window := fun i : Z =>
                     let start := round_div (i * gap) m in
                     slice start (start + width) text).
    assert (Hwindow : forall i, (0 <= i <= slices - 1)%Z ->
               length (window i) = Z.to_nat width).
    { intros i Hi. unfold window.
      assert (Hb : (0 <= round_div (i * gap) m <= gap)%Z).
      { apply round_div_bounds; unfold m, gap; [lia | nia]. }
      apply length_slice_window; unfold gap in *; lia. }
    unfold _compress_corpus.
    rewrite (proj2 (Z.leb_gt _ _)) by lia.
    rewrite (proj2 (Z.eqb_neq _ _)) by lia.
    exists (join SLICE_MARK (map window (range slices))).
    split; [reflexivity|].
    set (k := Z.to_nat slices).
    assert (Hk : k = S (Nat.pred k)) by (unfold k; lia).
    assert (Hrange : range slices = map Z.of_nat (seq 0 k)) by reflexivity.
    assert (Hall : Forall (fun p => length p = Z.to_nat width)
                     (map window (range slices))).
    { rewrite Hrange. apply Forall_map, Forall_map. apply Forall_forall.
      intros i Hi. apply in_seq in Hi. apply Hwindow. unfold k in *. lia. }
    assert (Hlen : length (map window (range slices)) = k).
    { rewrite Hrange. now rewrite !length_map, length_seq. }
    assert (Hne : map window (range slices) <> []).
    { intros E. rewrite E in Hlen. simpl in Hlen. lia. }
    pose proof (length_join SLICE_MARK _ Hne) as Hjoin.
    rewrite (total_length_uniform _ _ Hall), Hlen in Hjoin.
    change (length SLICE_MARK) with 5 in Hjoin.
    assert (Hout : len (join SLICE_MARK (map window (range slices)))
                   = (slices * width + 5 * (slices - 1))%Z).
    { unfold len. apply (f_equal Z.of_nat) in Hjoin.
      rewrite !Nat2Z.inj_add, !Nat2Z.inj_mul in Hjoin.
      unfold k in Hjoin. rewrite !Z2Nat.id in Hjoin by lia.
      change (Z.of_nat 5) with 5%Z in Hjoin. unfold str, char in *. lia. }
    split; [exact Hout|]. split; [lia|]. split.
    + assert (Hhead : exists tl, map window (range slices) = window 0%Z :: tl).
      { rewrite Hrange, Hk. simpl. eauto. }
      destruct Hhead as (tl & Etl). rewrite Etl.
      destruct (join_starts SLICE_MARK (window 0%Z) tl) as (rest & E).
      exists rest. transitivity (window 0%Z ++ rest); [exact E|]. f_equal. unfold window. rewrite Z.mul_0_l.
      assert (E0 : round_div 0 m = 0%Z).
      { pose proof (round_div_bounds 0 m 0 ltac:(unfold m; lia) ltac:(lia)). lia. }
      rewrite E0.
      destruct (length_slice_window text 0 width ltac:(lia) ltac:(lia)
                  ltac:(unfold len in *; lia)) as [-> _].
      reflexivity.
    + intros H2.
      assert (Hlast : exists init, map window (range slices) = init ++ [window m]).
      { exists (map window (map Z.of_nat (seq 0 (Nat.pred k)))).
        assert (Hseq : seq 0 k = seq 0 (Nat.pred k) ++ [Nat.pred k]).
        { rewrite Hk at 1. apply (seq_S (Nat.pred k) 0). }
        rewrite Hrange, Hseq, !map_app. cbn [map].
        replace (Z.of_nat (Nat.pred k)) with m by (unfold m, k; lia).
        reflexivity. }
      destruct Hlast as (init & Einit). rewrite Einit.
      destruct (join_ends SLICE_MARK init (window m)) as (pre & E).
      exists pre. transitivity (pre ++ window m); [exact E|]. f_equal. unfold window.
      rewrite round_div_exact by (unfold m; lia).
      destruct (length_slice_window text gap width ltac:(unfold gap; lia)
                  ltac:(lia) ltac:(unfold gap; lia)) as [-> _].
      replace (Z.to_nat gap) with (length text - Z.to_nat width)
        by (unfold gap, len; lia).
      apply firstn_all2. rewrite length_skipn. unfold len in *. lia.
Qed.

(** A text of at most [max_chars] characters is returned as it is.  A
    longer one is cut down to [slices] windows of [max_chars // slices]
    characters joined by the five-character marker, so the result has
    exactly [slices * (max_chars // slices) + 5 * (slices - 1)]
    characters, which is at most [max_chars] plus the markers; it begins
    with the first window of the text and, with two slices or more, ends
    with the last one. *)
Theorem _compress_corpus_size : forall text max_chars slices,
  ((len text <= max_chars)%Z ->
   _compress_corpus text max_chars slices = Ok text)
  /\ ((0 <= max_chars < len text)%Z -> (1 <= slices)%Z ->
      let width := (max_chars / slices)%Z in
      exists out,
        _compress_corpus text max_chars slices = Ok out
        /\ len out = (slices * width + 5 * (slices - 1))%Z
        /\ (len out <= max_chars + 5 * (slices - 1))%Z
        /\ (exists rest, out = firstn (Z.to_nat width) text ++ rest)
        /\ ((2 <= slices)%Z ->
            exists pre,
              out = pre ++ skipn (length text - Z.to_nat width) text)).
Proof.
  intros text max_chars slices. split.
  - intros H. unfold _compress_corpus. now rewrite (proj2 (Z.leb_le _ _) H).
  - apply compress_corpus_windows.
Qed.

(** Twenty characters cut to four windows of two. *)
Lemma _compress_corpus_size_witness :
  exists out,
    _compress_corpus (lit "abcdefghijklmnopqrst") 8 4 = Ok out
    /\ len out = (4 * (8 / 4) + 5 * (4 - 1))%Z
    /\ (len out <= 8 + 5 * (4 - 1))%Z
    /\ (exists rest, out = firstn (Z.to_nat (8 / 4)) (lit "abcdefghijklmnopqrst") ++ rest)
    /\ ((2 <= 4)%Z ->
        exists pre,
          out = pre ++ skipn (length (lit "abcdefghijklmnopqrst") - Z.to_nat (8 / 4))
                         (lit "abcdefghijklmnopqrst")).
Proof.
  apply (proj2 (_compress_corpus_size (lit "abcdefghijklmnopqrst") 8 4));
    vm_compute; intuition discriminate.
Defined.

End CorpusFacts.

(* ================================================================== *)
(** * The units of the splitter *)
(* ================================================================== *)

Module SplitterFacts.
Import PyStr PyStrFacts CleanFacts Chunking SplitterClaims.

(** [u] is a run of consecutive characters of [s]. *)
Definition substring (u s : str) : Prop := exists pre post, s = pre ++ u ++ post.

Lemma substring_refl s : substring s s.
Proof. exists [], []. now rewrite app_nil_r. Qed.

Lemma substring_trans a b c : substring a b -> substring b c -> substring a c.
Proof.
  intros (p1 & q1 & ->) (p2 & q2 & ->).
  exists (p2 ++ p1), (q1 ++ q2). now rewrite <- !app_assoc.
Qed.

Lemma substring_prefix u post : substring u (u ++ post).
Proof. now exists [], post. Qed.

Lemma substring_after pre u s : substring u s -> substring u (pre ++ s).
Proof.
  intros (p & q & ->). exists (pre ++ p), q. now rewrite <- !app_assoc.
Qed.

Lemma drop_while_suffix p s : exists pre, s = pre ++ drop_while p s.
Proof.
  induction s as [|c s (pre & IH)]; [now exists []|]. simpl.
  destruct (p c); [|now exists []].
  exists (c :: pre). simpl. now rewrite <- IH.
Qed.

Lemma rstrip_prefix s : exists post, s = rstrip s ++ post.
Proof.
  induction s as [|c s (post & IH)]; [now exists []|]. simpl.
  destruct (rstrip s) as [|r0 r].
  - destruct (is_space c); [now exists (c :: s) | now exists s].
  - exists post. simpl in *. now rewrite <- IH.
Qed.

Lemma strip_substring s : substring (strip s) s.
Proof.
  unfold strip, lstrip.
  destruct (drop_while_suffix is_space s) as (pre & Hpre).
  destruct (rstrip_prefix (drop_while is_space s)) as (post & Hpost).
  exists pre, post. now rewrite <- Hpost.
Qed.

(** The parts of a scan that puts the next character in front of the head
    part: the head stays a prefix, the parts stay runs of the text. *)
Lemma cons_head_substrings c t (ls : list str) :
  (exists h rest post, ls = h :: rest /\ t = h ++ post) ->
  Forall (fun p => substring p t) ls ->
  (exists h rest post, cons_head c ls = h :: rest /\ c :: t = h ++ post)
  /\ Forall (fun p => substring p (c :: t)) (cons_head c ls).
Proof.
  intros (h & rest & post & -> & Ht) Hall. simpl. split.
  - exists (c :: h), rest, post. now rewrite Ht.
  - inversion Hall; subst. constructor.
    + exists [], post. simpl. now f_equal.
    + eapply Forall_impl; [|eassumption].
      intros p Hp. now apply (substring_after [c]).
Qed.

Lemma paragraph_parts_substrings s : forall b,
  (b = false ->
   exists h rest post, paragraph_parts_from b s = h :: rest /\ s = h ++ post)
  /\ Forall (fun p => substring p s) (paragraph_parts_from b s).
Proof.
  induction s as [|c s IH]; intros b.
  - simpl. split; [intros _; now exists [], [], []|].
    constructor; [apply substring_refl | constructor].
  - assert (Hcons : (exists h rest post,
                        cons_head c (paragraph_parts_from false s) = h :: rest
                        /\ c :: s = h ++ post)
                    /\ Forall (fun p => substring p (c :: s))
                         (cons_head c (paragraph_parts_from false s))).
    { destruct (IH false) as [Hh Hall]. apply cons_head_substrings; auto. }
    assert (Hskip : forall b', Forall (fun p => substring p (c :: s))
                                 (paragraph_parts_from b' s)).
    { intros b'. destruct (IH b') as [_ Hall].
      eapply Forall_impl; [|exact Hall].
      intros p Hp. now apply (substring_after [c]). }
    cbn [paragraph_parts_from].
    destruct (c =? LF)%N.
    + destruct b.
      * split; [discriminate | apply Hskip].
      * destruct s as [|c' s']; [split; [intros _|]; apply Hcons|].
        destruct (c' =? LF)%N; [|split; [intros _|]; apply Hcons].
        split.
        -- intros _. now exists [], (paragraph_parts_from true (c' :: s')), (c :: c' :: s').
        -- constructor; [now exists [], (c :: c' :: s') | apply Hskip].
    + split; [intros _|]; apply Hcons.
Qed.

Lemma sentence_parts_substrings s : forall m,
  (m <> InSeparator ->
   exists h rest post, sentence_parts_from m s = h :: rest /\ s = h ++ post)
  /\ Forall (fun p => substring p s) (sentence_parts_from m s).
Proof.
  induction s as [|c s IH]; intros m.
  - simpl. split; [intros _; now exists [], [], []|].
    constructor; [apply substring_refl | constructor].
  - assert (Hcons : forall m', m' <> InSeparator ->
               (exists h rest post,
                   cons_head c (sentence_parts_from m' s) = h :: rest
                   /\ c :: s = h ++ post)
               /\ Forall (fun p => substring p (c :: s))
                    (cons_head c (sentence_parts_from m' s))).
    { intros m' Hm'. destruct (IH m') as [Hh Hall].
      apply cons_head_substrings; auto. }
    assert (Hskip : forall m', Forall (fun p => substring p (c :: s))
                                 (sentence_parts_from m' s)).
    { intros m'. destruct (IH m') as [_ Hall].
      eapply Forall_impl; [|exact Hall].
      intros p Hp. now apply (substring_after [c]). }
    cbn [sentence_parts_from].
    destruct (is_space c).
    + destruct m.
      * split; [intros _|]; apply Hcons; discriminate.
      * split.
        -- intros _. now exists [], (sentence_parts_from InSeparator s), (c :: s).
        -- constructor; [now exists [], (c :: s) | apply Hskip].
      * split; [intros H; now contradiction H | apply Hskip].
    + split; [intros _|]; apply Hcons; destruct (is_stop c); discriminate.
Qed.

Lemma heading_parts_substrings lines : forall cur,
  Forall (fun p => substring p (cur ++ join [LF] lines))
         (heading_parts_from cur lines).
Proof.
  induction lines as [|l lines IH]; intros cur.
  - simpl. repeat constructor. apply substring_prefix.
  - destruct lines as [|l2 lines].
    + simpl. repeat constructor. apply substring_refl.
    + cbn [heading_parts_from].
      change (join [LF] (l :: l2 :: lines))
        with (l ++ [LF] ++ join [LF] (l2 :: lines)).
      destruct (is_heading l).
      * constructor; [apply substring_prefix|].
        eapply Forall_impl; [|exact (IH [])].
        intros p Hp. rewrite app_nil_l in Hp.
        apply substring_after. rewrite app_assoc. now apply substring_after.
      * specialize (IH (cur ++ l ++ [LF])).
        now rewrite <- !app_assoc in IH.
Qed.

Lemma stripped_nonblank_units parts text :
  Forall (fun p => substring p text) parts ->
  Forall (fun u => u <> [] /\ strip u = u /\ substring u text)
         (stripped_nonblank parts).
Proof.
  unfold stripped_nonblank. induction 1 as [|p parts Hp _ IH]; simpl; [constructor|].
  destruct (truthy (strip p)) eqn:E; [|exact IH].
  constructor; [|exact IH]. split; [now apply truthy_true|].
  split; [apply strip_idem|].
  eapply substring_trans; [apply strip_substring | exact Hp].
Qed.

(** Whichever of the three splits is taken, every unit that
    [_split_candidates] returns is non-empty, neither begins nor ends with
    white space, and is a run of consecutive characters of the text: the
    splitter rewrites nothing. *)
Theorem _split_candidates_units : forall text,
  Forall (fun u => u <> [] /\ strip u = u /\ substring u text)
         (_split_candidates text).
Proof.
  intros text. unfold _split_candidates.
  destruct (1 <? length (heading_parts text)).
  - apply stripped_nonblank_units. unfold heading_parts.
    pose proof (heading_parts_substrings (split_lf text) []) as H.
    simpl app in H. now rewrite join_split_lf in H.
  - destruct (1 <? length (stripped_nonblank (paragraph_parts text)));
      apply stripped_nonblank_units.
    + apply (paragraph_parts_substrings text false).
    + apply (sentence_parts_substrings text Plain).
Qed.

End SplitterFacts.

(* ================================================================== *)
(** * The chunks of the packer *)
(* ================================================================== *)

Module PackerFacts.
Import PyStr PyStrFacts Exc Chunking SplitterClaims PackerClaims.

Section Tokenizer.

Variable token : Type.
Variable encode : str -> result (list token).
Variable decode : list token -> str.

Local Abbreviation ntokens := (ntokens encode).
Local Abbreviation hard_split := (hard_split encode decode).
Local Abbreviation add_unit := (add_unit encode decode).
Local Abbreviation add_units := (add_units encode decode).
Local Abbreviation chunk_text := (chunk_text encode decode).

(** ** An overlap as large as the target *)

Lemma slice_from_zero {A} (l : list A) : slice_from 0 l = l.
Proof. unfold slice_from, clamp_index, len. simpl. now rewrite Z.min_l by lia. Qed.

Lemma hard_split_full_overlap target_tokens :
  (forall ts, encode (decode ts) = Ok ts) ->
  forall fuel st toks,
    over_budget (cur_tok st) target_tokens = true ->
    encode (join PARA (cur st)) = Ok toks ->
    over_budget (len toks) target_tokens = true ->
    hard_split fuel target_tokens target_tokens st = None.
Proof.
  intros Hround. induction fuel as [|fuel IH]; intros st toks Hcur Henc Hjoin; simpl;
    rewrite Hcur; [reflexivity|].
  rewrite Henc, Z.sub_diag, slice_from_zero.
  unfold Chunking.ntokens. rewrite Hround.
  apply (IH _ toks); cbn [cur cur_tok join]; auto.
Qed.

(** With [overlap_tokens] equal to [target_tokens], and a tokenizer that
    encodes a decoded token sequence back to itself, the hard split keeps
    the whole accumulator as its remainder: when the first unit of a text
    has more than [target_tokens * 1.3] tokens the inner loop never ends,
    and [chunk_text] neither returns nor raises, however many rounds it
    is given. *)
Theorem chunk_text_full_overlap_never_returns :
  forall (text : str) (target_tokens : Z) (unit : str) (others : list str) (n : Z),
    (forall ts, encode (decode ts) = Ok ts) ->
    (0 <= target_tokens)%Z ->
    _split_candidates text = unit :: others ->
    ntokens unit = Ok n ->
    (13 * target_tokens < 10 * n)%Z ->
    forall fuel, chunk_text fuel text target_tokens target_tokens = None.
Proof.
  intros text target_tokens unit others n Hround Htarget Hunits Hn Hover fuel.
  unfold Chunking.chunk_text. rewrite Hunits. cbn [Chunking.add_units].
  assert (E : Chunking.add_unit encode decode fuel target_tokens target_tokens
                (mk_state [] [] 0) unit = None).
  { unfold Chunking.add_unit. rewrite Hn. cbn [cur cur_tok chunks truthy rev].
    rewrite (proj2 (Z.leb_gt _ _)) by lia.
    apply ntokens_encode in Hn. destruct Hn as (toks & Henc & ->).
    apply (hard_split_full_overlap target_tokens Hround fuel _ toks);
      cbn [cur cur_tok join]; [| exact Henc |];
      unfold over_budget; apply Z.ltb_lt; lia. }
  rewrite E. reflexivity.
Qed.

(** ** Chunks as groups of units *)

Variable target_tokens overlap_tokens : Z.

(** The overlap taken from a chunk: its last [overlap_tokens] tokens,
    decoded (nothing when the tokenizer refuses the chunk, and no chunk
    is made after it). *)
Definition overlap_of (chunk : str) : str :=
  match encode chunk with
  | Ok toks => decode (slice_from (Z.max 0 (len toks - overlap_tokens)) toks)
  | Raise _ => []
  end.

(** The chunks made from groups of units when no hard split comes in:
    every group is joined by blank lines, after the overlap of the chunk
    before it. *)
Fixpoint assemble (prev : option str) (groups : list (list str)) : list str :=
  match groups with
  | [] => []
  | g :: gs =>
      let c := join PARA (match prev with
                          | Some p => overlap_of p :: g
                          | None => g
                          end) in
      c :: assemble (Some c) gs
  end.

(** What the next accumulator starts with. *)
Definition carry (prev : option str) (chunks : list str) : list str :=
  match rev chunks with
  | last_chunk :: _ => [overlap_of last_chunk]
  | [] => match prev with Some p => [overlap_of p] | None => [] end
  end.

Lemma carry_snoc prev chunks c : carry prev (chunks ++ [c]) = [overlap_of c].
Proof. unfold carry. now rewrite rev_app_distr. Qed.

Lemma carry_cons prev c chunks : carry prev (c :: chunks) = carry (Some c) chunks.
Proof.
  unfold carry. simpl rev.
  destruct (rev chunks) as [|x l] eqn:E; [reflexivity|]. reflexivity.
Qed.

Lemma assemble_snoc groups : forall prev g,
  assemble prev (groups ++ [g])
  = assemble prev groups
    ++ [join PARA (carry prev (assemble prev groups) ++ g)].
Proof.
  induction groups as [|g0 groups IH]; intros prev g.
  - simpl. unfold carry. simpl. now destruct prev.
  - cbn [app assemble]. rewrite IH. cbn [app]. f_equal. f_equal. f_equal. f_equal.
    now rewrite carry_cons.
Qed.

(** The accumulator and the chunks after the units [done]. *)
Definition grouped (done : list str) (st : state) : Prop :=
  exists groups g,
    concat groups ++ g = done
    /\ Forall (fun g : list str => g <> []) groups
    /\ chunks st = assemble None groups
    /\ cur st = carry None (chunks st) ++ g
    /\ (groups <> [] -> g <> []).

Lemma grouped_flush done st :
  grouped done st ->
  exists groups,
    flush st = assemble None groups
    /\ concat groups = done
    /\ Forall (fun g : list str => g <> []) groups.
Proof.
  intros (groups & g & Hdone & Hne & Hch & Hcur & Hg). unfold flush.
  destruct (truthy (cur st)) eqn:Et.
  - assert (Hgne : g <> []).
    { intros ->. destruct groups as [|g0 groups]; [|now apply Hg].
      rewrite Hch in Hcur. simpl in Hcur. rewrite Hcur in Et. discriminate. }
    exists (groups ++ [g]). split; [|split].
    + rewrite assemble_snoc, <- Hch, <- Hcur. reflexivity.
    + rewrite concat_app. simpl. now rewrite app_nil_r.
    + apply Forall_app. split; [assumption | now constructor].
  - assert (Hnil : cur st = []) by (destruct (cur st); [reflexivity | discriminate]).
    rewrite Hnil in Hcur. symmetry in Hcur. apply app_eq_nil in Hcur.
    destruct Hcur as [_ ->]. rewrite app_nil_r in Hdone.
    exists groups. auto.
Qed.

Hypothesis overlap_nonneg : (0 <= overlap_tokens)%Z.
(** Encoding a decoded token sequence gives no more tokens than it had. *)
Hypothesis reencode_no_longer :
  forall ts toks, encode (decode ts) = Ok toks -> length toks <= length ts.

Lemma overlap_slice_tokens (toks : list token) n :
  ntokens (decode (slice_from (Z.max 0 (len toks - overlap_tokens)) toks)) = Ok n ->
  (n <= overlap_tokens)%Z.
Proof.
  intros Hn. apply ntokens_encode in Hn. destruct Hn as (t & Ht & ->).
  pose proof (reencode_no_longer _ _ Ht) as H.
  assert (Hs : (len (slice_from (Z.max 0 (len toks - overlap_tokens)) toks)
                <= overlap_tokens)%Z).
  { unfold slice_from, clamp_index, len.
    rewrite (proj2 (Z.ltb_ge _ _)) by lia. rewrite length_skipn. lia. }
  unfold len in *. lia.
Qed.

Lemma hard_split_within fuel st :
  (10 * cur_tok st <= 13 * target_tokens)%Z ->
  hard_split fuel target_tokens overlap_tokens st = Some (Ok st).
Proof.
  intros H.
  assert (E : over_budget (cur_tok st) target_tokens = false)
    by (unfold over_budget; apply Z.ltb_ge; lia).
  destruct fuel; simpl; now rewrite E.
Qed.

(** A run that goes on without a hard split: it raises, or it gives a
    state that is grouped. *)
Definition goes_on (done : list str) (r : option (result state)) : Prop :=
  match r with
  | Some (Ok st') => grouped done st'
  | Some (Raise _) => True
  | None => False
  end.

Lemma add_unit_grouped fuel done st unit :
  grouped done st ->
  (forall n, ntokens unit = Ok n ->
             (10 * (overlap_tokens + n) <= 13 * target_tokens)%Z) ->
  goes_on (done ++ [unit]) (add_unit fuel target_tokens overlap_tokens st unit).
Proof.
  intros (groups & g & Hdone & Hne & Hch & Hcur & Hg) Hunit.
  unfold Chunking.add_unit.
  destruct (ntokens unit) as [utoks|e] eqn:Eu; [|exact I].
  specialize (Hunit utoks eq_refl).
  pose proof (ntokens_nonneg token encode unit utoks Eu) as Hu.
  destruct (cur_tok st + utoks <=? target_tokens)%Z.
  - exists groups, (g ++ [unit]). cbn [chunks cur].
    split; [now rewrite app_assoc, Hdone|]. split; [assumption|].
    split; [assumption|]. split; [now rewrite Hcur, app_assoc|].
    intros _ H. apply app_eq_nil in H. destruct H; discriminate.
  - destruct (truthy (cur st)) eqn:Et.
    + assert (Hgne : g <> []).
      { intros ->. destruct groups as [|g0 groups]; [|now apply Hg].
        rewrite Hch in Hcur. simpl in Hcur. rewrite Hcur in Et. discriminate. }
      rewrite rev_app_distr. cbn [rev app].
      destruct (encode (join PARA (cur st))) as [last_tokens|e] eqn:El; [|exact I].
      match goal with
      | |- context [Chunking.ntokens encode ?x] =>
          destruct (Chunking.ntokens encode x) as [otoks|e] eqn:Eo; [|exact I]
      end.
      pose proof (overlap_slice_tokens last_tokens otoks Eo) as Ho.
      rewrite hard_split_within by (cbn [cur_tok]; lia).
      exists (groups ++ [g]), [unit]. cbn [chunks cur].
      split; [rewrite concat_app; simpl; rewrite app_nil_r; now rewrite Hdone|].
      split; [apply Forall_app; split; [assumption | now constructor]|].
      split; [rewrite assemble_snoc, <- Hch, <- Hcur; reflexivity|].
      split; [rewrite carry_snoc; unfold overlap_of; rewrite El; reflexivity|].
      intros _. discriminate.
    + assert (Hnil : cur st = []) by (destruct (cur st); [reflexivity | discriminate]).
      rewrite Hnil in Hcur. symmetry in Hcur. apply app_eq_nil in Hcur.
      destruct Hcur as [Hcarry ->].
      assert (Hgroups : groups = []).
      { destruct groups; [reflexivity|]. exfalso. now apply Hg. }
      subst groups. simpl in Hch. rewrite Hch. cbn [rev].
      rewrite hard_split_within by (cbn [cur_tok]; lia).
      exists [], [unit]. cbn [chunks cur concat app assemble].
      split; [simpl in Hdone; now rewrite <- Hdone|].
      split; [constructor|]. split; [reflexivity|]. split; [reflexivity|].
      intros H. now contradiction H.
Qed.

Lemma add_units_grouped fuel units : forall done st,
  grouped done st ->
  Forall (fun u => forall n, ntokens u = Ok n ->
                             (10 * (overlap_tokens + n) <= 13 * target_tokens)%Z)
         units ->
  goes_on (done ++ units) (add_units fuel target_tokens overlap_tokens st units).
Proof.
  induction units as [|u units IH]; intros done st Hg Hall.
  - simpl. now rewrite app_nil_r.
  - inversion Hall as [|? ? Hu Hrest]; subst.
    pose proof (add_unit_grouped fuel done st u Hg Hu) as H1.
    cbn [Chunking.add_units].
    destruct (Chunking.add_unit encode decode fuel target_tokens overlap_tokens st u)
      as [[st1|e]|]; [|exact I | destruct H1].
    specialize (IH (done ++ [u]) st1 H1 Hrest).
    now rewrite <- app_assoc in IH.
Qed.

(** When no unit, taken with a full overlap, passes [target_tokens * 1.3]
    tokens, no hard split comes in and [chunk_text] ends whatever the
    fuel: it raises what the tokenizer raised on a text it refuses, or it
    returns.  The chunks it returns are the units of the text cut into
    consecutive non-empty groups, in order and with none lost or
    repeated; the first chunk is its group joined by blank lines, and
    every later chunk is the overlap decoded from the last
    [overlap_tokens] tokens of the chunk before it, then its group,
    joined the same way.  With a tokenizer that refuses no text it
    returns. *)
Theorem chunk_text_groups_units :
  forall (fuel : nat) (text : str),
    Forall (fun u => forall n, ntokens u = Ok n ->
                               (10 * (overlap_tokens + n) <= 13 * target_tokens)%Z)
           (_split_candidates text) ->
    match chunk_text fuel text target_tokens overlap_tokens with
    | Some (Ok chunks) =>
        exists groups,
          chunks = assemble None groups
          /\ concat groups = _split_candidates text
          /\ Forall (fun g : list str => g <> []) groups
    | Some (Raise e) => exists s, encode s = Raise e
    | None => False
    end
    /\ ((forall s, exists toks, encode s = Ok toks) ->
        exists groups,
          chunk_text fuel text target_tokens overlap_tokens
          = Some (Ok (assemble None groups))
          /\ concat groups = _split_candidates text
          /\ Forall (fun g : list str => g <> []) groups).
Proof.
  intros fuel text Hall.
  assert (H0 : grouped [] (mk_state [] [] 0)).
  { exists [], []. repeat split; try constructor. intros H. now contradiction H. }
  pose proof (add_units_grouped fuel _ [] _ H0 Hall) as Hrun.
  cbn [app] in Hrun.
  assert (Hmain :
    match chunk_text fuel text target_tokens overlap_tokens with
    | Some (Ok chunks) =>
        exists groups,
          chunks = assemble None groups
          /\ concat groups = _split_candidates text
          /\ Forall (fun g : list str => g <> []) groups
    | Some (Raise e) => exists s, encode s = Raise e
    | None => False
    end).
  { unfold Chunking.chunk_text.
    destruct (Chunking.add_units encode decode fuel target_tokens overlap_tokens
                (mk_state [] [] 0) (_split_candidates text)) as [[st'|e]|] eqn:E.
    - apply grouped_flush. exact Hrun.
    - eapply add_units_raises; eauto.
    - exact Hrun. }
  split; [exact Hmain|].
  intros Htotal.
  destruct (chunk_text fuel text target_tokens overlap_tokens) as [[chunks|e]|].
  - destruct Hmain as (groups & -> & H). exists groups. auto.
  - destruct Hmain as (s & Hs). destruct (Htotal s) as (toks & Ht). congruence.
  - destruct Hmain.
Qed.

End Tokenizer.

(** One token per character, a target of four tokens and an overlap of
    four: a unit of ten characters is never cut down. *)
Lemma chunk_text_full_overlap_witness :
  _split_candidates (lit "abcdefghij") = [lit "abcdefghij"]
  /\ ntokens char_encode (lit "abcdefghij") = Ok 10%Z
  /\ (13 * 4 < 10 * 10)%Z
  /\ chunk_text char_encode char_decode 1000 (lit "abcdefghij") 4 4 = None.
Proof.
  split; [reflexivity|]. split; [reflexivity|]. split; [reflexivity|].
  apply (chunk_text_full_overlap_never_returns char char_encode char_decode
           (lit "abcdefghij") 4 (lit "abcdefghij") [] 10).
  - reflexivity.
  - lia.
  - reflexivity.
  - reflexivity.
  - reflexivity.
Defined.

(** One token per character, target 12 and overlap 2, three paragraphs of
    six, five and four characters. *)
Lemma chunk_text_groups_units_witness :
  let text := lit "alpha." ++ PARA ++ lit "beta." ++ PARA ++ lit "end." in
  match chunk_text char_encode char_decode 0 text 12 2 with
  | Some (Ok chunks) =>
      exists groups,
        chunks = assemble char char_encode char_decode 2 None groups
        /\ concat groups = _split_candidates text
        /\ Forall (fun g : list str => g <> []) groups
  | Some (Raise e) => exists s, char_encode s = Raise e
  | None => False
  end
  /\ ((forall s, exists toks, char_encode s = Ok toks) ->
      exists groups,
        chunk_text char_encode char_decode 0 text 12 2
        = Some (Ok (assemble char char_encode char_decode 2 None groups))
        /\ concat groups = _split_candidates text
        /\ Forall (fun g : list str => g <> []) groups).
Proof.
  cbv zeta.
  apply (chunk_text_groups_units char char_encode char_decode 12 2).
  - lia.
  - intros ts toks H. unfold char_encode, char_decode in H.
    inversion H; subst. apply le_n.
  - repeat constructor; intros n Hn; inversion Hn; vm_compute; discriminate.
Defined.

End PackerFacts.

(* ================================================================== *)
(** * What the orchestrator sends and returns *)
(* ================================================================== *)

Module OrchestratorFacts.
Import PyStr PyStrFacts PyRe Exc Llm ExtractorFacts ParserClaims ParserFacts CorpusFacts.

Section Generate.

Variable json_loads : str -> loads_outcome.
Variable py_repr : json -> str.
Variable temperature : Type.

Lemma In_slice_to {A} (n : Z) (l : list A) x : In x (slice_to n l) -> In x l.
Proof.
  unfold slice_to. intros H.
  rewrite <- (firstn_skipn (clamp_index (len l) n) l).
  apply in_or_app. now left.
Qed.

Lemma slice_to_well_formed n cards :
  Forall well_formed cards -> Forall well_formed (slice_to n cards).
Proof.
  rewrite !Forall_forall. intros H c Hc. apply H. eapply In_slice_to; eauto.
Qed.

(** The excerpt of the notes that goes into the prompt. *)
Lemma corpus_of_notes full_text :
  exists corpus,
    _compress_corpus full_text 12000 8 = Ok corpus
    /\ ((len full_text <= 12000)%Z -> corpus = full_text)
    /\ ((12000 < len full_text)%Z -> len corpus = 12035%Z).
Proof.
  destruct (Z.le_gt_cases (len full_text) 12000) as [Hle | Hgt].
  - exists full_text. unfold _compress_corpus.
    rewrite (proj2 (Z.leb_le _ _) Hle).
    split; [reflexivity|]. split; [reflexivity | lia].
  - destruct (compress_corpus_windows full_text 12000 8 ltac:(lia) ltac:(lia))
      as (out & E & Hlen & _).
    exists out. split; [exact E|]. split; [lia|]. intros _.
    rewrite Hlen. reflexivity.
Qed.

(** Whatever the notes, the number of cards asked for and the answers of
    the model: the first request carries the notes themselves when they
    hold at most 12000 characters and an excerpt of exactly 12035
    characters when they hold more, followed by the topics if any; every
    request sent has the fixed system prompt, the temperature given and a
    completion limit between 45 and 1200 tokens; and every card returned
    has a source chunk of 0 and a question and an answer that are cleaned
    texts and not empty. *)
Theorem generate_flashcards_turbo_outcome :
  forall (model : nat -> request temperature -> str)
         (full_text : str) (n_total : Z) (t : temperature) (topics : list str),
    let outcome :=
      run model 0
        (generate_flashcards_turbo json_loads py_repr full_text n_total t topics) in
    (exists corpus more,
        ((len full_text <= 12000)%Z -> corpus = full_text)
        /\ ((12000 < len full_text)%Z -> len corpus = 12035%Z)
        /\ snd outcome
           = mk_request SYSTEM_TURBO
               (USER_TURBO
                  (if truthy topics
                   then corpus ++ [LF] ++ lit "Focus on: " ++ join (lit ", ") topics
                   else corpus)
                  n_total)
               t (Z.min 1200 (45 * Z.max 1 n_total))
             :: more)
    /\ Forall (fun r => system_msg r = SYSTEM_TURBO
                        /\ temp r = t
                        /\ (45 <= max_tokens r <= 1200)%Z)
              (snd outcome)
    /\ (forall cards, fst outcome = Ok cards -> Forall well_formed cards).
Proof.
  intros model full_text n_total t topics.
  destruct (corpus_of_notes full_text) as (corpus & Ec & Hshort & Hlong).
  unfold generate_flashcards_turbo. rewrite Ec. cbv beta iota zeta.
  assert (Hlimit : (45 <= Z.min 1200 (45 * Z.max 1 n_total) <= 1200)%Z) by lia.
  set (limit := Z.min 1200 (45 * Z.max 1 n_total)) in *.
  set (user := USER_TURBO _ n_total).
  cbn [run].
  match goal with
  | |- context [_robust_parse_any json_loads py_repr ?x] =>
      destruct (_robust_parse_any json_loads py_repr x) as [cards|e] eqn:E1
  end.
  2:{ cbn [run fst snd]. split; [exists corpus, []; auto|].
      split; [repeat constructor; assumption || apply Hlimit | discriminate]. }
  apply first_nonempty_well_formed in E1.
  destruct (Z.max 1 (n_total / 2) <=? len cards)%Z.
  - cbn [run fst snd]. split; [exists corpus, []; auto|].
    split; [repeat constructor; assumption || apply Hlimit|].
    intros c Hc. inversion Hc; subst. now apply slice_to_well_formed.
  - cbn [run].
    match goal with
    | |- context [_robust_parse_any json_loads py_repr ?x] =>
        destruct (_robust_parse_any json_loads py_repr x) as [cards2|e2] eqn:E2
    end; cbn [run fst snd].
    + split; [eexists corpus, [_]; auto|].
      split; [repeat constructor; assumption || apply Hlimit|].
      intros c Hc. inversion Hc; subst. apply slice_to_well_formed.
      now apply first_nonempty_well_formed in E2.
    + split; [eexists corpus, [_]; auto|].
      split; [repeat constructor; assumption || apply Hlimit | discriminate].
Qed.

End Generate.

End OrchestratorFacts.

(* ================================================================== *)
(** * The cleaned text of a file *)
(* ================================================================== *)

Module ParsingFacts.
Import PyStr PyStrFacts CleanFacts Chunking SplitterClaims Parsing.

(** ** The characters that are left *)

Lemma In_replace_crlf c s : In c (replace_crlf s) -> In c s.
Proof.
  assert (H : forall n s, length s <= n -> In c (replace_crlf s) -> In c s).
  { induction n as [|n IH]; intros [|a t] Hn; simpl in *; try tauto; try lia.
    destruct (a =? CR)%N.
    - destruct t as [|a' t'].
      + tauto.
      + destruct (a' =? LF)%N eqn:E.
        * apply N.eqb_eq in E. subst a'. intros [<- | Hin]; [simpl; tauto|].
          right. right. apply IH; [simpl in Hn; lia | exact Hin].
        * intros [<- | Hin]; [now left|]. right. apply IH; [lia | exact Hin].
    - intros [<- | Hin]; [now left|]. right. apply IH; [lia | exact Hin]. }
  now apply (H (length s)).
Qed.

Lemma In_replace_char a b c s :
  In c (replace_char a b s) -> c = b \/ (In c s /\ c <> a).
Proof.
  unfold replace_char. rewrite in_map_iff. intros (d & <- & Hd).
  destruct (d =? a)%N eqn:E; [now left|].
  right. split; [assumption|]. now apply N.eqb_neq.
Qed.

Lemma In_collapse_blanks c s : forall b,
  In c (collapse_blanks_from b s) -> c = SPACE \/ (In c s /\ is_blank c = false).
Proof.
  induction s as [|d s IH]; intros b; simpl; [tauto|].
  destruct (is_blank d) eqn:E.
  - destruct b; simpl; intros H.
    + destruct (IH _ H) as [-> | [Hin Hb]]; auto.
    + destruct H as [<- | H]; [now left|].
      destruct (IH _ H) as [-> | [Hin Hb]]; auto.
  - intros [<- | H]; [right; auto|].
    destruct (IH _ H) as [-> | [Hin Hb]]; auto.
Qed.

Lemma In_squeeze_newlines c s : forall n,
  In c (squeeze_newlines_from n s) -> In c s.
Proof.
  induction s as [|d s IH]; intros n; simpl; [tauto|].
  destruct (d =? LF)%N eqn:E.
  - destruct (n <? 2); simpl.
    + apply N.eqb_eq in E. subst d. intros [<- | H]; [now left | right; eauto].
    + intros H. right. eauto.
  - intros [<- | H]; [now left | right; eauto].
Qed.

Lemma In_split_lf s : forall l c,
  In l (split_lf s) -> In c l -> In c s /\ c <> LF.
Proof.
  induction s as [|d s IH]; intros l c; simpl.
  - intros [<- | []] [].
  - destruct (d =? LF)%N eqn:E.
    + intros [<- | Hl] Hc; [destruct Hc|].
      destruct (IH _ _ Hl Hc). auto.
    + intros Hl Hc. apply N.eqb_neq in E.
      destruct (In_cons_head _ _ _ _ Hl Hc) as [-> | (q & Hq & Hcq)]; [auto|].
      destruct (IH _ _ Hq Hcq). auto.
Qed.

Lemma In_join c sep parts :
  In c (join sep parts) -> In c sep \/ exists p, In p parts /\ In c p.
Proof.
  induction parts as [|p parts IH]; [intros []|].
  destruct parts as [|p2 parts].
  - simpl. intros H. right. exists p. auto.
  - change (join sep (p :: p2 :: parts)) with (p ++ sep ++ join sep (p2 :: parts)).
    rewrite !in_app_iff. intros [H | [H | H]].
    + right. exists p. simpl. auto.
    + now left.
    + destruct (IH H) as [Hs | (q & Hq & Hcq)]; [now left|].
      right. exists q. split; [now right | assumption].
Qed.

(** The lines that are kept are lines of the stripped text. *)
Lemma kept_lines_incl (repeated : list str) (lines : list str) l :
  In l (if truthy repeated
        then filter (fun ln => negb (is_repeated repeated ln)) lines
        else lines) ->
  In l lines.
Proof. destruct (truthy repeated); [|auto]. intros H. now apply filter_In in H. Qed.

(** The cleaned text neither begins nor ends with white space; it holds
    no carriage return, no tab and no no-break space; and each of its
    characters is a line feed, a space or a character of the text. *)
Theorem clean_text_characters : forall text,
  strip (clean_text text) = clean_text text
  /\ forall c, In c (clean_text text) ->
       c <> CR /\ c <> TAB /\ c <> NBSP
       /\ (c = LF \/ c = SPACE \/ In c text).
Proof.
  intros text. split; [apply strip_idem|].
  assert (Hlf : LF <> CR /\ LF <> TAB /\ LF <> NBSP) by (repeat split; discriminate).
  assert (Hsp : SPACE <> CR /\ SPACE <> TAB /\ SPACE <> NBSP)
    by (repeat split; discriminate).
  intros c Hc. unfold clean_text in Hc. apply In_strip in Hc.
  apply In_join in Hc.
  destruct Hc as [[<- | []] | (l & Hl & Hc)]; [tauto|].
  apply kept_lines_incl in Hl. apply in_map_iff in Hl.
  destruct Hl as (x & <- & Hx). apply In_strip in Hc.
  destruct (In_split_lf _ _ _ Hx Hc) as [Hs _].
  apply In_squeeze_newlines in Hs.
  apply In_collapse_blanks in Hs.
  destruct Hs as [-> | [Hs Hblank]]; [tauto|].
  assert (Htab : c <> TAB) by (intros ->; discriminate).
  apply In_replace_char in Hs.
  destruct Hs as [-> | [Hs Hnbsp]]; [tauto|].
  apply In_replace_char in Hs.
  destruct Hs as [-> | [Hs Hcr]]; [tauto|].
  apply In_replace_crlf in Hs. tauto.
Qed.

(** ** Repeated short lines *)

Definition str_eq_dec : forall a b : str, {a = b} + {a <> b} := list_eq_dec N.eq_dec.

(** How many times [k] is among [lines]. *)
Definition occurrences (lines : list str) (k : str) : nat :=
  count_occ str_eq_dec lines k.

Lemma occurrences_filter p lines k :
  occurrences (filter p lines) k = if p k then occurrences lines k else 0.
Proof.
  unfold occurrences. induction lines as [|l lines IH]; simpl.
  - now destruct (p k).
  - destruct (p l) eqn:El; simpl; destruct (str_eq_dec l k) as [->|Hne];
      rewrite IH; try rewrite El; try reflexivity.
Qed.

Definition keys (freq : freq_table) : list str := map fst freq.

Lemma In_keys k v freq : In (k, v) freq -> In k (keys freq).
Proof. intros H. unfold keys. apply in_map_iff. now exists (k, v). Qed.

Lemma freq_get_absent freq k d : ~ In k (keys freq) -> freq_get freq k d = d.
Proof.
  induction freq as [|[k' v'] freq IH]; simpl; [reflexivity|]. intros H.
  destruct (eqb_str k' k) eqn:E; [apply eqb_str_true in E; tauto|].
  apply IH. tauto.
Qed.

Lemma freq_get_present freq k v d :
  NoDup (keys freq) -> In (k, v) freq -> freq_get freq k d = v.
Proof.
  induction freq as [|[k' v'] freq IH]; simpl; [tauto|].
  intros Hnd [H | H]; inversion Hnd as [|? ? Hnot Hrest]; subst.
  - inversion H; subst. now rewrite (proj2 (eqb_str_true k k) eq_refl).
  - destruct (eqb_str k' k) eqn:E; [|now apply IH].
    apply eqb_str_true in E. subst k'. exfalso. apply Hnot.
    eapply In_keys; eauto.
Qed.

Lemma freq_set_keys freq k v k' :
  In k' (keys (freq_set freq k v)) <-> k' = k \/ In k' (keys freq).
Proof.
  induction freq as [|[k0 v0] freq IH]; simpl.
  - intuition congruence.
  - destruct (eqb_str k0 k) eqn:E; simpl.
    + apply eqb_str_true in E. subst k0. intuition congruence.
    + rewrite IH. intuition congruence.
Qed.

Lemma freq_set_nodup freq k v :
  NoDup (keys freq) -> NoDup (keys (freq_set freq k v)).
Proof.
  induction freq as [|[k0 v0] freq IH]; simpl; intros Hnd.
  - repeat constructor. intros [].
  - inversion Hnd as [|? ? Hnot Hrest]; subst.
    destruct (eqb_str k0 k) eqn:E; simpl.
    + constructor; assumption.
    + constructor; [|now apply IH].
      rewrite freq_set_keys. intros [-> | H]; [|contradiction].
      now rewrite (proj2 (eqb_str_true k k) eq_refl) in E.
Qed.

Lemma freq_set_In freq k v :
  NoDup (keys freq) ->
  forall k' v',
    In (k', v') (freq_set freq k v)
    <-> (k' = k /\ v' = v) \/ (k' <> k /\ In (k', v') freq).
Proof.
  induction freq as [|[k0 v0] freq IH]; simpl; intros Hnd k' v'.
  - split.
    + intros [H | []]. inversion H. now left.
    + intros [[-> ->] | [_ []]]. now left.
  - inversion Hnd as [|? ? Hnot Hrest]; subst.
    destruct (eqb_str k0 k) eqn:E; simpl.
    + apply eqb_str_true in E. subst k0. split.
      * intros [H | H]; [inversion H; now left|].
        right. split; [|now right]. intros ->. apply Hnot. eapply In_keys; eauto.
      * intros [[-> ->] | [Hne [H | H]]]; [now left | | now right].
        inversion H; subst. congruence.
    + assert (Hne0 : k0 <> k).
      { intros ->. now rewrite (proj2 (eqb_str_true k k) eq_refl) in E. }
      rewrite (IH Hrest). split.
      * intros [H | [H | [Hne H]]]; [|now left | right; auto].
        inversion H; subst. right. auto.
      * intros [H | [Hne [H | H]]]; auto.
Qed.

(** The table holds the count [n k] of every key counted at least
    once, and nothing else. *)
Definition tallies (freq : freq_table) (n : str -> nat) : Prop :=
  NoDup (keys freq)
  /\ forall k v, In (k, v) freq <-> (v = n k /\ 0 < v).

Lemma tallies_get freq n k : tallies freq n -> freq_get freq k 0 = n k.
Proof.
  intros [Hnd H]. destruct (n k) as [|m] eqn:E.
  - apply freq_get_absent. unfold keys. rewrite in_map_iff.
    intros ([k' v] & Hk & Hin). simpl in Hk. subst k'.
    apply H in Hin. lia.
  - apply freq_get_present; [assumption|]. apply H. lia.
Qed.

Lemma tallies_bump freq n k0 :
  tallies freq n ->
  tallies (freq_set freq k0 (freq_get freq k0 0 + 1))
          (fun k => if str_eq_dec k k0 then S (n k) else n k).
Proof.
  intros Ht. pose proof (tallies_get freq n k0 Ht) as Hget.
  destruct Ht as [Hnd H]. split; [now apply freq_set_nodup|].
  intros k v. rewrite (freq_set_In freq k0 _ Hnd). rewrite Hget.
  destruct (str_eq_dec k k0) as [-> | Hne].
  - split; [intros [[_ ->] | [Hc _]]; [lia | congruence]|].
    intros [-> _]. left. split; [reflexivity | lia].
  - rewrite H. split; [intros [[Hc _] | [_ Hv]]; [congruence | assumption] | auto].
Qed.

Lemma count_lines_from lines : forall freq n,
  tallies freq n ->
  tallies (fold_left (fun freq ln =>
                        if is_short ln
                        then freq_set freq ln (freq_get freq ln 0 + 1)
                        else freq)
                     lines freq)
          (fun k => n k + occurrences (filter is_short lines) k).
Proof.
  induction lines as [|ln lines IH]; intros freq n Ht.
  - simpl. destruct Ht as [Hnd H]. split; [assumption|].
    intros k v. rewrite H. rewrite Nat.add_0_r. reflexivity.
  - cbn [fold_left filter]. destruct (is_short ln) eqn:Es.
    + specialize (IH _ _ (tallies_bump freq n ln Ht)).
      destruct IH as [Hnd H]. split; [assumption|].
      intros k v. rewrite H. unfold occurrences. cbn [count_occ].
      destruct (str_eq_dec k ln) as [-> | Hne].
      * destruct (str_eq_dec ln ln); [|congruence].
        replace (n ln + S (count_occ str_eq_dec (filter is_short lines) ln))
          with (S (n ln) + count_occ str_eq_dec (filter is_short lines) ln) by lia.
        reflexivity.
      * destruct (str_eq_dec ln k); [congruence | reflexivity].
    + now apply IH.
Qed.

Lemma count_lines_tallies lines :
  tallies (count_lines lines)
          (fun k => if is_short k then occurrences lines k else 0).
Proof.
  assert (H0 : tallies [] (fun _ => 0)).
  { split; [constructor|]. intros k v. simpl. lia. }
  destruct (count_lines_from lines [] _ H0) as [Hnd H].
  split; [exact Hnd|]. intros k v. unfold count_lines. rewrite H.
  rewrite occurrences_filter. simpl. reflexivity.
Qed.

(** The set [repeated]: the short lines that occur three times or more. *)
Lemma In_repeated_lines lines k :
  In k (repeated_lines (count_lines lines))
  <-> is_short k = true /\ 3 <= occurrences lines k.
Proof.
  destruct (count_lines_tallies lines) as [_ H].
  unfold repeated_lines. rewrite in_map_iff. split.
  - intros ([k' v] & Hk & Hin). simpl in Hk. subst k'.
    apply filter_In in Hin. destruct Hin as [Hin Hv]. cbn [snd] in Hv.
    apply Nat.leb_le in Hv. apply H in Hin. destruct Hin as [-> _].
    destruct (is_short k); [auto | lia].
  - intros [Hs Hocc]. exists (k, occurrences lines k). split; [reflexivity|].
    apply filter_In. split.
    + apply H. rewrite Hs. lia.
    + cbn [snd]. now apply Nat.leb_le.
Qed.

Lemma is_repeated_true repeated k : is_repeated repeated k = true <-> In k repeated.
Proof.
  unfold is_repeated. rewrite existsb_exists. split.
  - intros (x & Hx & E). apply eqb_str_true in E. now subst.
  - intros H. exists k. split; [assumption | now apply eqb_str_true].
Qed.

(** A short line is kept at most twice. *)
Lemma kept_lines_occurrences lines k :
  is_short k = true ->
  let repeated := repeated_lines (count_lines lines) in
  occurrences (if truthy repeated
               then filter (fun ln => negb (is_repeated repeated ln)) lines
               else lines) k < 3.
Proof.
  intros Hs repeated.
  assert (Hrep : In k repeated \/ occurrences lines k < 3).
  { destruct (le_lt_dec 3 (occurrences lines k)) as [H | H]; [left | now right].
    apply In_repeated_lines. auto. }
  destruct (truthy repeated) eqn:Et.
  - rewrite occurrences_filter.
    destruct (is_repeated repeated k) eqn:Er; simpl; [lia|].
    destruct Hrep as [Hin | Hlt]; [|exact Hlt].
    apply is_repeated_true in Hin. congruence.
  - apply truthy_false in Et. destruct Hrep as [Hin | Hlt]; [|exact Hlt].
    rewrite Et in Hin. destruct Hin.
Qed.

(** ** The lines of the stripped join *)

(** The lines without the empty ones at the head. *)
Fixpoint ltrim (lines : list str) : list str :=
  match lines with
  | [] => []
  | l :: rest => if truthy l then lines else ltrim rest
  end.

(** The lines without the empty ones at the end. *)
Fixpoint rtrim (lines : list str) : list str :=
  match lines with
  | [] => []
  | l :: rest =>
      match rtrim rest with
      | [] => if truthy l then [l] else []
      | r => l :: r
      end
  end.

Lemma occurrences_ltrim lines k : occurrences (ltrim lines) k <= occurrences lines k.
Proof.
  unfold occurrences. induction lines as [|l lines IH]; simpl; [lia|].
  destruct (truthy l); simpl; [lia|]. destruct (str_eq_dec l k); lia.
Qed.

Lemma occurrences_rtrim lines k : occurrences (rtrim lines) k <= occurrences lines k.
Proof.
  unfold occurrences. induction lines as [|l lines IH]; simpl; [lia|].
  destruct (rtrim lines) as [|r0 r].
  - destruct (truthy l); simpl; destruct (str_eq_dec l k); lia.
  - cbn [count_occ] in *. destruct (str_eq_dec l k); lia.
Qed.

Lemma ltrim_incl lines l : In l (ltrim lines) -> In l lines.
Proof.
  induction lines as [|l0 lines IH]; simpl; [tauto|].
  destruct (truthy l0); simpl; tauto.
Qed.

Lemma rtrim_incl lines l : In l (rtrim lines) -> In l lines.
Proof.
  induction lines as [|l0 lines IH]; simpl; [tauto|].
  destruct (rtrim lines) as [|r0 r].
  - destruct (truthy l0); simpl; tauto.
  - simpl in *. tauto.
Qed.

Lemma lstrip_join lines :
  Forall (fun l => lstrip l = l) lines ->
  lstrip (join [LF] lines) = join [LF] (ltrim lines).
Proof.
  induction 1 as [|l lines Hl _ IH]; [reflexivity|].
  destruct l as [|c l].
  - cbn [ltrim truthy]. rewrite <- IH.
    destruct lines as [|l2 lines]; reflexivity.
  - cbn [ltrim truthy].
    assert (Hc : is_space c = false).
    { unfold lstrip in Hl. simpl in Hl. destruct (is_space c) eqn:E; [|reflexivity].
      pose proof (length_drop_while is_space l) as Hlen.
      rewrite Hl in Hlen. simpl in Hlen. lia. }
    destruct lines as [|l2 lines]; unfold lstrip; simpl; now rewrite Hc.
Qed.

Lemma rstrip_app s w :
  rstrip (s ++ w) = match rstrip w with [] => rstrip s | r0 :: r => s ++ r0 :: r end.
Proof.
  induction s as [|c s IH]; simpl.
  - destruct (rstrip w); reflexivity.
  - rewrite IH. destruct (rstrip w) as [|r0 r]; [reflexivity|].
    destruct (s ++ r0 :: r) eqn:E; [destruct s; discriminate | reflexivity].
Qed.

Lemma join_rtrim_nonempty lines :
  rtrim lines <> [] -> join [LF] (rtrim lines) <> [].
Proof.
  induction lines as [|l lines IH]; simpl; [tauto|].
  destruct (rtrim lines) as [|r0 r].
  - destruct l; simpl; [tauto | discriminate].
  - intros _. change (join [LF] (l :: r0 :: r)) with (l ++ [LF] ++ join [LF] (r0 :: r)).
    destruct l; discriminate.
Qed.

Lemma rstrip_join lines :
  Forall (fun l => rstrip l = l) lines ->
  rstrip (join [LF] lines) = join [LF] (rtrim lines).
Proof.
  induction 1 as [|l lines Hl _ IH]; [reflexivity|].
  destruct lines as [|l2 lines].
  - simpl. rewrite Hl. destruct l; reflexivity.
  - change (join [LF] (l :: l2 :: lines)) with (l ++ LF :: join [LF] (l2 :: lines)).
    rewrite rstrip_app. cbn [rstrip rtrim]. cbn [rstrip rtrim] in IH. rewrite IH.
    pose proof (join_rtrim_nonempty (l2 :: lines)) as Hne. cbn [rtrim] in Hne.
    destruct (match rtrim lines with
              | [] => if truthy l2 then [l2] else []
              | r0 :: r => l2 :: r0 :: r
              end) as [|r0 r] eqn:E.
    + simpl. rewrite Hl. destruct l; reflexivity.
    + destruct (join [LF] (r0 :: r)) as [|j0 j] eqn:Ej;
        [exfalso; now apply Hne|].
      change (join [LF] (l :: r0 :: r)) with (l ++ LF :: join [LF] (r0 :: r)).
      now rewrite Ej.
Qed.

Lemma split_lf_line l s :
  ~ In LF l -> split_lf (l ++ LF :: s) = l :: split_lf s.
Proof.
  induction l as [|c l IH]; intros H; simpl.
  - reflexivity.
  - destruct (c =? LF)%N eqn:E; [apply N.eqb_eq in E; simpl in H; tauto|].
    rewrite IH by (simpl in H; tauto). reflexivity.
Qed.

Lemma split_lf_plain l : ~ In LF l -> split_lf l = [l].
Proof.
  induction l as [|c l IH]; intros H; simpl; [reflexivity|].
  destruct (c =? LF)%N eqn:E; [apply N.eqb_eq in E; simpl in H; tauto|].
  rewrite IH by (simpl in H; tauto). reflexivity.
Qed.

Lemma split_lf_join lines :
  lines <> [] -> Forall (fun l => ~ In LF l) lines ->
  split_lf (join [LF] lines) = lines.
Proof.
  intros Hne H. induction H as [|l lines Hl _ IH]; [contradiction|].
  destruct lines as [|l2 lines].
  - simpl. now apply split_lf_plain.
  - change (join [LF] (l :: l2 :: lines)) with (l ++ LF :: join [LF] (l2 :: lines)).
    rewrite split_lf_line by assumption. f_equal. apply IH. discriminate.
Qed.

(** The lines of the stripped join of stripped lines are these lines
    without the empty ones at both ends. *)
Lemma lines_of_stripped_join lines k :
  Forall (fun l => strip l = l /\ ~ In LF l) lines ->
  k <> [] ->
  occurrences (split_lf (strip (join [LF] lines))) k <= occurrences lines k.
Proof.
  intros H Hk. unfold strip.
  rewrite lstrip_join
    by (eapply Forall_impl; [|exact H]; intros l [Hl _]; now apply lstrip_fixed).
  assert (Hl : Forall (fun l => strip l = l /\ ~ In LF l) (ltrim lines)).
  { rewrite Forall_forall in *. intros l Hin. apply H. now apply ltrim_incl. }
  rewrite rstrip_join
    by (eapply Forall_impl; [|exact Hl]; intros l [Hs _]; now apply rstrip_fixed).
  destruct (rtrim (ltrim lines)) as [|r0 r] eqn:E.
  - cbn [join split_lf]. unfold occurrences. cbn [count_occ].
    destruct (str_eq_dec [] k); [congruence | apply Nat.le_0_l].
  - rewrite split_lf_join.
    + rewrite <- E. etransitivity; [apply occurrences_rtrim | apply occurrences_ltrim].
    + discriminate.
    + rewrite <- E. rewrite Forall_forall in *. intros l Hin.
      apply Hl. now apply rtrim_incl.
Qed.

Lemma split_lf_no_lf s l : In l (split_lf s) -> ~ In LF l.
Proof. intros Hl Hc. destruct (In_split_lf s l LF Hl Hc) as [_ H]. now apply H. Qed.

(** A line of at most 60 characters that is not empty occurs at most
    twice among the lines of the cleaned text: when it occurs three times
    or more among the stripped lines, all its occurrences are removed. *)
Theorem clean_text_repeated_lines : forall text line,
  0 < length line <= 60 ->
  occurrences (split_lf (clean_text text)) line < 3.
Proof.
  intros text line Hlen. unfold clean_text.
  set (s := squeeze_newlines _).
  set (lines := map strip (split_lf s)).
  assert (Hs : is_short line = true).
  { unfold is_short. apply andb_true_iff.
    split; [apply Nat.ltb_lt | apply Nat.leb_le]; lia. }
  pose proof (kept_lines_occurrences lines line Hs) as Hkept. cbv zeta in Hkept.
  set (kept := if truthy (repeated_lines (count_lines lines)) then _ else lines) in *.
  assert (Hall : Forall (fun l => strip l = l /\ ~ In LF l) kept).
  { apply Forall_forall. intros l Hl. apply kept_lines_incl in Hl.
    apply in_map_iff in Hl. destruct Hl as (x & <- & Hx).
    split; [apply strip_idem|]. intros Hc. apply In_strip in Hc.
    now apply (split_lf_no_lf s x Hx). }
  assert (Hne : line <> []) by (intros ->; simpl in Hlen; lia).
  pose proof (lines_of_stripped_join kept line Hall Hne). lia.
Qed.

(** A header of three characters on three pages. *)
Lemma clean_text_repeated_lines_witness :
  0 < length (lit "hdr") <= 60
  /\ occurrences
       (split_lf (clean_text (lit "hdr" ++ [LF] ++ lit "one" ++ [LF] ++ lit "hdr"
                              ++ [LF] ++ lit "two" ++ [LF] ++ lit "hdr")))
       (lit "hdr") < 3.
Proof.
  split; [simpl; lia|].
  apply (clean_text_repeated_lines _ (lit "hdr")). simpl. lia.
Defined.

End ParsingFacts.

(* ================================================================== *)
(** * The study mode *)
(* ================================================================== *)

Module StudyFacts.
Import PyStr PyStrFacts Exc Llm App.

(** ** The status table *)

Lemma status_get_set d k v k' default :
  status_get (status_set d k v) k' default
  = if (k =? k')%Z then v else status_get d k' default.
Proof.
  induction d as [|[k0 v0] d IH]; simpl; [reflexivity|].
  destruct (k0 =? k)%Z eqn:E; simpl.
  - apply Z.eqb_eq in E. subst k0. destruct (k =? k')%Z; reflexivity.
  - rewrite IH. destruct (k0 =? k')%Z eqn:E'; [|reflexivity].
    apply Z.eqb_eq in E'. subst k0. now rewrite Z.eqb_sym, E.
Qed.

Lemma status_get_absent d k default :
  status_mem d k = false -> status_get d k default = default.
Proof.
  induction d as [|[k0 v0] d IH]; simpl; [reflexivity|].
  intros H. apply orb_false_iff in H. destruct H as [-> H]. now apply IH.
Qed.

Lemma status_eqb_true a b : status_eqb a b = true <-> a = b.
Proof. destruct a, b; simpl; split; congruence. Qed.

(** The status of the card [c], as the handlers read it. *)
Definition status_of (st : session) (c : Z) : status :=
  status_get (study_status st) c New.

(** How many cards of a deck of [n] cards have the status [s]. *)
Definition marked (n : Z) (st : session) (s : status) : Z :=
  len (filter (fun c => status_eqb (status_of st c) s) (range n)).

(** ** Counting under the change of one entry *)

Definition b2n (b : bool) : nat := if b then 1 else 0.

Lemma count_update (p q : Z -> bool) k ids :
  NoDup ids -> In k ids ->
  (forall i, i <> k -> q i = p i) ->
  length (filter q ids) + b2n (p k) = length (filter p ids) + b2n (q k).
Proof.
  intros Hnd Hin Hext. induction Hnd as [|a ids Ha Hnd IH]; [destruct Hin|].
  simpl. destruct (Z.eq_dec a k) as [-> | Hne].
  - assert (E : filter q ids = filter p ids).
    { apply filter_ext_in. intros i Hi. apply Hext. intros ->. contradiction. }
    rewrite E. destruct (p k), (q k); simpl; lia.
  - destruct Hin as [-> | Hin]; [congruence|].
    specialize (IH Hin). rewrite (Hext a Hne).
    destruct (p a); simpl; lia.
Qed.

Lemma In_range n x : In x (range n) <-> (0 <= x < n)%Z.
Proof.
  unfold range. rewrite in_map_iff. split.
  - intros (i & <- & Hi). apply in_seq in Hi. lia.
  - intros H. exists (Z.to_nat x). split; [lia|]. apply in_seq. lia.
Qed.

Lemma NoDup_range n : NoDup (range n).
Proof.
  unfold range. apply Finite.Injective_map_NoDup; [|apply seq_NoDup].
  intros a b. apply Nat2Z.inj.
Qed.

Lemma length_range n : (0 <= n)%Z -> len (range n) = n.
Proof. intros H. unfold range, len. rewrite length_map, length_seq. lia. Qed.

(** ** The invariant of the study state *)

Definition study_inv (cards : list card) (st : session) : Prop :=
  Permutation (study_order st) (range (len cards))
  /\ (0 <= study_idx st <= len (study_order st))%Z
  /\ study_correct st = marked (len cards) st Correct
  /\ study_review st = marked (len cards) st Review
  /\ Forall (fun c => status_of st c = Correct)
            (firstn (Z.to_nat (study_idx st)) (study_order st)).

(** What the invariant looks at. *)
Definition same_study (st st' : session) : Prop :=
  study_order st' = study_order st
  /\ study_idx st' = study_idx st
  /\ study_correct st' = study_correct st
  /\ study_review st' = study_review st
  /\ forall c, status_of st' c = status_of st c.

Lemma marked_ext n st st' s :
  (forall c, status_of st' c = status_of st c) -> marked n st' s = marked n st s.
Proof.
  intros H. unfold marked. f_equal. apply filter_ext. intros c. now rewrite H.
Qed.

Lemma study_inv_same cards st st' :
  same_study st st' -> study_inv cards st -> study_inv cards st'.
Proof.
  intros (Ho & Hi & Hc & Hr & Hs) (I1 & I2 & I3 & I4 & I5).
  unfold study_inv. rewrite Ho, Hi, Hc, Hr, !(marked_ext _ _ _ _ Hs).
  repeat split; try assumption; try lia.
  eapply Forall_impl; [|exact I5]. intros c Hcard. cbv beta in *. now rewrite Hs.
Qed.

Definition valid_shuffle (shuffled : list Z -> list Z) : Prop :=
  forall l, Permutation (shuffled l) l.

Lemma status_of_reset shuffled n shuffle c :
  status_of (reset_study shuffled n shuffle) c = New.
Proof.
  unfold status_of, reset_study. cbn [study_status].
  induction (range n) as [|i l IH]; simpl; [reflexivity|].
  destruct (i =? c)%Z; [reflexivity | exact IH].
Qed.

Lemma filter_none {A} (p : A -> bool) l :
  (forall x, In x l -> p x = false) -> filter p l = [].
Proof.
  induction l as [|a l IH]; intros H; simpl; [reflexivity|].
  rewrite (H a (or_introl eq_refl)). apply IH. intros x Hx. apply H. now right.
Qed.

Lemma filter_all {A} (p : A -> bool) l :
  (forall x, In x l -> p x = true) -> filter p l = l.
Proof.
  induction l as [|a l IH]; intros H; simpl; [reflexivity|].
  rewrite (H a (or_introl eq_refl)). f_equal. apply IH. intros x Hx. apply H. now right.
Qed.

Lemma marked_reset shuffled n shuffle s :
  s <> New -> marked n (reset_study shuffled n shuffle) s = 0%Z.
Proof.
  intros Hs. unfold marked. rewrite filter_none; [reflexivity|].
  intros c _. rewrite status_of_reset. destruct s; simpl; congruence.
Qed.

Lemma reset_study_inv shuffled cards shuffle :
  valid_shuffle shuffled ->
  study_inv cards (reset_study shuffled (len cards) shuffle).
Proof.
  intros Hsh. unfold study_inv.
  rewrite !marked_reset by discriminate.
  unfold reset_study. cbn [study_order study_idx study_correct study_review].
  split; [destruct shuffle; [apply Hsh | apply Permutation_refl]|].
  split; [unfold len; lia|]. repeat split. simpl. constructor.
Qed.

(** ** Indexing within bounds *)

Lemma py_index_ok {A} (l : list A) i :
  (0 <= i < len l)%Z ->
  exists x, py_index l i = Ok x /\ nth_error l (Z.to_nat i) = Some x.
Proof.
  intros H. unfold py_index, position, index.
  assert (E1 : ((i <? - len l) || (len l <=? i))%Z = false).
  { apply orb_false_iff. split; [apply Z.ltb_ge | apply Z.leb_gt]; lia. }
  rewrite E1. rewrite (proj2 (Z.ltb_ge _ _)) by lia.
  destruct (nth_error l (Z.to_nat i)) eqn:E; [eauto|].
  apply nth_error_None in E. unfold len in H. lia.
Qed.

Lemma split_at {A} (l : list A) : forall i x,
  nth_error l i = Some x ->
  l = firstn i l ++ x :: skipn (S i) l /\ length (firstn i l) = i.
Proof.
  induction l as [|a l IH]; intros [|i] x H; simpl in H; try discriminate.
  - inversion H; subst. simpl. auto.
  - destruct (IH i x H) as [E Hlen].
    change (skipn (S (S i)) (a :: l)) with (skipn (S i) l).
    cbn [firstn app length]. split; [f_equal; exact E | f_equal; exact Hlen].
Qed.

Lemma py_pop_ok {A} (l : list A) i x :
  (0 <= i < len l)%Z -> nth_error l (Z.to_nat i) = Some x ->
  py_pop l i = Ok (x, firstn (Z.to_nat i) l ++ skipn (S (Z.to_nat i)) l).
Proof.
  intros H Hx. unfold py_pop.
  destruct (py_index_ok l i H) as (y & -> & Hy).
  assert (y = x) by congruence. subst y.
  unfold bind, position. now rewrite (proj2 (Z.ltb_ge _ _)) by lia.
Qed.

Lemma firstn_succ {A} (l : list A) i x :
  nth_error l i = Some x -> firstn (S i) l = firstn i l ++ [x].
Proof.
  revert i. induction l as [|a l IH]; intros [|i] H; simpl in H; try discriminate.
  - inversion H; subst. reflexivity.
  - simpl. f_equal. now apply IH.
Qed.

(** ** The steps of a run *)

Lemma status_of_set st k v c :
  status_get (status_set (study_status st) k v) c New
  = if (k =? c)%Z then v else status_of st c.
Proof. apply status_get_set. Qed.

(** The part of a run that only shows the card. *)
Lemma show_card_same st card_idx :
  let st1 := if card_changed st card_idx
             then with_last_card (with_show_answer st false) (Some card_idx)
             else st in
  let st2 := if negb (status_mem (study_status st1) card_idx)
             then with_status st1 (status_set (study_status st1) card_idx New)
             else st1 in
  same_study st st2.
Proof.
  cbv zeta.
  set (st1 := if card_changed st card_idx then _ else st).
  assert (H1 : study_order st1 = study_order st /\ study_idx st1 = study_idx st
               /\ study_correct st1 = study_correct st
               /\ study_review st1 = study_review st
               /\ study_status st1 = study_status st).
  { unfold st1. destruct (card_changed st card_idx); simpl; auto. }
  destruct H1 as (Ho & Hi & Hc & Hr & Hs).
  destruct (status_mem (study_status st1) card_idx) eqn:Em; simpl.
  - unfold same_study, status_of. rewrite Ho, Hi, Hc, Hr, Hs. auto.
  - unfold same_study, status_of. simpl. rewrite Ho, Hi, Hc, Hr.
    repeat split. intros c. rewrite status_get_set.
    destruct (card_idx =? c)%Z eqn:E; [|now rewrite Hs].
    apply Z.eqb_eq in E. subst c. rewrite <- Hs.
    now rewrite (status_get_absent _ _ New Em).
Qed.

Lemma marked_set (cards : list card) st st' k v s :
  In k (range (len cards)) ->
  (forall c, status_of st' c = if (k =? c)%Z then v else status_of st c) ->
  (marked (len cards) st' s + Z.of_nat (b2n (status_eqb (status_of st k) s))
   = marked (len cards) st s + Z.of_nat (b2n (status_eqb v s)))%Z.
Proof.
  intros Hk Hs. unfold marked, len.
  pose proof (count_update (fun c => status_eqb (status_of st c) s)
                (fun c => status_eqb (status_of st' c) s) k (range (Z.of_nat (length cards)))
                (NoDup_range _) Hk) as H.
  cbv beta in H. rewrite Hs, Z.eqb_refl in H.
  rewrite <- !Nat2Z.inj_add. f_equal. apply H.
  intros i Hi. rewrite Hs. destruct (k =? i)%Z eqn:E; [|reflexivity].
  apply Z.eqb_eq in E. congruence.
Qed.

Lemma mark_correct_inv cards st card_idx :
  study_inv cards st ->
  nth_error (study_order st) (Z.to_nat (study_idx st)) = Some card_idx ->
  study_inv cards (mark_correct st (study_order st) (study_idx st) card_idx).
Proof.
  intros (I1 & I2 & I3 & I4 & I5) Hnth.
  assert (Hlt : (study_idx st < len (study_order st))%Z).
  { assert (Hs : nth_error (study_order st) (Z.to_nat (study_idx st)) <> None)
      by congruence.
    apply nth_error_Some in Hs. unfold len. lia. }
  assert (Hin : In card_idx (range (len cards))).
  { eapply Permutation_in; [exact I1|]. eapply nth_error_In; eauto. }
  assert (Hnext : Z.to_nat (study_idx st + 1) = S (Z.to_nat (study_idx st))) by lia.
  unfold mark_correct.
  rewrite Z.min_r by lia.
  fold (status_of st card_idx).
  destruct (status_of st card_idx) eqn:Eprev; cbn [status_eqb negb].
  - (* new *)
    set (st' := with_status _ _).
    assert (Hs : forall c, status_of st' c
                           = if (card_idx =? c)%Z then Correct else status_of st c).
    { intros c. unfold st', status_of. simpl. apply status_get_set. }
    pose proof (marked_set cards st st' card_idx Correct Correct Hin Hs) as Hc.
    pose proof (marked_set cards st st' card_idx Correct Review Hin Hs) as Hr.
    rewrite Eprev in Hc, Hr. simpl in Hc, Hr.
    unfold study_inv. cbn [study_order study_idx study_correct study_review with_idx].
    change (study_order st') with (study_order st).
    change (study_correct st') with (study_correct st + 1)%Z.
    change (study_review st') with (study_review st).
    rewrite (marked_ext _ st' _ Correct), (marked_ext _ st' _ Review), Hnext
      by reflexivity.
    split; [assumption|]. split; [lia|]. split; [lia|]. split; [lia|].
    rewrite (firstn_succ _ _ _ Hnth). apply Forall_app. split.
    + eapply Forall_impl; [|exact I5]. intros c Hcard. cbv beta in *.
      unfold status_of at 1. cbn [study_status with_idx]. fold (status_of st' c).
      rewrite Hs. destruct (card_idx =? c)%Z; auto.
    + repeat constructor. unfold status_of at 1. cbn [study_status with_idx].
      fold (status_of st' card_idx). rewrite Hs. now rewrite Z.eqb_refl.
  - (* review *)
    set (st' := with_status _ _).
    assert (Hs : forall c, status_of st' c
                           = if (card_idx =? c)%Z then Correct else status_of st c).
    { intros c. unfold st', status_of. simpl. apply status_get_set. }
    pose proof (marked_set cards st st' card_idx Correct Correct Hin Hs) as Hc.
    pose proof (marked_set cards st st' card_idx Correct Review Hin Hs) as Hr.
    rewrite Eprev in Hc, Hr. simpl in Hc, Hr.
    unfold study_inv. cbn [study_order study_idx study_correct study_review with_idx].
    change (study_order st') with (study_order st).
    change (study_correct st') with (study_correct st + 1)%Z.
    change (study_review st') with (Z.max 0 (study_review st - 1))%Z.
    rewrite (marked_ext _ st' _ Correct), (marked_ext _ st' _ Review), Hnext
      by reflexivity.
    assert (Hpos : (0 <= marked (len cards) st' Review)%Z) by (unfold marked, len; lia).
    split; [assumption|]. split; [lia|]. split; [lia|]. split; [lia|].
    rewrite (firstn_succ _ _ _ Hnth). apply Forall_app. split.
    + eapply Forall_impl; [|exact I5]. intros c Hcard. cbv beta in *.
      unfold status_of at 1. cbn [study_status with_idx]. fold (status_of st' c).
      rewrite Hs. destruct (card_idx =? c)%Z; auto.
    + repeat constructor. unfold status_of at 1. cbn [study_status with_idx].
      fold (status_of st' card_idx). rewrite Hs. now rewrite Z.eqb_refl.
  - (* correct already *)
    unfold study_inv. cbn [study_order study_idx study_correct study_review with_idx].
    rewrite (marked_ext _ st _ Correct), (marked_ext _ st _ Review), Hnext
      by reflexivity.
    split; [assumption|]. split; [lia|]. split; [lia|]. split; [lia|].
    rewrite (firstn_succ _ _ _ Hnth). apply Forall_app. split.
    + exact I5.
    + repeat constructor. exact Eprev.
Qed.

Lemma mark_review_inv cards st card_idx :
  study_inv cards st ->
  nth_error (study_order st) (Z.to_nat (study_idx st)) = Some card_idx ->
  exists st',
    mark_review st (study_order st) (study_idx st) card_idx = Ok st'
    /\ study_inv cards st'.
Proof.
  intros (I1 & I2 & I3 & I4 & I5) Hnth.
  assert (Hlt : (study_idx st < len (study_order st))%Z).
  { assert (Hs : nth_error (study_order st) (Z.to_nat (study_idx st)) <> None)
      by congruence.
    apply nth_error_Some in Hs. unfold len. lia. }
  assert (Hin : In card_idx (range (len cards))).
  { eapply Permutation_in; [exact I1|]. eapply nth_error_In; eauto. }
  destruct (split_at _ _ _ Hnth) as [Esplit Hlen].
  set (before := firstn (Z.to_nat (study_idx st)) (study_order st)) in *.
  set (after := skipn (S (Z.to_nat (study_idx st))) (study_order st)) in *.
  assert (Hnd : NoDup (before ++ card_idx :: after)).
  { rewrite <- Esplit. eapply Permutation_NoDup;
      [apply Permutation_sym; exact I1 | apply NoDup_range]. }
  assert (Hnot : ~ In card_idx before).
  { apply NoDup_remove_2 in Hnd. intros H. apply Hnd. apply in_or_app. now left. }
  unfold mark_review.
  rewrite (py_pop_ok _ _ _ (conj (proj1 I2) Hlt) Hnth). cbn [bind].
  fold before after. fold (status_of st card_idx).
  eexists. split; [reflexivity|].
  match goal with |- study_inv _ (with_order ?s _) => set (st' := s) end.
  assert (Hs : forall c, status_of st' c
                         = if (card_idx =? c)%Z then Review else status_of st c).
  { intros c. unfold st', status_of. cbn [study_status with_status].
    rewrite status_get_set.
    destruct (negb (status_eqb (status_get (study_status st) card_idx New) Review));
      [destruct (status_eqb (status_get (study_status st) card_idx New) Correct)|];
      reflexivity. }
  pose proof (marked_set cards st st' card_idx Review Correct Hin Hs) as Hc.
  pose proof (marked_set cards st st' card_idx Review Review Hin Hs) as Hr.
  assert (Hpos : (0 <= marked (len cards) st' Correct)%Z) by (unfold marked, len; lia).
  assert (Hcounts : study_correct st' = marked (len cards) st' Correct
                    /\ study_review st' = marked (len cards) st' Review).
  { assert (Ecor : study_correct st'
                   = if negb (status_eqb (status_of st card_idx) Review)
                     then if status_eqb (status_of st card_idx) Correct
                          then Z.max 0 (study_correct st - 1)
                          else study_correct st
                     else study_correct st).
    { unfold st'. destruct (status_of st card_idx); reflexivity. }
    assert (Erev : study_review st'
                   = if negb (status_eqb (status_of st card_idx) Review)
                     then (study_review st + 1)%Z
                     else study_review st).
    { unfold st'. destruct (status_of st card_idx); reflexivity. }
    rewrite Ecor, Erev.
    destruct (status_of st card_idx); cbn [status_eqb negb b2n Z.of_nat] in *; lia. }
  destruct Hcounts as [Hcor Hrev].
  unfold study_inv. cbn [study_order study_idx study_correct study_review with_order].
  rewrite (marked_ext _ st' _ Correct), (marked_ext _ st' _ Review) by reflexivity.
  assert (Hidx : study_idx st' = study_idx st).
  { unfold st'. destruct (negb (status_eqb (status_of st card_idx) Review));
      [destruct (status_eqb (status_of st card_idx) Correct)|]; reflexivity. }
  rewrite Hidx.
  split; [|split; [|split; [exact Hcor | split; [exact Hrev|]]]].
  - assert (Hperm : Permutation ((before ++ after) ++ [card_idx])
                      (before ++ card_idx :: after)).
    { rewrite <- app_assoc. apply Permutation_app_head.
      apply Permutation_sym, Permutation_cons_append. }
    rewrite <- Esplit in Hperm. etransitivity; [exact Hperm | exact I1].
  - assert (Elen : length (study_order st) = length before + S (length after)).
    { rewrite Esplit. now rewrite length_app. }
    unfold len in *. rewrite !length_app. simpl length. lia.
  - rewrite <- app_assoc, <- Hlen.
    rewrite firstn_app, Nat.sub_diag, firstn_all, firstn_O, app_nil_r.
    apply Forall_forall. intros c Hc'.
    unfold status_of. cbn [study_status with_order]. fold (status_of st' c).
    rewrite Hs. destruct (card_idx =? c)%Z eqn:E.
    + apply Z.eqb_eq in E. subst c. contradiction.
    + rewrite Forall_forall in I5. now apply I5.
Qed.

(** A run on a state that satisfies the invariant raises nothing and
    keeps the invariant. *)
Lemma study_run_inv shuffled cards ev st :
  valid_shuffle shuffled ->
  study_inv cards st ->
  exists st', study_run shuffled cards ev st = Ok st' /\ study_inv cards st'.
Proof.
  intros Hsh Hinv. unfold study_run.
  destruct (truthy cards) eqn:Ecards; cbn [negb]; [|eauto].
  assert (Hreset : forall b, exists st',
             Ok (reset_study shuffled (len cards) b) = Ok st' /\ study_inv cards st').
  { intros b. eexists. split; [reflexivity | now apply reset_study_inv]. }
  assert (Hmain :
    exists st',
      (let idx_in_deck := study_idx st in
       let st0 := if truthy (study_order st) then st
                  else reset_study shuffled (len cards) true in
       let order := study_order st0 in
       if (len order <=? idx_in_deck)%Z then Ok st0
       else
         card_idx <- py_index order idx_in_deck ;;
         (let st1 := if card_changed st0 card_idx
                     then with_last_card (with_show_answer st0 false) (Some card_idx)
                     else st0 in
          let st2 := if negb (status_mem (study_status st1) card_idx)
                     then with_status st1 (status_set (study_status st1) card_idx New)
                     else st1 in
          _ <- py_index cards card_idx ;;
          (let can_grade := study_show_answer st2 in
           match ev with
           | ClickPrev =>
               if (idx_in_deck <=? 0)%Z then Ok st2
               else Ok (with_idx st2 (Z.max 0 (idx_in_deck - 1)))
           | ClickShowAnswer => Ok (with_show_answer st2 true)
           | ClickCorrect =>
               if can_grade then Ok (mark_correct st2 order idx_in_deck card_idx)
               else Ok st2
           | ClickNeedsReview =>
               if can_grade then mark_review st2 order idx_in_deck card_idx
               else Ok st2
           | _ => Ok st2
           end)))%exc = Ok st'
      /\ study_inv cards st').
  { cbv zeta.
    assert (Horder : truthy (study_order st) = true).
    { destruct Hinv as (I1 & _). destruct (study_order st) eqn:E; [|reflexivity].
      apply Permutation_nil in I1. destruct cards; [discriminate|].
      unfold range, len in I1. simpl length in I1.
      rewrite Nat2Z.id in I1. simpl in I1. discriminate. }
    rewrite Horder.
    destruct (len (study_order st) <=? study_idx st)%Z eqn:Edone; [eauto|].
    apply Z.leb_gt in Edone.
    pose proof Hinv as (I1 & I2 & I3 & I4 & I5).
    destruct (py_index_ok (study_order st) (study_idx st) ltac:(lia))
      as (card_idx & -> & Hnth).
    cbn [bind].
    pose proof (show_card_same st card_idx) as Hsame. cbv zeta in Hsame.
    set (st2 := if negb (status_mem _ card_idx) then _ else _) in *.
    pose proof (study_inv_same cards st st2 Hsame Hinv) as Hinv2.
    destruct Hsame as (Ho & Hi & _).
    assert (Hcard : In card_idx (range (len cards))).
    { eapply Permutation_in; [exact I1|]. eapply nth_error_In; eauto. }
    apply In_range in Hcard.
    destruct (py_index_ok cards card_idx Hcard) as (row & -> & _).
    cbn [bind].
    rewrite <- Ho, <- Hi in *.
    destruct ev; try (eexists; split; [reflexivity | exact Hinv2]).
    - (* prev *)
      destruct (study_idx st2 <=? 0)%Z eqn:E0; [eauto|].
      apply Z.leb_gt in E0. eexists. split; [reflexivity|].
      destruct Hinv2 as (J1 & J2 & J3 & J4 & J5).
      unfold study_inv. cbn [study_order study_idx study_correct study_review with_idx].
      rewrite (marked_ext _ st2 _ Correct), (marked_ext _ st2 _ Review) by reflexivity.
      split; [assumption|]. split; [lia|]. split; [assumption|]. split; [assumption|].
      replace (Z.to_nat (study_idx st2)) with (S (Z.to_nat (Z.max 0 (study_idx st2 - 1))))
        in J5 by lia.
      rewrite Forall_forall in *. intros c Hc. apply J5.
      rewrite <- (firstn_skipn (Z.to_nat (Z.max 0 (study_idx st2 - 1)))
                    (firstn (S _) (study_order st2))).
      apply in_or_app. left. rewrite firstn_firstn.
      now rewrite Nat.min_l by lia.
    - (* correct *)
      destruct (study_show_answer st2); [|eauto].
      eexists. split; [reflexivity|]. now apply mark_correct_inv.
    - (* needs review *)
      destruct (study_show_answer st2); [|eauto].
      now apply mark_review_inv. }
  destruct ev; try exact Hmain; apply Hreset.
Qed.

(** ** What holds in every state of the study mode *)

(** The states of the study mode on a deck: the one a reset makes, and
    the one a run without exception makes of a state. *)
Inductive reachable (cards : list card) : session -> Prop :=
| reached_by_reset shuffled shuffle :
    valid_shuffle shuffled ->
    reachable cards (reset_study shuffled (len cards) shuffle)
| reached_by_run shuffled ev st st' :
    valid_shuffle shuffled ->
    reachable cards st ->
    study_run shuffled cards ev st = Ok st' ->
    reachable cards st'.

Lemma reachable_inv cards st : reachable cards st -> study_inv cards st.
Proof.
  induction 1 as [shuffled shuffle Hsh | shuffled ev st st' Hsh _ IH Hrun].
  - now apply reset_study_inv.
  - destruct (study_run_inv shuffled cards ev st Hsh IH) as (st1 & E & Hinv).
    congruence.
Qed.

Lemma count_two_statuses (f : Z -> status) l :
  length (filter (fun c => status_eqb (f c) Correct) l)
  + length (filter (fun c => status_eqb (f c) Review) l)
  <= length l.
Proof.
  induction l as [|c l IH]; simpl; [lia|].
  destruct (f c); simpl; lia.
Qed.

(** In every state of the study mode the order is a permutation of the
    card indices of the deck, the position is within it, the two counters
    shown are the numbers of cards whose status is "correct" and
    "review", and the next run raises nothing, whichever button is
    pressed. *)
Theorem study_counters_match_statuses :
  forall (cards : list card) (st : session),
    reachable cards st ->
    Permutation (study_order st) (range (len cards))
    /\ (0 <= study_idx st <= len (study_order st))%Z
    /\ study_correct st = marked (len cards) st Correct
    /\ study_review st = marked (len cards) st Review
    /\ (study_correct st + study_review st <= len cards)%Z
    /\ forall shuffled ev,
         valid_shuffle shuffled ->
         exists st', study_run shuffled cards ev st = Ok st'.
Proof.
  intros cards st Hreach. pose proof (reachable_inv cards st Hreach) as Hinv.
  pose proof Hinv as (I1 & I2 & I3 & I4 & I5).
  split; [assumption|]. split; [assumption|]. split; [assumption|].
  split; [assumption|]. split.
  - rewrite I3, I4. unfold marked.
    assert (H : length (filter (fun c => status_eqb (status_of st c) Correct)
                          (range (len cards)))
                + length (filter (fun c => status_eqb (status_of st c) Review)
                            (range (len cards)))
                <= length (range (len cards))).
    { apply count_two_statuses. }
    pose proof (length_range (len cards) ltac:(unfold len; lia)) as Hn.
    unfold len in *. lia.
  - intros shuffled ev Hsh.
    destruct (study_run_inv shuffled cards ev st Hsh Hinv) as (st' & E & _). eauto.
Qed.

(** The deck is complete, that is the position has reached the end of the
    order, only when every card of the deck has the status "correct":
    the counter of correct cards then shows the size of the deck and the
    counter of cards to review shows 0. *)
Theorem deck_complete_all_correct :
  forall (cards : list card) (st : session),
    reachable cards st ->
    (len (study_order st) <= study_idx st)%Z ->
    (forall c, (0 <= c < len cards)%Z -> status_of st c = Correct)
    /\ study_correct st = len cards
    /\ study_review st = 0%Z.
Proof.
  intros cards st Hreach Hdone.
  pose proof (reachable_inv cards st Hreach) as (I1 & I2 & I3 & I4 & I5).
  rewrite firstn_all2 in I5 by (unfold len in *; lia).
  assert (Hall : forall c, In c (range (len cards)) -> status_of st c = Correct).
  { intros c Hc. rewrite Forall_forall in I5. apply I5.
    eapply Permutation_in; [apply Permutation_sym; exact I1 | exact Hc]. }
  split; [intros c Hc; apply Hall; now apply In_range|]. split.
  - rewrite I3. unfold marked. rewrite filter_all.
    + apply length_range. unfold len. lia.
    + intros c Hc. now rewrite (Hall c Hc).
  - rewrite I4. unfold marked. rewrite filter_none; [reflexivity|].
    intros c Hc. now rewrite (Hall c Hc).
Qed.

(** ** A deck of one card, studied to the end *)

Definition one_card : list card := [new_card (lit "a") (lit "b")].

(** The shuffle that leaves the order as it is. *)
Definition keep_order (l : list Z) : list Z := l.

Lemma keep_order_valid : valid_shuffle keep_order.
Proof. intros l. apply Permutation_refl. Qed.

(** The state after a run, the state before it if the run raises. *)
Definition state_after (ev : click) (st : session) : session :=
  match study_run keep_order one_card ev st with
  | Ok st' => st'
  | Raise _ => st
  end.

Definition deck_reset : session := reset_study keep_order (len one_card) true.
Definition deck_shown : session := state_after ClickShowAnswer deck_reset.
Definition deck_done : session := state_after ClickCorrect deck_shown.

Lemma deck_done_reachable : reachable one_card deck_done.
Proof.
  apply (reached_by_run one_card keep_order ClickCorrect deck_shown deck_done
           keep_order_valid); [|reflexivity].
  apply (reached_by_run one_card keep_order ClickShowAnswer deck_reset deck_shown
           keep_order_valid); [|reflexivity].
  apply (reached_by_reset one_card keep_order true keep_order_valid).
Defined.

Lemma study_counters_witness :
  Permutation (study_order deck_done) (range (len one_card))
  /\ (0 <= study_idx deck_done <= len (study_order deck_done))%Z
  /\ study_correct deck_done = marked (len one_card) deck_done Correct
  /\ study_review deck_done = marked (len one_card) deck_done Review
  /\ (study_correct deck_done + study_review deck_done <= len one_card)%Z
  /\ forall shuffled ev,
       valid_shuffle shuffled ->
       exists st', study_run shuffled one_card ev deck_done = Ok st'.
Proof.
  exact (study_counters_match_statuses one_card deck_done deck_done_reachable).
Defined.

Lemma deck_complete_witness :
  (forall c, (0 <= c < len one_card)%Z -> status_of deck_done c = Correct)
  /\ study_correct deck_done = len one_card
  /\ study_review deck_done = 0%Z.
Proof.
  apply (deck_complete_all_correct one_card deck_done deck_done_reachable).
  vm_compute. discriminate.
Defined.

End StudyFacts.

(* ================================================================== *)
(** * The Anki text of the cards *)
(* ================================================================== *)

Module ExportFacts.
Import PyStr PyStrFacts PyRe Exc Llm CleanFacts Chunking ParserFacts ParsingFacts AnkiExport.

(** ** Lines and fields *)

Lemma well_formed_sides c x :
  well_formed c -> In x (question c) \/ In x (answer c) ->
  x <> TAB /\ x <> LF.
Proof.
  intros (_ & _ & _ & (q & Hq) & (a & Ha)) Hin.
  assert (Hsp : is_space x = true -> x = SPACE).
  { destruct Hin as [Hin | Hin]; [rewrite Hq in Hin | rewrite Ha in Hin].
    - now apply (_clean_piece_spaces q).
    - now apply (_clean_piece_spaces a). }
  split; intros ->; specialize (Hsp eq_refl); discriminate.
Qed.

Lemma split_once_tab q a :
  ~ In TAB q -> split_once [TAB] (q ++ [TAB] ++ a) = Some (q, a).
Proof.
  induction q as [|c q IH]; intros H.
  - simpl. reflexivity.
  - assert (Hc : (TAB =? c)%N = false).
    { apply N.eqb_neq. intros E. apply H. now left. }
    cbn [app split_once startswith]. rewrite Hc. cbn [andb].
    change (q ++ TAB :: a) with (q ++ [TAB] ++ a).
    rewrite IH by (intros Hin; apply H; now right). reflexivity.
Qed.

Lemma anki_line_no_lf c : well_formed c -> ~ In LF (anki_line c).
Proof.
  intros Hw Hin. unfold anki_line in Hin. rewrite !in_app_iff in Hin.
  destruct Hin as [Hin | [[E | []] | Hin]]; [| discriminate |].
  - now destruct (well_formed_sides c LF Hw (or_introl Hin)).
  - now destruct (well_formed_sides c LF Hw (or_intror Hin)).
Qed.

(** ** Bytes *)

Definition count (k : N) (l : list N) : nat := count_occ N.eq_dec l k.

Lemma count_app k a b : count k (a ++ b) = count k a + count k b.
Proof. apply count_occ_app. Qed.

Lemma count_absent k l : ~ In k l -> count k l = 0.
Proof. apply count_occ_not_In. Qed.

Lemma utf8_char_cases c :
  match utf8_char c with
  | Ok b => Forall (fun x => (x < 256)%N) b
            /\ forall k, (k < 128)%N -> count k b = count k [c]
  | Raise _ => True
  end.
Proof.
  unfold utf8_char. unfold char in c.
  destruct (c <? 128)%N eqn:E1.
  { apply N.ltb_lt in E1. split; [repeat constructor; lia | auto]. }
  apply N.ltb_ge in E1.
  assert (Hk : forall k, (k < 128)%N -> count k [c] = 0).
  { intros k Hk. apply count_absent. intros [-> | []]. lia. }
  assert (Hhigh : forall k l, (k < 128)%N -> Forall (fun x => (128 <= x)%N) l ->
                              count k l = 0).
  { intros k l Hlt Hl. apply count_absent. intros Hin.
    rewrite Forall_forall in Hl. specialize (Hl k Hin). lia. }
  assert (Hmod : forall x, (x mod 64 < 64)%N) by (intros x; apply N.mod_lt; lia).
  pose proof (Hmod c). pose proof (Hmod (c / 64)%N). pose proof (Hmod (c / 4096)%N).
  pose proof (N.le_0_l (c mod 64)). pose proof (N.le_0_l ((c / 64) mod 64)).
  pose proof (N.le_0_l ((c / 4096) mod 64)). pose proof (N.le_0_l (c / 64)).
  pose proof (N.le_0_l (c / 4096)). pose proof (N.le_0_l (c / 262144)).
  destruct (c <? 2048)%N eqn:E2.
  { apply N.ltb_lt in E2.
    assert (c / 64 < 32)%N by (apply N.Div0.div_lt_upper_bound; lia).
    split; [repeat apply Forall_cons; try apply Forall_nil; cbv beta; lia|].
    intros k Hlt. transitivity 0; [|symmetry; now apply Hk].
    apply Hhigh; [assumption|].
    repeat apply Forall_cons; try apply Forall_nil; cbv beta; lia. }
  destruct (c <? 65536)%N eqn:E3.
  { apply N.ltb_lt in E3.
    destruct ((55296 <=? c) && (c <=? 57343))%N; [exact I|].
    assert (c / 4096 < 16)%N by (apply N.Div0.div_lt_upper_bound; lia).
    split; [repeat apply Forall_cons; try apply Forall_nil; cbv beta; lia|].
    intros k Hlt. transitivity 0; [|symmetry; now apply Hk].
    apply Hhigh; [assumption|].
    repeat apply Forall_cons; try apply Forall_nil; cbv beta; lia. }
  destruct (c <? 1114112)%N eqn:E4; [|exact I].
  apply N.ltb_lt in E4.
  assert (c / 262144 < 8)%N by (apply N.Div0.div_lt_upper_bound; lia).
  split; [repeat apply Forall_cons; try apply Forall_nil; cbv beta; lia|].
  intros k Hlt. transitivity 0; [|symmetry; now apply Hk].
    apply Hhigh; [assumption|].
  repeat apply Forall_cons; try apply Forall_nil; cbv beta; lia.
Qed.

Lemma utf8_char_bytes c b :
  utf8_char c = Ok b ->
  Forall (fun x => (x < 256)%N) b
  /\ forall k, (k < 128)%N -> count k b = count k [c].
Proof. intros H. pose proof (utf8_char_cases c) as Hc. now rewrite H in Hc. Qed.

Lemma utf8_encode_bytes s : forall bytes,
  utf8_encode s = Ok bytes ->
  Forall (fun x => (x < 256)%N) bytes
  /\ forall k, (k < 128)%N -> count k bytes = count k s.
Proof.
  induction s as [|c s IH]; intros bytes H; simpl in H.
  - inversion H; subst. split; [constructor | reflexivity].
  - destruct (utf8_char c) as [b|e] eqn:Ec; [|discriminate]. simpl in H.
    destruct (utf8_encode s) as [rest|e] eqn:Es; [|discriminate]. simpl in H.
    inversion H; subst.
    destruct (utf8_char_bytes c b Ec) as [Hb Hcb].
    destruct (IH rest eq_refl) as [Hr Hcr].
    split; [now apply Forall_app|].
    intros k Hk. rewrite count_app, (Hcb k Hk), (Hcr k Hk).
    change (c :: s) with ([c] ++ s). now rewrite count_app.
Qed.

(** A code point that is no surrogate: what UTF-8 can encode. *)
Definition is_scalar (c : char) : bool :=
  ((c <? 55296) || ((57343 <? c) && (c <? 1114112)))%N.

Lemma utf8_char_ok c : (exists b, utf8_char c = Ok b) <-> is_scalar c = true.
Proof.
  unfold utf8_char, is_scalar. unfold char in c.
  destruct (c <? 128)%N eqn:E1; destruct (c <? 2048)%N eqn:E2;
    destruct (c <? 65536)%N eqn:E3; destruct (c <? 1114112)%N eqn:E4;
    destruct (55296 <=? c)%N eqn:E5; destruct (c <=? 57343)%N eqn:E6;
    destruct (c <? 55296)%N eqn:E7; destruct (57343 <? c)%N eqn:E8;
    cbn [andb orb];
    rewrite ?N.ltb_lt, ?N.ltb_ge, ?N.leb_le, ?N.leb_gt in *;
    try lia;
    (split; [intros (b & H); (reflexivity || discriminate)
            | intros H; (discriminate || eauto)]).
Qed.

Lemma utf8_encode_ok s :
  (exists bytes, utf8_encode s = Ok bytes) <-> forallb is_scalar s = true.
Proof.
  induction s as [|c s IH]; simpl.
  - split; eauto.
  - rewrite andb_true_iff, <- IH, <- utf8_char_ok. split.
    + intros (bytes & H). destruct (utf8_char c) as [b|e]; [|discriminate].
      simpl in H. destruct (utf8_encode s) as [rest|e]; [|discriminate].
      split; eauto.
    + intros [(b & ->) (rest & ->)]. simpl. eauto.
Qed.

Lemma count_join k sep lines :
  count k (join sep lines)
  = list_sum (map (count k) lines) + (length lines - 1) * count k sep.
Proof.
  induction lines as [|l lines IH]; [reflexivity|].
  destruct lines as [|l2 lines].
  - simpl. lia.
  - change (join sep (l :: l2 :: lines)) with (l ++ sep ++ join sep (l2 :: lines)).
    rewrite !count_app, IH. unfold list_sum. cbn [map fold_right length].
    rewrite !Nat.sub_succ, !Nat.sub_0_r. lia.
Qed.

Lemma anki_line_counts c :
  well_formed c -> count TAB (anki_line c) = 1 /\ count LF (anki_line c) = 0.
Proof.
  intros Hw. unfold anki_line. rewrite !count_app.
  assert (H : forall k, k = TAB \/ k = LF ->
                        count k (question c) = 0 /\ count k (answer c) = 0).
  { intros k Hk. split; apply count_absent; intros Hin.
    - destruct (well_formed_sides c k Hw (or_introl Hin)). destruct Hk; contradiction.
    - destruct (well_formed_sides c k Hw (or_intror Hin)). destruct Hk; contradiction. }
  destruct (H TAB (or_introl eq_refl)) as [-> ->].
  destruct (H LF (or_intror eq_refl)) as [-> ->].
  split; reflexivity.
Qed.

(** For cards as the parser makes them, the Anki text has one line per
    card, in the order of the cards, and every line splits at its first
    tab into the question and the answer.  The export returns bytes
    exactly when the text holds no surrogate code point; in these bytes
    the tab occurs once per card and the line feed once between two
    cards, so tabs and line feeds are field and record separators only. *)
Theorem anki_export_one_line_per_card : forall cards,
  Forall well_formed cards ->
  (cards <> [] -> split_lf (anki_txt cards) = map anki_line cards)
  /\ Forall (fun c => split_once [TAB] (anki_line c) = Some (question c, answer c))
            cards
  /\ ((exists bytes, to_anki_txt_bytes cards = Ok bytes)
      <-> forallb is_scalar (anki_txt cards) = true)
  /\ forall bytes,
       to_anki_txt_bytes cards = Ok bytes ->
       count TAB bytes = length cards
       /\ count LF bytes = length cards - 1
       /\ Forall (fun b => (b < 256)%N) bytes.
Proof.
  intros cards Hw. split; [|split; [|split; [apply utf8_encode_ok|]]].
  - intros Hne. unfold anki_txt. apply split_lf_join.
    + destruct cards; [contradiction | discriminate].
    + apply Forall_map. eapply Forall_impl; [|exact Hw].
      intros c Hc. now apply anki_line_no_lf.
  - eapply Forall_impl; [|exact Hw]. intros c Hc. cbv beta.
    apply split_once_tab. intros Hin.
    now destruct (well_formed_sides c TAB Hc (or_introl Hin)).
  - intros bytes H. unfold to_anki_txt_bytes in H.
    destruct (utf8_encode_bytes _ _ H) as [Hb Hc].
    rewrite (Hc TAB), (Hc LF) by reflexivity.
    unfold anki_txt. rewrite !count_join, length_map.
    assert (Hsum : list_sum (map (count TAB) (map anki_line cards)) = length cards
                   /\ list_sum (map (count LF) (map anki_line cards)) = 0).
    { clear H Hb Hc. induction Hw as [|c cards Hc _ [IH1 IH2]]; [split; reflexivity|].
      destruct (anki_line_counts c Hc) as [Ht Hl].
      unfold list_sum in *. cbn [map fold_right]. rewrite Ht, Hl, IH1, IH2.
      split; reflexivity. }
    destruct Hsum as [-> ->].
    change (count TAB [LF]) with 0. change (count LF [LF]) with 1.
    repeat split; [lia | lia | exact Hb].
Qed.

(** The cards of the sample answer, exported. *)
Lemma anki_export_witness :
  let cards := [new_card (lit "a") (lit "b"); new_card (lit "c") (lit "d")] in
  (cards <> [] -> split_lf (anki_txt cards) = map anki_line cards)
  /\ Forall (fun c => split_once [TAB] (anki_line c) = Some (question c, answer c))
            cards
  /\ ((exists bytes, to_anki_txt_bytes cards = Ok bytes)
      <-> forallb is_scalar (anki_txt cards) = true)
  /\ forall bytes,
       to_anki_txt_bytes cards = Ok bytes ->
       count TAB bytes = length cards
       /\ count LF bytes = length cards - 1
       /\ Forall (fun b => (b < 256)%N) bytes.
Proof.
  cbv zeta. apply anki_export_one_line_per_card.
  apply (first_nonempty_well_formed (fun _ => DecodeError) (fun _ => [])
           OrchestratorClaims.two_cards_text).
  reflexivity.
Defined.

(** ** Reading the export back *)

Lemma cards_rebuilt cards :
  Forall (fun c => source_chunk c = 0%Z) cards ->
  map (fun c => new_card (question c) (answer c)) cards = cards.
Proof.
  induction 1 as [|c cards Hs _ IH]; [reflexivity|].
  cbn [map]. f_equal; [|exact IH].
  destruct c as [q a s]. simpl in Hs. subst s. reflexivity.
Qed.

Section AnyDecoder.

Variable json_loads : str -> loads_outcome.
Variable py_repr : json -> str.

(** The Anki text of cards whose questions and answers the cleaning step
    leaves as they are, read by [_robust_parse_any], gives the same cards
    back, in the same order. *)
Theorem anki_export_parses_back : forall cards,
  cards <> [] ->
  Forall (fun c => RoundTrip.clean_text (question c)
                   /\ RoundTrip.clean_text (answer c)
                   /\ source_chunk c = 0%Z) cards ->
  _robust_parse_any json_loads py_repr (anki_txt cards) = Ok cards.
Proof.
  intros cards Hne H.
  set (pairs := map (fun c => (question c, answer c)) cards).
  assert (Etxt : anki_txt cards = RoundTrip.tsv_text pairs ++ []).
  { rewrite app_nil_r. unfold anki_txt, RoundTrip.tsv_text, pairs.
    rewrite map_map. reflexivity. }
  assert (Ecards : map (fun p => new_card (fst p) (snd p)) pairs = cards).
  { unfold pairs. rewrite map_map. cbn [fst snd]. apply cards_rebuilt.
    eapply Forall_impl; [|exact H]. intros c (_ & _ & Hs). exact Hs. }
  assert (Hpairs : Forall (fun p => RoundTrip.clean_text (fst p)
                                    /\ RoundTrip.clean_text (snd p)) pairs).
  { unfold pairs. apply Forall_map. eapply Forall_impl; [|exact H].
    intros c (Hq & Ha & _). auto. }
  unfold _robust_parse_any, parsers, first_nonempty.
  rewrite Etxt, (RoundTrip.tsv_round_trip pairs false Hpairs), Ecards.
  cbn [bind]. destruct cards; [contradiction | reflexivity].
Qed.

End AnyDecoder.

Lemma anki_export_parses_back_witness :
  _robust_parse_any (fun _ => DecodeError) (fun _ => [])
    (anki_txt [new_card (lit "What is X?") (lit "X is Y.")])
  = Ok [new_card (lit "What is X?") (lit "X is Y.")].
Proof.
  apply anki_export_parses_back; [discriminate|].
  repeat constructor; discriminate.
Defined.

End ExportFacts.
